(** * ASTU SmartDesk: the retrieval-augmented-generation core

    A shallow embedding of
    - [backend/utils/textProcessing.ts] (text cleaning and chunking),
    - [backend/utils/vectorUtils.ts] (cosine similarity and top-k selection),
    - the ingestion and answer pipelines of
      [backend/controllers/chatController.ts],
    followed by the properties of these functions.

    Conventions.  A JavaScript string is the list of its UTF-16 code units;
    string positions, lengths and the numeric parameters of the chunker are
    integers ([Z]); a JavaScript [number] that holds a measurement (a vector
    entry, a similarity score) is an IEEE-754 binary64 value ([float]). *)

From Stdlib Require Import ZArith List Bool Lia String Ascii DecimalString.
From Stdlib Require Import Floats Reals Lra Permutation.
Import ListNotations.

Local Open Scope Z_scope.

(* ================================================================= *)
(** ** JavaScript strings *)

Module JS.

(** A UTF-16 code unit. *)
Definition char := N.
Definition jsstring := list char.

(** A string literal of the source, character by character. *)
Definition str (s : string) : jsstring :=
  List.map N_of_ascii (list_ascii_of_string s).

(** [n] copies of a string literal: [s.repeat(n)]. *)
Definition rep (n : nat) (s : string) : jsstring :=
  List.concat (List.repeat (str s) n).

(** [s.length] *)
Definition len (s : jsstring) : Z := Z.of_nat (List.length s).

Definition TAB : char := 9%N.
Definition LF : char := 10%N.
Definition CR : char := 13%N.
Definition SP : char := 32%N.

(** The code units removed by [String.prototype.trim]: the WhiteSpace and
    LineTerminator productions of ECMAScript. *)
Definition isWhitespace (c : char) : bool :=
  ((9 <=? c) && (c <=? 13) || (c =? 32) || (c =? 160) || (c =? 5760)
   || (8192 <=? c) && (c <=? 8202) || (c =? 8232) || (c =? 8233)
   || (c =? 8239) || (c =? 8287) || (c =? 12288) || (c =? 65279))%N.

Fixpoint trimStart (s : jsstring) : jsstring :=
  match s with
  | [] => []
  | c :: r => if isWhitespace c then trimStart r else s
  end.

Fixpoint trimEnd (s : jsstring) : jsstring :=
  match s with
  | [] => []
  | c :: r =>
      match trimEnd r with
      | [] => if isWhitespace c then [] else [c]
      | r' => c :: r'
      end
  end.

(** [s.trim()] *)
Definition trim (s : jsstring) : jsstring := trimEnd (trimStart s).

Definition clamp (x lo hi : Z) : Z := Z.max lo (Z.min x hi).

(** [s.substring(a, b)]: both arguments are clamped to [0, s.length] and
    swapped when the first is the larger. *)
Definition substring (s : jsstring) (a b : Z) : jsstring :=
  let a' := clamp a 0 (len s) in
  let b' := clamp b 0 (len s) in
  let from := Z.min a' b' in
  let to := Z.max a' b' in
  firstn (Z.to_nat (to - from)) (skipn (Z.to_nat from) s).

Fixpoint startsWith (s pat : jsstring) : bool :=
  match pat, s with
  | [], _ => true
  | _ :: _, [] => false
  | p :: pat', c :: s' => (p =? c)%N && startsWith s' pat'
  end.

(** Does [pat] occur in [s] at position [k]? *)
Definition matchAt (s pat : jsstring) (k : nat) : bool :=
  startsWith (skipn k s) pat.

(** The largest position [<= k] at which [pat] occurs in [s], or [-1]. *)
Fixpoint lastIndexFrom (s pat : jsstring) (k : nat) : Z :=
  if matchAt s pat k then Z.of_nat k
  else match k with
       | O => -1
       | S k' => lastIndexFrom s pat k'
       end.

(** [s.lastIndexOf(pat, position)]: the position is clamped to
    [0, s.length] before the backwards search. *)
Definition lastIndexOf (s pat : jsstring) (position : Z) : Z :=
  lastIndexFrom s pat (Z.to_nat (clamp position 0 (len s))).

(** [===] on strings *)
Fixpoint jsEqb (s t : jsstring) : bool :=
  match s, t with
  | [], [] => true
  | c :: s', d :: t' => (c =? d)%N && jsEqb s' t'
  | _, _ => false
  end.

(** The decimal digits of an integer, as in a template literal. *)
Definition showZ (z : Z) : string := NilZero.string_of_int (Z.to_int z).

(** [s.includes(pat)] *)
Fixpoint includes (s pat : jsstring) : bool :=
  startsWith s pat
  || match s with
     | [] => false
     | _ :: r => includes r pat
     end.

(** [s.endsWith(pat)] *)
Definition endsWith (s pat : jsstring) : bool :=
  (List.length pat <=? List.length s)%nat
  && jsEqb (skipn (List.length s - List.length pat) s) pat.

End JS.

(* ================================================================= *)
(** ** backend/utils/textProcessing.ts *)

Module TextProcessing.
Import JS.

Record TextChunk := mkChunk {
  text : jsstring;
  index : Z;
  startChar : Z;
  endChar : Z
}.

(** [.replace(/\r\n/g, '\n')] *)
Fixpoint replaceCRLF (s : jsstring) : jsstring :=
  match s with
  | [] => []
  | c :: r =>
      match r with
      | d :: r' =>
          if ((c =? CR) && (d =? LF))%N then LF :: replaceCRLF r'
          else c :: replaceCRLF r
      | [] => [c]
      end
  end.

(** [.replace(/\r/g, '\n')] *)
Definition replaceCR (s : jsstring) : jsstring :=
  List.map (fun c => if (c =? CR)%N then LF else c) s.

Definition isSpaceOrTab (c : char) : bool := ((c =? SP) || (c =? TAB))%N.

(** [.replace(/[ \t]+/g, ' ')]: every maximal run of spaces and tabs
    becomes one space.  [inRun] tells that the previous code unit belonged
    to the run being replaced. *)
Fixpoint collapseSpaces (inRun : bool) (s : jsstring) : jsstring :=
  match s with
  | [] => []
  | c :: r =>
      if isSpaceOrTab c
      then (if inRun then collapseSpaces true r
            else SP :: collapseSpaces true r)
      else c :: collapseSpaces false r
  end.

(** [.replace(/\n{3,}/g, '\n\n')]: a maximal run of three or more newlines
    becomes two, shorter runs stay.  [seen] counts the newlines of the
    current run that were kept (at most two). *)
Fixpoint squeezeNewlines (seen : nat) (s : jsstring) : jsstring :=
  match s with
  | [] => []
  | c :: r =>
      if (c =? LF)%N
      then (if (seen <? 2)%nat then LF :: squeezeNewlines (S seen) r
            else squeezeNewlines seen r)
      else c :: squeezeNewlines 0 r
  end.

Definition cleanText (text : jsstring) : jsstring :=
  trim (squeezeNewlines 0
          (collapseSpaces false (replaceCR (replaceCRLF text)))).

Definition sentenceEnders : list jsstring :=
  [str ". "; str "! "; str "? "; [46; LF]; [33; LF]; [63; LF]]%N.

(** The state of the [for] loop of [findSentenceEnd]: [bestPos] and
    [minDistance], the latter [None] while it is still [Infinity]. *)
Definition enderStep (searchText : jsstring) (searchStart target : Z)
    (acc : Z * option Z) (ender : jsstring) : Z * option Z :=
  let pos := lastIndexOf searchText ender (target - searchStart) in
  if pos =? -1 then acc
  else
    let actualPos := searchStart + pos + len ender in
    let distance := Z.abs (actualPos - target) in
    match snd acc with
    | Some minDistance =>
        if distance <? minDistance then (actualPos, Some distance) else acc
    | None => (actualPos, Some distance)
    end.

Definition findSentenceEnd (text : jsstring) (start target : Z) : Z :=
  let searchStart := Z.max start (target - 200) in
  let searchEnd := Z.min (len text) (target + 100) in
  let searchText := substring text searchStart searchEnd in
  let bestPos :=
    fst (fold_left (enderStep searchText searchStart target)
                   sentenceEnders (-1, None)) in
  if bestPos >? start then bestPos else target.

(** The variables of the [while] loop of [chunkText]. *)
Record LoopState := mkState {
  st_startChar : Z;
  st_chunkIndex : Z;
  st_chunks : list TextChunk
}.

(** [chunks[chunks.length - 1]?.startChar], [None] for [undefined]. *)
Definition lastStart (chunks : list TextChunk) : option Z :=
  match rev chunks with
  | [] => None
  | c :: _ => Some (startChar c)
  end.

(** One execution of the body of the [while] loop. *)
Definition chunkStep (cleanedText : jsstring) (chunkSize overlap : Z)
    (st : LoopState) : LoopState :=
  let start := st_startChar st in
  let endChar0 := Z.min (start + chunkSize) (len cleanedText) in
  let endChar :=
    if endChar0 <? len cleanedText then
      let sentenceEnd := findSentenceEnd cleanedText start endChar0 in
      if sentenceEnd >? start then sentenceEnd else endChar0
    else endChar0 in
  let chunkTxt := trim (substring cleanedText start endChar) in
  let '(chunks, chunkIndex) :=
    if len chunkTxt >? 0
    then (st_chunks st ++ [mkChunk chunkTxt (st_chunkIndex st) start endChar],
          st_chunkIndex st + 1)
    else (st_chunks st, st_chunkIndex st) in
  let start1 := endChar - overlap in
  let start2 :=
    match lastStart chunks with
    | Some prev => if start1 <=? prev then endChar else start1
    | None => start1   (* a comparison with [undefined] is false *)
    end in
  mkState start2 chunkIndex chunks.

(** The [while] loop.  The result carries the number of times the body
    ran; [None] means that [fuel] iterations were not enough. *)
Fixpoint chunkLoop (fuel : nat) (cleanedText : jsstring)
    (chunkSize overlap : Z) (st : LoopState) : option (nat * LoopState) :=
  if st_startChar st <? len cleanedText then
    match fuel with
    | O => None
    | S fuel' =>
        match chunkLoop fuel' cleanedText chunkSize overlap
                        (chunkStep cleanedText chunkSize overlap st) with
        | Some (n, st') => Some (S n, st')
        | None => None
        end
    end
  else Some (O, st).

(** [chunkText(text, chunkSize, overlap)], with the number of loop
    iterations next to the chunks. *)
Definition chunkTextCounted (fuel : nat) (text : jsstring)
    (chunkSize overlap : Z) : option (nat * list TextChunk) :=
  let cleanedText := cleanText text in
  if len cleanedText <=? chunkSize then
    Some (O, [mkChunk cleanedText 0 0 (len cleanedText)])
  else
    match chunkLoop fuel cleanedText chunkSize overlap (mkState 0 0 []) with
    | Some (n, st) => Some (n, st_chunks st)
    | None => None
    end.

Definition chunkText (fuel : nat) (text : jsstring)
    (chunkSize overlap : Z) : option (list TextChunk) :=
  option_map snd (chunkTextCounted fuel text chunkSize overlap).

(** The default arguments of [chunkText]. *)
Definition defaultChunkSize : Z := 1000.
Definition defaultOverlap : Z := 200.

(** [truncateText(text, maxLength)]; [lastIndexOf] without a position
    searches from the end. *)
Definition truncateText (text : jsstring) (maxLength : Z) : jsstring :=
  if len text <=? maxLength then text
  else
    let truncated := substring text 0 maxLength in
    let lastSpace := lastIndexOf truncated [SP] (len truncated) in
    if lastSpace >? 0 then substring truncated 0 lastSpace ++ str "..."
    else truncated ++ str "...".

End TextProcessing.

(* ================================================================= *)
(** ** Thrown errors *)

(** The outcome of a call that can throw: a value, or the [message] of the
    [Error] thrown. *)
Inductive result (A : Type) : Type :=
| Ok (value : A)
| Throw (message : string).
Arguments Ok {A} value.
Arguments Throw {A} message.

Definition isOk {A : Type} (r : result A) : bool :=
  match r with Ok _ => true | Throw _ => false end.

(* ================================================================= *)
(** ** backend/utils/textProcessing.ts: reading files *)

Module FileExtraction.
Import JS.

(** The bytes of an uploaded file. *)
Definition Buffer := list N.

(** What lies outside the program: the calls into the [pdf-parse] module,
    which give the [text] of the parsed data ([None] when it has none) or
    throw, and the decoding of [buffer.toString('utf-8')]. *)
Record Readers := mkReaders {
  pdfParse : Buffer -> result (option jsstring);
  toUtf8 : Buffer -> jsstring
}.

(** The errors [extractTextFromFile] throws, by the template of their
    message. *)
Inductive ExtractError :=
| PdfExtractionFailed (message : string)
    (* [`Failed to extract text from PDF file: ${error.message}`] *)
| UnsupportedFileType (fileType : jsstring).
    (* [`Unsupported file type: ${fileType}. Supported: .txt, .pdf`] *)

Inductive Extracted :=
| Text (content : jsstring)
| ExtractFailed (error : ExtractError).

Definition extractTextFromFile (readers : Readers) (buffer : Buffer)
    (fileType : jsstring) : Extracted :=
  if jsEqb fileType (str "application/pdf") || endsWith fileType (str ".pdf")
  then
    match pdfParse readers buffer with
    | Ok (Some text) => Text text
    | Ok None => Text []                     (* [data.text || ''] *)
    | Throw message => ExtractFailed (PdfExtractionFailed message)
    end
  else if JS.includes fileType (str "text") || JS.includes fileType (str "txt")
  then Text (toUtf8 readers buffer)
  else ExtractFailed (UnsupportedFileType fileType).

End FileExtraction.

(* ================================================================= *)
(** ** backend/utils/vectorUtils.ts *)

(** The arithmetic the vector utilities use.  The program runs them on
    JavaScript numbers, which are binary64 floats; the same text is read over
    the real numbers to speak of the exact value of a formula. *)
Class Number (F : Type) := {
  nzero : F;
  nadd : F -> F -> F;
  nsub : F -> F -> F;
  nmul : F -> F -> F;
  ndiv : F -> F -> F;
  nsqrt : F -> F;
  neqb : F -> F -> bool;     (* [===] *)
  nltb : F -> F -> bool      (* [<] *)
}.

#[export] Instance float_Number : Number float := {|
  nzero := 0%float;
  nadd := PrimFloat.add;
  nsub := PrimFloat.sub;
  nmul := PrimFloat.mul;
  ndiv := PrimFloat.div;
  nsqrt := PrimFloat.sqrt;
  neqb := PrimFloat.eqb;
  nltb := PrimFloat.ltb
|}.

#[export] Instance real_Number : Number R := {|
  nzero := 0%R;
  nadd := Rplus;
  nsub := Rminus;
  nmul := Rmult;
  ndiv := Rdiv;
  nsqrt := sqrt;
  neqb := fun x y => if Req_dec_T x y then true else false;
  nltb := fun x y => if Rlt_dec x y then true else false
|}.

Module VectorUtils.
Section Generic.
Context {F : Type} `{Number F}.

(** The [for] loop of [cosineSimilarity], entered with vectors of equal
    length: [dotProduct], [normA] and [normB] are the accumulators. *)
Fixpoint accumulate (vecA vecB : list F) (dotProduct normA normB : F)
    : F * F * F :=
  match vecA, vecB with
  | a :: vecA', b :: vecB' =>
      accumulate vecA' vecB'
        (nadd dotProduct (nmul a b))
        (nadd normA (nmul a a))
        (nadd normB (nmul b b))
  | _, _ => (dotProduct, normA, normB)
  end.

Definition cosineSimilarity (vecA vecB : list F) : result F :=
  if negb (List.length vecA =? List.length vecB)%nat then
    Throw "Vectors must have the same dimension"
  else if (List.length vecA =? 0)%nat then Ok nzero
  else
    let '(dotProduct, normA, normB) :=
      accumulate vecA vecB nzero nzero nzero in
    let normA := nsqrt normA in
    let normB := nsqrt normB in
    if neqb normA nzero || neqb normB nzero then Ok nzero
    else Ok (ndiv dotProduct (nmul normA normB)).

(** The items of [findTopKSimilar]: any type with an [embedding] field,
    which at run time can be missing ([None]). *)
Context {T : Type} (embedding : T -> option (list F)).

(** [item.embedding && item.embedding.length > 0] *)
Definition hasEmbedding (item : T) : bool :=
  match embedding item with
  | Some (_ :: _) => true
  | _ => false
  end.

(** [items.filter(...).map(item => ({...item, similarity: ...}))]: the
    callback of [map] throws when [cosineSimilarity] does, which ends the
    whole call. *)
Fixpoint score (queryVector : list F) (items : list T)
    : result (list (T * F)) :=
  match items with
  | [] => Ok []
  | item :: rest =>
      match embedding item with
      | Some e =>
          match cosineSimilarity queryVector e with
          | Ok s =>
              match score queryVector rest with
              | Ok scored => Ok ((item, s) :: scored)
              | Throw m => Throw m
              end
          | Throw m => Throw m
          end
      | None => Throw "Cannot read properties of undefined"
      end
  end.

(** The comparator [(a, b) => b.similarity - a.similarity] asks for [a]
    after [b] when its value is positive. *)
Definition wantsAfter (a b : T * F) : bool :=
  nltb nzero (nsub (snd b) (snd a)).

(** [Array.prototype.sort] is a stable sort: an element moves behind a
    later one only when the comparator asks for it.  ECMAScript fixes the
    resulting order only for a consistent comparator; this one is
    consistent as long as no similarity is NaN, and the properties on the
    order proved below for the source are stated under that condition. *)
Fixpoint insertSorted (x : T * F) (l : list (T * F)) : list (T * F) :=
  match l with
  | [] => [x]
  | y :: l' => if wantsAfter x y then y :: insertSorted x l' else x :: l
  end.

Definition sortBySimilarity (l : list (T * F)) : list (T * F) :=
  fold_right insertSorted [] l.

(** [arr.slice(0, k)]: a negative [k] counts from the end. *)
Definition slice0 {A : Type} (l : list A) (k : Z) : list A :=
  let n := Z.of_nat (List.length l) in
  let stop := if k <? 0 then Z.max (n + k) 0 else Z.min k n in
  firstn (Z.to_nat stop) l.

Definition findTopKSimilar (queryVector : list F) (items : list T) (k : Z)
    : result (list (T * F)) :=
  match score queryVector (List.filter hasEmbedding items) with
  | Ok itemsWithScores => Ok (slice0 (sortBySimilarity itemsWithScores) k)
  | Throw m => Throw m
  end.

(** [vec.reduce((sum, val) => sum + val * val, 0)] *)
Definition sumOfSquares (vec : list F) : F :=
  fold_left (fun sum val => nadd sum (nmul val val)) vec nzero.

Definition normalizeVector (vec : list F) : list F :=
  let norm := nsqrt (sumOfSquares vec) in
  if neqb norm nzero then vec
  else List.map (fun val => ndiv val norm) vec.

(** The [for] loop of [euclideanDistance], entered with vectors of equal
    length. *)
Fixpoint sumSquaredDiffs (vecA vecB : list F) (sum : F) : F :=
  match vecA, vecB with
  | a :: vecA', b :: vecB' =>
      let diff := nsub a b in
      sumSquaredDiffs vecA' vecB' (nadd sum (nmul diff diff))
  | _, _ => sum
  end.

Definition euclideanDistance (vecA vecB : list F) : result F :=
  if negb (List.length vecA =? List.length vecB)%nat then
    Throw "Vectors must have the same dimension"
  else Ok (nsqrt (sumSquaredDiffs vecA vecB nzero)).

End Generic.
End VectorUtils.

(* ================================================================= *)
(** ** backend/controllers/chatController.ts *)

Module ChatController.
Import JS TextProcessing FileExtraction.

Definition ObjectId := Z.

Record ContactInfo := mkContactInfo {
  phone : option jsstring;
  email : option jsstring;
  office : option jsstring
}.

(** A document as the searches of the document model return it
    ([IDocument & { similarity?: number }]). *)
Record Document := mkDocument {
  doc_id : ObjectId;
  doc_title : jsstring;
  doc_content : jsstring;
  doc_category : jsstring;
  doc_similarity : option float;
  doc_officeLocation : option jsstring;
  doc_requiredDocuments : option (list jsstring);
  doc_processSteps : option (list jsstring);
  doc_deadlineDate : option Z;
  doc_contactInfo : option ContactInfo;
  doc_isChunk : bool;
  doc_chunkIndex : option Z
}.

(** The argument of [DocumentModel.create] in the ingestion pipeline;
    an absent field is [None]. *)
Record NewDocument := mkNewDocument {
  title : jsstring;
  content : jsstring;
  category : jsstring;
  tags : list jsstring;
  embedding : list float;
  uploadedBy : jsstring;
  isPublic : bool;
  isChunk : bool;
  parentDocumentId : option ObjectId;
  chunkIndex : option Z;
  chunkCount : option Z
}.

(** A record of the documents collection: the identifier and creation
    time the store gave it, and the fields it was created with. *)
Record StoredDocument := mkStored {
  stored_id : ObjectId;
  stored_createdAt : Z;
  stored : NewDocument
}.

Definition Collection := list StoredDocument.

(** What the embedding service answers to one request. *)
Inductive VoyageReply :=
| VoyageBody (first : option (list float))
    (* a 2xx answer; [first] is [data.data[0].embedding] when the body has
       a first entry *)
| VoyageHttpError (status : Z) (message : string)
    (* axios rejects with [err.response] set *)
| VoyageNoResponse (message : string).
    (* axios rejects without a response: timeout, network *)

(** What the generation service answers: the text of the response, or the
    message of the error that [generateContent] or the 30 s timer rejects
    with. *)
Inductive GeminiReply :=
| GeminiText (t : jsstring)
| GeminiError (message : string).

Inductive ModeBlock := NoModeBlock | WhereToGoBlock | DeadlineBlock.

(** The prompt sent to the generation service, by its parts: the mode
    block and the language directive appended to the system prompt, the
    documents of the context section (none: the section is left out), and
    the question. *)
Record Prompt := mkPrompt {
  p_mode : ModeBlock;
  p_amharic : bool;
  p_context : list Document;
  p_question : jsstring
}.

(** Everything outside the program that a request depends on. *)
Record World := mkWorld {
  voyageApiKey : bool;            (* [process.env.VOYAGE_API_KEY] is set *)
  voyage : jsstring -> VoyageReply;
  geminiApiKey : bool;            (* [process.env.GEMINI_API_KEY] is set *)
  gemini : Prompt -> GeminiReply;
  vectorSearch : list float -> Z -> result (list Document);
  findSimilar : jsstring -> Z -> result (option (list Document));
  documentCreate : NewDocument -> result unit;
    (* the store accepts the record, or [create] rejects *)
  historyFindOne : result unit;   (* [ChatHistory.findOne] resolves *)
  historySave : result unit;      (* [chatHistory.save] resolves *)
  now : Z;                        (* [Date.now()] *)
  voyageDelay : nat -> Z
    (* the time the embedding service takes to answer the request of the
       [n]-th of the callbacks started together *)
}.

(** *** generateEmbedding *)

(** The last statement of the [catch] block of [generateEmbedding]. *)
Definition failed (message : string) : result (option (list float)) :=
  Throw ("Failed to generate embedding: " ++ message).

Definition generateEmbedding (w : World) (text : jsstring)
    : result (option (list float)) :=
  if negb (voyageApiKey w) then failed "VOYAGE_API_KEY is not configured"
  else
    match voyage w text with
    | VoyageBody (Some embedding) =>
        if negb (Z.of_nat (List.length embedding) =? 1024)%Z then
          failed ("Invalid embedding dimensions: expected 1024, got "
                  ++ showZ (Z.of_nat (List.length embedding)))%string
        else Ok (Some embedding)
    | VoyageBody None => failed "Invalid response from Voyage AI"
    | VoyageHttpError status message =>
        if (status =? 401)%Z then Throw "Voyage AI API key is invalid"
        else if (status =? 429)%Z then Throw "Voyage AI rate limit exceeded"
        else failed message
    | VoyageNoResponse message => failed message
    end.

(** [embedding || []] *)
Definition orEmpty (embedding : option (list float)) : list float :=
  match embedding with Some e => e | None => [] end.

(** *** findRelevantDocumentsByEmbedding, findRelevantDocuments *)

Definition findRelevantDocumentsByEmbedding (w : World)
    (queryEmbedding : list float) (limit : Z) : list Document :=
  match vectorSearch w queryEmbedding limit with
  | Ok results => results
  | Throw _ => []
  end.

Definition findRelevantDocuments (w : World) (query : jsstring) (limit : Z)
    : list Document :=
  match findSimilar w query limit with
  | Ok (Some (d :: documents)) => d :: documents
  | Ok _ => []
  | Throw _ => []
  end.

(** *** generateAIResponse *)

(** [message.includes(pat)] *)
Fixpoint includes (message pat : string) : bool :=
  String.prefix pat message
  || match message with
     | EmptyString => false
     | String _ rest => includes rest pat
     end.

Definition buildPrompt (question : jsstring) (context : list Document)
    (language mode : jsstring) : Prompt :=
  mkPrompt
    (if jsEqb mode (str "where-to-go") then WhereToGoBlock
     else if jsEqb mode (str "deadline") then DeadlineBlock
     else NoModeBlock)
    (jsEqb language (str "am"))
    context question.

(** The [catch] block of [generateAIResponse]. *)
Definition rethrow (message : string) : result jsstring :=
  if includes message "API_KEY" then
    Throw "Gemini API key is invalid or missing"
  else if includes message "leaked" then
    Throw "Gemini API key has been blocked. Please update GEMINI_API_KEY in .env file with a new key from https://makersuite.google.com/app/apikey"
  else if includes message "403" then
    Throw "Gemini API access forbidden. Please check your API key."
  else if includes message "timeout" then
    Throw "AI response generation timed out"
  else if includes message "quota" then
    Throw "Gemini API quota exceeded"
  else Throw ("Failed to generate AI response: " ++ message).

Definition generateAIResponse (w : World) (question : jsstring)
    (context : list Document) (language mode : jsstring) : result jsstring :=
  if negb (geminiApiKey w) then rethrow "GEMINI_API_KEY is not configured"
  else
    match gemini w (buildPrompt question context language mode) with
    | GeminiText t =>
        if (len t =? 0)%Z || (len (trim t) =? 0)%Z
        then rethrow "Gemini returned empty response"
        else Ok t
    | GeminiError message => rethrow message
    end.

(** *** Chat history *)

Inductive Role := user | assistant.

Record Citation := mkCitation {
  cit_documentId : ObjectId;
  cit_title : jsstring;
  cit_category : jsstring
}.

Record ChatMessage := mkMessage {
  role : Role;
  msg_content : jsstring;
  timestamp : Z;
  msg_sources : option (list Citation)
}.

Record ChatHistory := mkChatHistory {
  ch_userId : jsstring;
  ch_sessionId : jsstring;
  messages : list ChatMessage;
  ch_language : jsstring;
  ch_mode : jsstring;
  isActive : bool
}.

Definition Histories := list ChatHistory.

Definition isSession (userId sessionId : jsstring) (h : ChatHistory) : bool :=
  jsEqb (ch_userId h) userId && jsEqb (ch_sessionId h) sessionId
  && isActive h.

(** [save]: the record found by [findOne] is replaced, a new one is
    added. *)
Fixpoint saveHistory (userId sessionId : jsstring) (h' : ChatHistory)
    (hs : Histories) : Histories :=
  match hs with
  | [] => [h']
  | h :: rest =>
      if isSession userId sessionId h then h' :: rest
      else h :: saveHistory userId sessionId h' rest
  end.

(** Step 4 of [askQuestion], the body of its inner [try]. *)
Definition recordExchange (w : World) (hs : Histories)
    (userId chatSessionId question aiResponse language mode : jsstring)
    (relevantDocs : list Document) : result unit * Histories :=
  match historyFindOne w with
  | Throw m => (Throw m, hs)
  | Ok _ =>
      let chatHistory :=
        match List.find (isSession userId chatSessionId) hs with
        | Some h => h
        | None => mkChatHistory userId chatSessionId [] language mode true
        end in
      let pushed :=
        messages chatHistory
        ++ [mkMessage user question (now w) None]
        ++ [mkMessage assistant aiResponse (now w)
              (Some (List.map (fun doc =>
                 mkCitation (doc_id doc) (doc_title doc) (doc_category doc))
                 relevantDocs))] in
      let chatHistory' :=
        mkChatHistory (ch_userId chatHistory) (ch_sessionId chatHistory)
          pushed (ch_language chatHistory) (ch_mode chatHistory)
          (isActive chatHistory) in
      match historySave w with
      | Throw m => (Throw m, hs)
      | Ok _ => (Ok tt, saveHistory userId chatSessionId chatHistory' hs)
      end
  end.

(** *** askQuestion *)

Record UserPayload := mkUser {
  user_id : jsstring;
  user_email : jsstring;
  user_role : jsstring
}.

Record AskRequest := mkAskRequest {
  req_question : option jsstring;
  req_language : option jsstring;
  req_mode : option jsstring;
  req_sessionId : option jsstring;
  req_validationErrors : list string;   (* [validationResult(req)] *)
  req_user : option UserPayload
}.

Record Source := mkSource {
  src_id : ObjectId;
  src_title : jsstring;
  src_category : jsstring;
  src_similarity : option float;
  src_officeLocation : option jsstring;
  src_requiredDocuments : option (list jsstring);
  src_processSteps : option (list jsstring);
  src_deadlineDate : option Z;
  src_contactInfo : option ContactInfo;
  src_isChunk : bool;
  src_chunkIndex : option Z
}.

Definition sourceOf (doc : Document) : Source :=
  mkSource (doc_id doc) (doc_title doc) (doc_category doc)
    (doc_similarity doc) (doc_officeLocation doc)
    (doc_requiredDocuments doc) (doc_processSteps doc)
    (doc_deadlineDate doc) (doc_contactInfo doc) (doc_isChunk doc)
    (doc_chunkIndex doc).

Record AnswerData := mkAnswerData {
  ans_question : jsstring;
  answer : jsstring;
  ans_language : jsstring;
  ans_mode : jsstring;
  sessionId : jsstring;
  sources : list Source;
  ans_timestamp : Z
}.

(** [res.status(code).json(...)]: a success body carries [data], a
    failure body a [message] and sometimes the [error] caught. *)
Inductive Response (A : Type) : Type :=
| Success (status : Z) (data : A)
| Failure (status : Z) (message : string) (error : option string).
Arguments Success {A} status data.
Arguments Failure {A} status message error.

(** A default value of a destructured body field: used when the field is
    [undefined]. *)
Definition orDefault (field : option jsstring) (d : string) : jsstring :=
  match field with Some v => v | None => str d end.

(** Steps 1 and 2 of [askQuestion]: the documents of the context. *)
Definition retrieve (w : World) (question : jsstring) : list Document :=
  let queryEmbedding :=
    match generateEmbedding w question with
    | Ok e => e
    | Throw _ => None
    end in
  match queryEmbedding with
  | Some (x :: e) =>
      match findRelevantDocumentsByEmbedding w (x :: e) 3 with
      | [] => findRelevantDocuments w question 3
      | relevantDocs => relevantDocs
      end
  | _ => findRelevantDocuments w question 3
  end.

(** [sessionId || `session_${req.user.id}_${Date.now()}`] *)
Definition resolveSessionId (w : World) (u : UserPayload)
    (sessionId : option jsstring) : jsstring :=
  match sessionId with
  | Some (c :: sid) => c :: sid
  | _ => str "session_" ++ user_id u ++ str "_" ++ str (showZ (now w))
  end.

Definition askQuestion (w : World) (hs : Histories) (req : AskRequest)
    : Response AnswerData * Histories :=
  let language := orDefault (req_language req) "en" in
  let mode := orDefault (req_mode req) "general" in
  match req_validationErrors req with
  | _ :: _ => (Failure 400 "Validation failed" None, hs)
  | [] =>
  match req_user req with
  | None => (Failure 401 "Not authorized" None, hs)
  | Some u =>
  match req_question req with
  | None => (Failure 400 "Please provide a question" None, hs)
  | Some question =>
      if (len question =? 0)%Z || (len (trim question) =? 0)%Z then
        (Failure 400 "Please provide a question" None, hs)
      else if (len question >? 1000)%Z then
        (Failure 400 "Question is too long (max 1000 characters)" None, hs)
      else
        let chatSessionId := resolveSessionId w u (req_sessionId req) in
        let relevantDocs := retrieve w question in
        match generateAIResponse w question relevantDocs language mode with
        | Throw m => (Failure 500 "Error processing your question" (Some m), hs)
        | Ok aiResponse =>
            let '(_, hs') :=
              recordExchange w hs (user_id u) chatSessionId question
                aiResponse language mode relevantDocs in
            (Success 200
               (mkAnswerData question aiResponse language mode chatSessionId
                  (List.map sourceOf relevantDocs) (now w)),
             hs')
        end
  end end end.

(** *** processAndSaveDocument, uploadDocument *)

(** The setters of the document schema, which the model applies to the
    fields given before it validates them: [trim: true] on [title] and on
    each of the [tags]. *)
Definition applySetters (fields : NewDocument) : NewDocument :=
  mkNewDocument (trim (title fields)) (content fields) (category fields)
    (List.map trim (tags fields)) (embedding fields) (uploadedBy fields)
    (isPublic fields) (isChunk fields) (parentDocumentId fields)
    (chunkIndex fields) (chunkCount fields).

(** [DocumentModel.create(fields)] *)
Definition create (w : World) (db : Collection) (fields : NewDocument)
    : result StoredDocument * Collection :=
  let fields := applySetters fields in
  match documentCreate w fields with
  | Throw m => (Throw m, db)
  | Ok _ =>
      let doc := mkStored (Z.of_nat (List.length db)) (now w) fields in
      (Ok doc, db ++ [doc])
  end.

(** [category || 'other'] after the default value of the parameter. *)
Definition categoryOrOther (category : option jsstring) : jsstring :=
  match category with
  | Some (c :: r) => c :: r
  | _ => str "other"
  end.

(** [tags || []] after the default value of the parameter. *)
Definition tagsOrNone (tags : option (list jsstring)) : list jsstring :=
  match tags with Some t => t | None => [] end.

(** [`${title} (Chunk ${index + 1}/${chunks.length})`] *)
Definition chunkTitle (title : jsstring) (index total : nat) : jsstring :=
  title ++ str " (Chunk " ++ str (showZ (Z.of_nat index + 1))
        ++ str "/" ++ str (showZ (Z.of_nat total)) ++ str ")".

(** The callback of [chunks.map(async (chunk, index) => ...)]. *)
Definition saveChunk (w : World) (title userId category : jsstring)
    (tags : list jsstring) (parentId : ObjectId) (total : nat)
    (index : nat) (chunk : TextChunk) (db : Collection)
    : result StoredDocument * Collection :=
  match generateEmbedding w (text chunk) with
  | Throw m => (Throw m, db)
  | Ok embedding =>
      create w db
        (mkNewDocument (chunkTitle title index total) (text chunk) category
           tags (orEmpty embedding) userId true true (Some parentId)
           (Some (TextProcessing.index chunk)) (Some (Z.of_nat total)))
  end.

(** [chunks.map(async (chunk, index) => ...)] starts one callback per
    chunk, in the order of the chunks; each sends its request to the
    embedding service and waits for the answer.  The callbacks go on in the
    order in which the answers arrive: the sooner an answer, the earlier
    its callback, and of two answers that take the same time the one
    requested first comes first.  [arrives x queue] puts callback [x],
    started before those of [queue], at its place. *)
Fixpoint arrives (w : World) (x : nat * TextChunk)
    (queue : list (nat * TextChunk)) : list (nat * TextChunk) :=
  match queue with
  | [] => [x]
  | y :: queue' =>
      if voyageDelay w (fst y) <? voyageDelay w (fst x)
      then y :: arrives w x queue'
      else x :: queue
  end.

(** The callbacks with their [index], in the order in which they go on. *)
Definition arrivalOrder (w : World) (chunks : list TextChunk)
    : list (nat * TextChunk) :=
  fold_right (arrives w) [] (combine (seq 0 (List.length chunks)) chunks).

(** The callbacks run each to its end, whatever the others do.  The store
    is taken to handle the [create] calls in the order in which they are
    made and to answer each before the next embedding is looked at, so the
    callbacks run one after the other in the order of [queue]; each is
    recorded with its [index] and what its promise settles with. *)
Fixpoint runCallbacks (w : World) (title userId category : jsstring)
    (tags : list jsstring) (parentId : ObjectId) (total : nat)
    (queue : list (nat * TextChunk)) (db : Collection)
    : list (nat * result StoredDocument) * Collection :=
  match queue with
  | [] => ([], db)
  | (index, chunk) :: rest =>
      let '(r, db1) :=
        saveChunk w title userId category tags parentId total index chunk db in
      let '(rs, db2) :=
        runCallbacks w title userId category tags parentId total rest db1 in
      ((index, r) :: rs, db2)
  end.

(** The reason of the first promise that rejects. *)
Fixpoint firstRejection {A : Type} (settled : list (nat * result A))
    : option string :=
  match settled with
  | [] => None
  | (_, Throw m) :: _ => Some m
  | (_, Ok _) :: rest => firstRejection rest
  end.

(** The value of the promise at position [index]. *)
Fixpoint valueAt {A : Type} (settled : list (nat * result A)) (index : nat)
    : list A :=
  match settled with
  | [] => []
  | (i, r) :: rest =>
      if (i =? index)%nat
      then match r with Ok v => [v] | Throw _ => [] end
      else valueAt rest index
  end.

(** [Promise.all] of [total] promises that have settled in the order
    [settled]: it rejects with the reason of the first rejection, and
    resolves with the values in the order of the promises. *)
Definition promiseAll {A : Type} (total : nat)
    (settled : list (nat * result A)) : result (list A) :=
  match firstRejection settled with
  | Some m => Throw m
  | None => Ok (flat_map (valueAt settled) (seq 0 total))
  end.

(** [await Promise.all(chunks.map(...))] *)
Definition saveChunks (w : World) (title userId category : jsstring)
    (tags : list jsstring) (parentId : ObjectId) (chunks : list TextChunk)
    (db : Collection) : result (list StoredDocument) * Collection :=
  let '(settled, db') :=
    runCallbacks w title userId category tags parentId (List.length chunks)
      (arrivalOrder w chunks) db in
  (promiseAll (List.length chunks) settled, db').

(** What [processAndSaveDocument] returns. *)
Record Saved := mkSaved {
  saved_id : ObjectId;
  saved_title : jsstring;
  saved_category : jsstring;
  chunksCreated : option Z;
  saved_createdAt : Z
}.

(** [None]: the loop of [chunkText] did not end within [fuel]
    iterations. *)
Definition processAndSaveDocument (fuel : nat) (w : World) (db : Collection)
    (title content userId : jsstring) (category : option jsstring)
    (tags : option (list jsstring))
    : option (result Saved * Collection) :=
  let cleanedContent := cleanText content in
  let needsChunking := (len cleanedContent >? 2000)%Z in
  if needsChunking then
    match chunkText fuel cleanedContent 1000 200 with
    | None => None
    | Some chunks =>
        let total := List.length chunks in
        match create w db
                (mkNewDocument title cleanedContent (categoryOrOther category)
                   (tagsOrNone tags) [] userId true false None None
                   (Some (Z.of_nat total))) with
        | (Throw m, db1) => Some (Throw m, db1)
        | (Ok parentDoc, db1) =>
            match saveChunks w title userId (categoryOrOther category)
                    (tagsOrNone tags) (stored_id parentDoc) chunks db1 with
            | (Throw m, db2) => Some (Throw m, db2)
            | (Ok _, db2) =>
                Some (Ok (mkSaved (stored_id parentDoc)
                            (ChatController.title (stored parentDoc))
                            (ChatController.category (stored parentDoc))
                            (Some (Z.of_nat total))
                            (stored_createdAt parentDoc)), db2)
            end
        end
    end
  else
    match generateEmbedding w cleanedContent with
    | Throw m => Some (Throw m, db)
    | Ok embedding =>
        match create w db
                (mkNewDocument title cleanedContent (categoryOrOther category)
                   (tagsOrNone tags) (orEmpty embedding) userId true false
                   None None None) with
        | (Throw m, db1) => Some (Throw m, db1)
        | (Ok document, db1) =>
            Some (Ok (mkSaved (stored_id document)
                        (ChatController.title (stored document))
                        (ChatController.category (stored document))
                        None (stored_createdAt document)), db1)
        end
    end.

Record UploadRequest := mkUploadRequest {
  up_title : option jsstring;
  up_content : option jsstring;
  up_category : option jsstring;
  up_tags : option (list jsstring);
  up_validationErrors : list string;
  up_user : option UserPayload
}.

(** [!value] for a string field of the body. *)
Definition missing (field : option jsstring) : bool :=
  match field with Some (_ :: _) => false | _ => true end.

Definition uploadDocument (fuel : nat) (w : World) (db : Collection)
    (req : UploadRequest) : option (Response Saved * Collection) :=
  match up_validationErrors req with
  | _ :: _ => Some (Failure 400 "Validation failed" None, db)
  | [] =>
  match up_user req with
  | None => Some (Failure 401 "Not authorized" None, db)
  | Some u =>
      if missing (up_title req) || missing (up_content req) then
        Some (Failure 400 "Please provide title and content" None, db)
      else
        match processAndSaveDocument fuel w db
                (orDefault (up_title req) "") (orDefault (up_content req) "")
                (user_id u) (up_category req) (up_tags req) with
        | None => None
        | Some (Ok saved, db') => Some (Success 201 saved, db')
        | Some (Throw m, db') =>
            Some (Failure 500 "Error uploading document" (Some m), db')
        end
  end end.

(** *** uploadFile *)

(** [req.file] as multer's memory storage leaves it. *)
Record UploadedFile := mkFile {
  originalname : jsstring;
  mimetype : jsstring;
  buffer : Buffer
}.

Record FileRequest := mkFileRequest {
  file_title : option jsstring;
  file_category : option jsstring;
  file_tags : option (list jsstring);
  file_file : option UploadedFile;
  file_user : option UserPayload
}.

(** The [error] of a failure body of [uploadFile]: the message of the
    error caught. *)
Inductive FileError :=
| ExtractionError (e : ExtractError)
| OtherError (message : string).

Inductive FileResponse :=
| FileSuccess (status : Z) (data : Saved)
| FileFailure (status : Z) (message : string) (error : option FileError).

(** [a || b] on strings *)
Definition orElse (a b : jsstring) : jsstring :=
  match a with [] => b | _ => a end.

Definition uploadFile (readers : Readers) (fuel : nat) (w : World)
    (db : Collection) (req : FileRequest)
    : option (FileResponse * Collection) :=
  match file_user req with
  | None => Some (FileFailure 401 "Not authorized" None, db)
  | Some u =>
  match file_file req with
  | None => Some (FileFailure 400 "Please upload a file" None, db)
  | Some file =>
      match extractTextFromFile readers (buffer file)
              (orElse (mimetype file) (originalname file)) with
      | ExtractFailed e =>
          Some (FileFailure 500 "Error processing uploaded file"
                  (Some (ExtractionError e)), db)
      | Text content =>
          if (len content =? 0)%Z || (len (trim content) =? 0)%Z then
            Some (FileFailure 400
                    "Could not extract text from the uploaded file" None, db)
          else
            let title :=
              orElse (orDefault (file_title req) "") (originalname file) in
            match processAndSaveDocument fuel w db title content (user_id u)
                    (file_category req) (file_tags req) with
            | None => None
            | Some (Ok saved, db') => Some (FileSuccess 201 saved, db')
            | Some (Throw m, db') =>
                Some (FileFailure 500 "Error processing uploaded file"
                        (Some (OtherError m)), db')
            end
      end
  end end.

(** *** deleteDocument *)

(** Whether the calls of [deleteDocument] into the store resolve. *)
Record StoreCalls := mkStoreCalls {
  findById : result unit;
  deleteMany : result unit;
  deleteOne : result unit
}.

Definition hasId (id : ObjectId) (d : StoredDocument) : bool :=
  (stored_id d =? id)%Z.

Definition isChildOf (id : ObjectId) (d : StoredDocument) : bool :=
  match parentDocumentId (stored d) with
  | Some parent => (parent =? id)%Z
  | None => false
  end.

(** [!document.isChunk && document.chunkCount && document.chunkCount > 0] *)
Definition hasChunks (d : StoredDocument) : bool :=
  negb (isChunk (stored d))
  && match chunkCount (stored d) with
     | Some n => (n >? 0)%Z
     | None => false
     end.

(** The store identifies a record by its [_id]: [deleteOne] removes the
    record of that identifier, [deleteMany] every record whose
    [parentDocumentId] is the identifier given. *)
Definition deleteDocument (calls : StoreCalls) (db : Collection)
    (user : option UserPayload) (id : ObjectId)
    : Response unit * Collection :=
  match user with
  | None => (Failure 401 "Not authorized" None, db)
  | Some _ =>
  match findById calls with
  | Throw m => (Failure 500 "Error deleting document" (Some m), db)
  | Ok _ =>
  match List.find (hasId id) db with
  | None => (Failure 404 "Document not found" None, db)
  | Some document =>
      let afterChunks :=
        if hasChunks document then
          match deleteMany calls with
          | Throw m => Throw m
          | Ok _ => Ok (List.filter (fun d => negb (isChildOf id d)) db)
          end
        else Ok db in
      match afterChunks with
      | Throw m => (Failure 500 "Error deleting document" (Some m), db)
      | Ok db1 =>
          match deleteOne calls with
          | Throw m => (Failure 500 "Error deleting document" (Some m), db1)
          | Ok _ =>
              (Success 200 tt,
               List.filter (fun d => negb (hasId (stored_id document) d)) db1)
          end
      end
  end end end.

(** *** getChatSession, deleteChatSession *)

Definition getChatSession (w : World) (hs : Histories)
    (user : option UserPayload) (sessionId : jsstring)
    : Response ChatHistory :=
  match user with
  | None => Failure 401 "Not authorized" None
  | Some u =>
      match historyFindOne w with
      | Throw m => Failure 500 "Error fetching chat session" (Some m)
      | Ok _ =>
          match List.find (isSession (user_id u) sessionId) hs with
          | None => Failure 404 "Chat session not found" None
          | Some chatHistory => Success 200 chatHistory
          end
      end
  end.

(** The update [{ isActive: false }]. *)
Definition deactivated (h : ChatHistory) : ChatHistory :=
  mkChatHistory (ch_userId h) (ch_sessionId h) (messages h)
    (ch_language h) (ch_mode h) false.

(** [findOneAndUpdate]: the first record matching the filter is updated;
    [None] when none matches. *)
Fixpoint deactivate (userId sessionId : jsstring) (hs : Histories)
    : option Histories :=
  match hs with
  | [] => None
  | h :: rest =>
      if isSession userId sessionId h then Some (deactivated h :: rest)
      else option_map (cons h) (deactivate userId sessionId rest)
  end.

(** [findOneAndUpdate] tells whether the call into the store resolves. *)
Definition deleteChatSession (findOneAndUpdate : result unit)
    (hs : Histories) (user : option UserPayload) (sessionId : jsstring)
    : Response unit * Histories :=
  match user with
  | None => (Failure 401 "Not authorized" None, hs)
  | Some u =>
      match findOneAndUpdate with
      | Throw m => (Failure 500 "Error deleting chat session" (Some m), hs)
      | Ok _ =>
          match deactivate (user_id u) sessionId hs with
          | None => (Failure 404 "Chat session not found" None, hs)
          | Some hs' => (Success 200 tt, hs')
          end
      end
  end.

End ChatController.

(* ================================================================= *)
(** ** backend/middleware/auth.ts, backend/routes/chat.ts *)

Module Routes.
Import JS FileExtraction ChatController.

(** What a middleware does with a request: it passes it on, or answers
    it. *)
Inductive Verdict :=
| Next
| Answered (status : Z) (message : jsstring).

(** [authorize(...roles)], run behind [protect], which has set
    [req.user]. *)
Definition authorize (roles : list jsstring) (user : option UserPayload)
    : Verdict :=
  match user with
  | None => Answered 401 (str "Not authorized")
  | Some u =>
      if existsb (jsEqb (user_role u)) roles then Next
      else Answered 403
             (str "User role '" ++ user_role u
              ++ str "' is not authorized to access this route")
  end.

(** The [fileFilter] of the multer configuration. *)
Definition fileFilter (file : UploadedFile) : bool :=
  jsEqb (mimetype file) (str "application/pdf")
  || jsEqb (mimetype file) (str "text/plain")
  || endsWith (originalname file) (str ".pdf")
  || endsWith (originalname file) (str ".txt").

(** The outcome of a request on a route: a middleware answered it, or the
    handler did. *)
Inductive Outcome (A : Type) : Type :=
| Stopped (status : Z) (message : jsstring)
| Handled (response : A).
Arguments Stopped {A} status message.
Arguments Handled {A} response.

Definition staff : list jsstring := [str "admin"; str "staff"].

(** [POST /upload/text]: [authorize('admin', 'staff')], the validators,
    whose findings the request carries, then [uploadDocument]. *)
Definition postUploadText (fuel : nat) (w : World) (db : Collection)
    (req : UploadRequest)
    : option (Outcome (Response Saved) * Collection) :=
  match authorize staff (up_user req) with
  | Answered status message => Some (Stopped status message, db)
  | Next =>
      match uploadDocument fuel w db req with
      | None => None
      | Some (response, db') => Some (Handled response, db')
      end
  end.

(** The [fileSize] limit of the multer configuration. *)
Definition fileSizeLimit : Z := 10 * 1024 * 1024.

(** [POST /upload/file]: [authorize('admin', 'staff')],
    [upload.single('file')], then [uploadFile].  Multer passes on an error
    for a file that the filter refuses or that exceeds the size limit; the
    error handler of [server.ts] answers it with status 500 and the
    message of the error. *)
Definition postUploadFile (readers : Readers) (fuel : nat) (w : World)
    (db : Collection) (req : FileRequest)
    : option (Outcome FileResponse * Collection) :=
  match authorize staff (file_user req) with
  | Answered status message => Some (Stopped status message, db)
  | Next =>
      match file_file req with
      | Some file =>
          if negb (fileFilter file) then
            Some (Stopped 500 (str "Only .pdf and .txt files are supported"),
                  db)
          else if (fileSizeLimit <? Z.of_nat (List.length (buffer file)))%Z
          then Some (Stopped 500 (str "File too large"), db)
          else
            match uploadFile readers fuel w db req with
            | None => None
            | Some (response, db') => Some (Handled response, db')
            end
      | None =>
          match uploadFile readers fuel w db req with
          | None => None
          | Some (response, db') => Some (Handled response, db')
          end
      end
  end.

(** [DELETE /documents/:id] *)
Definition deleteDocumentRoute (calls : StoreCalls) (db : Collection)
    (user : option UserPayload) (id : ObjectId)
    : Outcome (Response unit) * Collection :=
  match authorize staff user with
  | Answered status message => (Stopped status message, db)
  | Next =>
      let '(response, db') := deleteDocument calls db user id in
      (Handled response, db')
  end.

End Routes.

(* ================================================================= *)
(** * Vocabulary of the properties *)

Import JS TextProcessing FileExtraction VectorUtils ChatController Routes.

(** ** The shape of cleaned text *)

(** No carriage return is left. *)
Definition noCR (s : jsstring) : bool :=
  forallb (fun c => negb (c =? CR)%N) s.

(** No tab is left and no two spaces are adjacent; [afterSpace] tells that
    the code unit before [s] is a space. *)
Fixpoint spacesOK (afterSpace : bool) (s : jsstring) : bool :=
  match s with
  | [] => true
  | c :: r =>
      if isSpaceOrTab c
      then (c =? SP)%N && negb afterSpace && spacesOK true r
      else spacesOK false r
  end.

(** No three newlines are adjacent; [seen] newlines precede [s]. *)
Fixpoint newlinesOK (seen : nat) (s : jsstring) : bool :=
  match s with
  | [] => true
  | c :: r =>
      if (c =? LF)%N then (seen <? 2)%nat && newlinesOK (S seen) r
      else newlinesOK 0 r
  end.

(** The three conditions together. *)
Definition cleaned (s : jsstring) : Prop :=
  noCR s = true /\ spacesOK false s = true /\ newlinesOK 0 s = true.

(** ** The loop of [chunkText] *)

(** Where the loop of [findSentenceEnd] can leave [bestPos]. *)
Definition bestPosOK (searchText : jsstring) (searchStart target : Z)
    (bestPos : Z) : Prop :=
  bestPos = -1
  \/ (searchStart + 2 <= bestPos
      /\ bestPos <= searchStart
                    + clamp (target - searchStart) 0 (len searchText) + 2
      /\ bestPos <= searchStart + len searchText).

Section LoopVocabulary.
Variables (cleanedText : jsstring) (chunkSize overlap : Z).

(** [endChar] as the loop body computes it from [startChar]. *)
Definition cutPoint (start : Z) : Z :=
  let endChar0 := Z.min (start + chunkSize) (len cleanedText) in
  if endChar0 <? len cleanedText then
    let sentenceEnd := findSentenceEnd cleanedText start endChar0 in
    if sentenceEnd >? start then sentenceEnd else endChar0
  else endChar0.

(** The text of the chunk cut at [start]. *)
Definition chunkAt (start : Z) : jsstring :=
  trim (substring cleanedText start (cutPoint start)).

(** [startChar] for the next iteration. *)
Definition nextStart (chunks : list TextChunk) (start : Z) : Z :=
  match lastStart chunks with
  | Some prev =>
      if cutPoint start - overlap <=? prev then cutPoint start
      else cutPoint start - overlap
  | None => cutPoint start - overlap
  end.

(** The loop body run [n] times, or until the loop condition fails. *)
Fixpoint runSteps (n : nat) (st : LoopState) : LoopState :=
  match n with
  | O => st
  | S n' =>
      if st_startChar st <? len cleanedText
      then runSteps n' (chunkStep cleanedText chunkSize overlap st)
      else st
  end.

(** The text of a chunk exceeds the window by at most two characters. *)
Definition fitsWindow (c : TextChunk) : Prop := len (text c) <= chunkSize + 2.

(** An upper bound of the number of iterations still to run from [start]
    with the default parameters. *)
Definition remaining (start : Z) : Z :=
  if len cleanedText <=? start then 0
  else if len cleanedText <=? start + 1000
       then (if len cleanedText - 200 <=? start then 1 else 2)
       else (len cleanedText - 1000 - start + 601) / 602 + 2.

End LoopVocabulary.

(** The start of the last chunk is never behind the cursor. *)
Definition cursorOK (st : LoopState) : Prop :=
  0 <= st_startChar st
  /\ forall prev, lastStart (st_chunks st) = Some prev ->
                  prev <= st_startChar st.

(** The chunks are numbered by their position, and [chunkIndex] is the
    number of the next one. *)
Definition numbered (st : LoopState) : Prop :=
  st_chunkIndex st = Z.of_nat (List.length (st_chunks st))
  /\ forall i c, nth_error (st_chunks st) i = Some c -> index c = Z.of_nat i.

(** The number of loop iterations [chunkText] needs at most with its default
    parameters: none when the normalized text has at most 1000 characters,
    otherwise [ceil ((L - 1000) / 602) + 2] for a normalized length [L]. *)
Definition iterationBound (s : jsstring) : nat :=
  let L := len (cleanText s) in
  if L <=? defaultChunkSize then O
  else Z.to_nat ((L - defaultChunkSize + 601) / 602 + 2).

(** The bound the specification gives:
    [ceil (L / (maxChunkSize - overlap))]. *)
Definition claimedBound (s : jsstring) : Z :=
  (len (cleanText s) + (defaultChunkSize - defaultOverlap - 1))
  / (defaultChunkSize - defaultOverlap).

(** ** Numbers and similarities *)

(** The two zeros of binary64. *)
Definition isZero (x : float) : Prop := (x = 0 \/ x = -0)%float.

(** The Cauchy-Schwarz inequality, kept along the loop of
    [cosineSimilarity]. *)
Definition cauchy (acc : R * R * R) : Prop :=
  let '(d, na, nb) := acc in (0 <= na /\ 0 <= nb /\ d * d <= na * nb)%R.

(** A number of the specification of binary64 is above zero. *)
Definition positive_float (x : spec_float) : bool := SFltb (S754_zero false) x.

(** [x] is not followed by a greater similarity in [y]. *)
Definition descends {T : Type} (x y : T * float) : Prop :=
  (snd x <? snd y)%float = false.

(** The similarity of [y] is at most that of [x]. *)
Definition atLeast {T : Type} (x y : T * float) : Prop :=
  (snd y <=? snd x)%float = true.

(** Consecutive elements are related by [R]. *)
Fixpoint chain {A : Type} (R : A -> A -> Prop) (l : list A) : Prop :=
  match l with
  | [] => True
  | x :: rest =>
      match rest with
      | [] => True
      | y :: _ => R x y /\ chain R rest
      end
  end.

(** The items scored, in their order, each with the value of
    [cosineSimilarity] on the query and its embedding. *)
Definition scoredFrom {T : Type} (embedding : T -> option (list float))
    (queryVector : list float) (items : list T) (out : list (T * float))
    : Prop :=
  List.map fst out = items
  /\ forall item s, In (item, s) out ->
       exists e, embedding item = Some e
                 /\ cosineSimilarity queryVector e = Ok s.

(** ** The pipelines *)

Section IngestionVocabulary.
Variable w : World.
Variables (title userId cat : jsstring) (tgs : list jsstring).

(** The embedding stored with a text when the embedding service answers
    the request for it. *)
Definition embeddingOf (t : jsstring) : list float :=
  match generateEmbedding w t with
  | Ok e => orEmpty e
  | Throw _ => []
  end.

(** The record of the chunk of callback [i] among [total], stored under
    [id] as a child of [parentId]. *)
Definition childRecord (parentId : ObjectId) (total i : nat)
    (chunk : TextChunk) (id : ObjectId) : StoredDocument :=
  mkStored id (now w)
    (applySetters
       (mkNewDocument (chunkTitle title i total) (text chunk) cat tgs
          (embeddingOf (text chunk)) userId true true (Some parentId)
          (Some (index chunk)) (Some (Z.of_nat total)))).

(** The records of the chunks of a queue of callbacks, stored under
    successive identifiers. *)
Fixpoint childRecords (parentId : ObjectId) (total : nat) (id : ObjectId)
    (queue : list (nat * TextChunk)) : list StoredDocument :=
  match queue with
  | [] => []
  | (i, chunk) :: rest =>
      childRecord parentId total i chunk id
      :: childRecords parentId total (id + 1) rest
  end.

End IngestionVocabulary.

(** The request passes the checks at the head of [askQuestion]. *)
Definition validQuestion (req : AskRequest) (u : UserPayload)
    (question : jsstring) : Prop :=
  req_validationErrors req = []
  /\ req_user req = Some u
  /\ req_question req = Some question
  /\ 0 < len (trim question)
  /\ len question <= 1000.

(** ** Sample worlds and requests *)

(** A world in which every service answers: the embedding service with a
    vector of 1024 zeros, each time after the same delay, the searches with
    no document, the generation service with a fixed text. *)
Definition demoEmbedding : list float := List.repeat 0%float 1024.

Definition demoWorld : World :=
  mkWorld true (fun _ => VoyageBody (Some demoEmbedding))
          true (fun _ => GeminiText (str "Please ask the registrar."))
          (fun _ _ => Ok []) (fun _ _ => Ok (Some []))
          (fun _ => Ok tt) (Ok tt) (Ok tt) 1700000000000 (fun _ => 0).

(** A content of 300 ten-character sentences: 2999 characters once
    normalized. *)
Definition demoContent : jsstring := rep 300 "abcdefgh. ".

(** The world without a key for the embedding service. *)
Definition unconfiguredWorld : World :=
  mkWorld false (voyage demoWorld) true (gemini demoWorld)
          (vectorSearch demoWorld) (findSimilar demoWorld)
          (documentCreate demoWorld) (Ok tt) (Ok tt) (now demoWorld)
          (voyageDelay demoWorld).

(** A world whose embedding service times out on texts of 599 characters,
    the length of the fourth chunk of [demoContent]. *)
Definition flakyWorld : World :=
  mkWorld true
          (fun t => if len t =? 599
                    then VoyageNoResponse "timeout of 30000ms exceeded"
                    else VoyageBody (Some demoEmbedding))
          true (gemini demoWorld)
          (vectorSearch demoWorld) (findSimilar demoWorld)
          (documentCreate demoWorld) (Ok tt) (Ok tt) (now demoWorld)
          (voyageDelay demoWorld).

(** A world whose embedding service takes longest for the first request
    of a batch. *)
Definition slowStartWorld : World :=
  mkWorld true (voyage demoWorld) true (gemini demoWorld)
          (vectorSearch demoWorld) (findSimilar demoWorld)
          (documentCreate demoWorld) (Ok tt) (Ok tt) (now demoWorld)
          (fun n => if (n =? 0)%nat then 5 else 0).

(** A world whose generation service reports an exhausted quota. *)
Definition quotaWorld : World :=
  mkWorld true (voyage demoWorld) true
          (fun _ => GeminiError "429 quota exceeded for this project")
          (vectorSearch demoWorld) (findSimilar demoWorld)
          (documentCreate demoWorld) (Ok tt) (Ok tt) (now demoWorld)
          (voyageDelay demoWorld).

(** A world whose chat-history store rejects the save. *)
Definition historyDownWorld : World :=
  mkWorld true (voyage demoWorld) true (gemini demoWorld)
          (vectorSearch demoWorld) (findSimilar demoWorld)
          (documentCreate demoWorld) (Ok tt)
          (Throw "MongoNetworkError: connection closed") (now demoWorld)
          (voyageDelay demoWorld).

Definition demoUser : UserPayload :=
  mkUser (str "u7") (str "student@astu.edu.et") (str "student").

Definition demoQuestion : jsstring := str "Where is the registrar office?".

Definition demoRequest : AskRequest :=
  mkAskRequest (Some demoQuestion) None None None [] (Some demoUser).

Definition shortUpload : UploadRequest :=
  mkUploadRequest (Some (str "Library hours"))
                  (Some (str "The library opens at 8."))
                  (Some (str "service")) None []
                  (Some (mkUser (str "u1") (str "admin@astu.edu.et")
                                (str "admin"))).

(** ** Further vocabulary *)

(** The code units of a text that are not white space, in their order. *)
Definition visible (s : jsstring) : jsstring :=
  filter (fun c => negb (isWhitespace c)) s.

(** The text of a chunk is the trimmed slice of the cleaned text between
    its offsets. *)
Definition trimmedSlice (cleanedText : jsstring) (c : TextChunk) : Prop :=
  text c = trim (substring cleanedText (startChar c) (endChar c)).

(** Position [p] lies in the window of the chunk. *)
Definition inWindow (p : Z) (c : TextChunk) : Prop :=
  startChar c <= p < endChar c.

(** Every position below [bound] that holds a code unit other than white
    space lies in the window of one of the chunks. *)
Definition coveredBelow (cleanedText : jsstring) (chunks : list TextChunk)
    (bound : Z) : Prop :=
  forall p ch,
    0 <= p < bound -> nth_error cleanedText (Z.to_nat p) = Some ch ->
    isWhitespace ch = false -> Exists (inWindow p) chunks.

(** Later chunks start later and do not end earlier, and a chunk shares at
    most [defaultOverlap] characters with a later one. *)
Definition ascending (chunks : list TextChunk) : Prop :=
  forall i j a b,
    (i < j)%nat -> nth_error chunks i = Some a -> nth_error chunks j = Some b ->
    startChar a < startChar b /\ endChar a <= endChar b
    /\ endChar a - defaultOverlap <= startChar b.

(** The windows of the chunks lie in the text and behind the cursor, none
    ends more than 200 characters after it, and the chunks are in
    ascending order. *)
Definition windowsOK (cleanedText : jsstring) (st : LoopState) : Prop :=
  0 <= st_startChar st
  /\ Forall (fun c => 0 <= startChar c < endChar c
                      /\ endChar c <= len cleanedText
                      /\ startChar c < st_startChar st
                      /\ endChar c <= st_startChar st + 200)
        (st_chunks st)
  /\ ascending (st_chunks st).

(** The two code units before position [r] of [s] are one of the sentence
    terminators. *)
Definition afterEnder (s : jsstring) (r : Z) : Prop :=
  2 <= r <= len s
  /\ In (firstn 2 (skipn (Z.to_nat (r - 2)) s)) sentenceEnders.

(** A key of the binary64 numbers other than NaN: its lexicographic order
    is their order. *)
Definition rank (x : spec_float) : Z * Z * Z :=
  match x with
  | S754_nan => (0, 0, 0)
  | S754_zero _ => (0, 0, 0)
  | S754_infinity s => (if s then -2 else 2, 0, 0)
  | S754_finite s m e => if s then (-1, - e, - Zpos m) else (1, e, Zpos m)
  end.

Definition lexle (a b : Z * Z * Z) : Prop :=
  let '(a1, a2, a3) := a in
  let '(b1, b2, b3) := b in
  a1 < b1 \/ (a1 = b1 /\ (a2 < b2 \/ (a2 = b2 /\ a3 <= b3))).

(** At most one active record is kept per user and session. *)
Definition uniqueSessions (hs : Histories) : Prop :=
  forall userId sessionId,
    (List.length (List.filter (isSession userId sessionId) hs) <= 1)%nat.

(** The messages of the active record of the session, none when there is
    no such record. *)
Definition messagesOf (userId sessionId : jsstring) (hs : Histories)
    : list ChatMessage :=
  match List.find (isSession userId sessionId) hs with
  | Some h => messages h
  | None => []
  end.

(** The two messages [askQuestion] records for an exchange. *)
Definition exchange (w : World) (question aiResponse : jsstring)
    (docs : list Document) : list ChatMessage :=
  [mkMessage user question (now w) None;
   mkMessage assistant aiResponse (now w)
     (Some (List.map (fun doc =>
        mkCitation (doc_id doc) (doc_title doc) (doc_category doc)) docs))].

(** What the ingestion of a content by [userId] under [category] into a
    store of [size] records may add: the parent or standalone record with
    the cleaned content, and chunk records of at most 1002 characters that
    name the first record added as their parent. *)
Definition ingested (content userId : jsstring) (category : option jsstring)
    (size : nat) (d : StoredDocument) : Prop :=
  uploadedBy (stored d) = userId
  /\ isPublic (stored d) = true
  /\ ChatController.category (stored d) = categoryOrOther category
  /\ if isChunk (stored d)
     then parentDocumentId (stored d) = Some (Z.of_nat size)
          /\ 0 < len (ChatController.content (stored d)) <= 1002
     else ChatController.content (stored d) = cleanText content
          /\ parentDocumentId (stored d) = None.

(** A world whose store applies the rule of the document schema on titles:
    at most 200 characters once trimmed. *)
Definition schemaWorld : World :=
  mkWorld true (voyage demoWorld) true (gemini demoWorld)
          (vectorSearch demoWorld) (findSimilar demoWorld)
          (fun d => if len (trim (title d)) >? 200
                    then Throw "Title cannot be more than 200 characters"
                    else Ok tt)
          (Ok tt) (Ok tt) (now demoWorld)
          (voyageDelay demoWorld).

(* ================================================================= *)
(** * Properties *)

(** ** Trimming *)

Section Trim.

Lemma trimStart_suffix (s : jsstring) : exists t, s = t ++ trimStart s.
Proof.
  induction s as [|c r [t IH]]; simpl.
  - now exists [].
  - destruct (isWhitespace c).
    + exists (c :: t). now rewrite IH at 1.
    + now exists [].
Qed.

Lemma trimEnd_prefix (s : jsstring) : exists t, s = trimEnd s ++ t.
Proof.
  induction s as [|c r [t IH]]; simpl.
  - now exists [].
  - destruct (trimEnd r) as [|d r'] eqn:E.
    + destruct (isWhitespace c).
      * now exists (c :: r).
      * now exists r.
    + exists t. simpl. f_equal. exact IH.
Qed.

(** [trimEnd] gives the empty string exactly on blank strings. *)
Lemma trimEnd_nil (s : jsstring) :
  trimEnd s = [] <-> forallb isWhitespace s = true.
Proof.
  induction s as [|c r IH]; simpl; [tauto|].
  destruct (trimEnd r) as [|d r'] eqn:E.
  - destruct (isWhitespace c); simpl.
    + tauto.
    + split; discriminate.
  - split; [discriminate|].
    rewrite andb_true_iff. intros [_ Hr]. apply IH in Hr. discriminate.
Qed.

Lemma trimStart_head (s : jsstring) c r :
  trimStart s = c :: r -> isWhitespace c = false.
Proof.
  induction s as [|d s IH]; simpl; [discriminate|].
  destruct (isWhitespace d) eqn:E; [exact IH|].
  intros [= <- _]. exact E.
Qed.

Lemma trimStart_fixed (s : jsstring) :
  match s with [] => True | c :: _ => isWhitespace c = false end ->
  trimStart s = s.
Proof. destruct s as [|c r]; simpl; [easy|]. now intros ->. Qed.

Lemma trimEnd_head (c : char) (r : jsstring) :
  isWhitespace c = false -> exists r', trimEnd (c :: r) = c :: r'.
Proof.
  intros Hc. simpl. destruct (trimEnd r) as [|d r'].
  - rewrite Hc. now exists [].
  - now exists (d :: r').
Qed.

Lemma trimEnd_idem (s : jsstring) : trimEnd (trimEnd s) = trimEnd s.
Proof.
  induction s as [|c r IH]; simpl; [reflexivity|].
  destruct (trimEnd r) as [|d r'] eqn:E.
  - destruct (isWhitespace c) eqn:Hc; simpl; [reflexivity|].
    now rewrite Hc.
  - change (trimEnd (c :: d :: r')) with
      (match trimEnd (d :: r') with
       | [] => if isWhitespace c then [] else [c]
       | x => c :: x end).
    now rewrite IH.
Qed.

Lemma trim_trimEnd_fixed (s : jsstring) : trimEnd (trim s) = trim s.
Proof. apply trimEnd_idem. Qed.

Lemma trim_idem (s : jsstring) : trim (trim s) = trim s.
Proof.
  unfold trim at 1. rewrite trimStart_fixed; [apply trimEnd_idem|].
  unfold trim. destruct (trimStart s) as [|c r] eqn:E; [exact I|].
  apply trimStart_head in E.
  destruct (trimEnd_head c r E) as [r' ->]. exact E.
Qed.

Lemma length_trimStart (s : jsstring) :
  (List.length (trimStart s) <= List.length s)%nat.
Proof.
  destruct (trimStart_suffix s) as [t E]. rewrite E at 2.
  rewrite length_app. lia.
Qed.

Lemma length_trimEnd (s : jsstring) :
  (List.length (trimEnd s) <= List.length s)%nat.
Proof.
  destruct (trimEnd_prefix s) as [t E]. rewrite E at 2.
  rewrite length_app. lia.
Qed.

Lemma len_trim (s : jsstring) : len (trim s) <= len s.
Proof.
  unfold len, trim.
  pose proof (length_trimEnd (trimStart s)). pose proof (length_trimStart s).
  lia.
Qed.

End Trim.

(** ** The shape of cleaned text *)

Section CleanedShape.

(** *** On text of that shape the replacements change nothing *)

Lemma replaceCRLF_fixed (s : jsstring) :
  noCR s = true -> replaceCRLF s = s.
Proof.
  induction s as [|c r IH]; [reflexivity|].
  intros Hs. simpl in Hs. apply andb_true_iff in Hs as [Hc Hr].
  specialize (IH Hr).
  destruct r as [|d r']; [reflexivity|].
  change (replaceCRLF (c :: d :: r')) with
    (if ((c =? CR) && (d =? LF))%N then LF :: replaceCRLF r'
     else c :: replaceCRLF (d :: r')).
  apply negb_true_iff in Hc. rewrite Hc. cbn [andb]. now rewrite IH.
Qed.

Lemma replaceCR_fixed (s : jsstring) : noCR s = true -> replaceCR s = s.
Proof.
  induction s as [|c r IH]; [reflexivity|]. simpl.
  intros Hs. apply andb_true_iff in Hs as [Hc Hr].
  apply negb_true_iff in Hc. rewrite Hc. f_equal. now apply IH.
Qed.

Lemma collapseSpaces_fixed (s : jsstring) : forall b,
  spacesOK b s = true -> collapseSpaces b s = s.
Proof.
  induction s as [|c r IH]; intros b; [reflexivity|]. simpl.
  destruct (isSpaceOrTab c).
  - rewrite !andb_true_iff, negb_true_iff. intros [[Hc Hb] Hr].
    subst b. apply N.eqb_eq in Hc. subst c. f_equal. now apply IH.
  - intros Hr. f_equal. now apply IH.
Qed.

Lemma squeezeNewlines_fixed (s : jsstring) : forall n,
  newlinesOK n s = true -> squeezeNewlines n s = s.
Proof.
  induction s as [|c r IH]; intros n; [reflexivity|]. simpl.
  destruct (c =? LF)%N eqn:Hc.
  - apply N.eqb_eq in Hc. subst c.
    rewrite andb_true_iff. intros [-> Hr]. f_equal. now apply IH.
  - intros Hr. f_equal. now apply IH.
Qed.

(** *** The replacements produce text of that shape *)

Lemma noCR_replaceCR (s : jsstring) : noCR (replaceCR s) = true.
Proof.
  induction s as [|c r IH]; [reflexivity|]. simpl. rewrite IH, andb_true_r.
  destruct (c =? CR)%N eqn:Hc; [reflexivity|]. now rewrite Hc.
Qed.

Lemma isSpaceOrTab_CR (c : char) : isSpaceOrTab c = true -> (c =? CR)%N = false.
Proof.
  unfold isSpaceOrTab. rewrite orb_true_iff, !N.eqb_eq.
  intros [-> | ->]; reflexivity.
Qed.

Lemma noCR_collapseSpaces (s : jsstring) : forall b,
  noCR s = true -> noCR (collapseSpaces b s) = true.
Proof.
  induction s as [|c r IH]; intros b; [reflexivity|]. simpl.
  rewrite andb_true_iff. intros [Hc Hr].
  destruct (isSpaceOrTab c), b; simpl; rewrite ?Hc; simpl; now apply IH.
Qed.

Lemma noCR_squeezeNewlines (s : jsstring) : forall n,
  noCR s = true -> noCR (squeezeNewlines n s) = true.
Proof.
  induction s as [|c r IH]; intros n; [reflexivity|]. simpl.
  rewrite andb_true_iff. intros [Hc Hr].
  destruct (c =? LF)%N eqn:E.
  - destruct (n <? 2)%nat; simpl; now apply IH.
  - simpl. rewrite Hc. now apply IH.
Qed.

Lemma spacesOK_collapseSpaces (s : jsstring) : forall b,
  spacesOK b (collapseSpaces b s) = true.
Proof.
  induction s as [|c r IH]; intros b; [reflexivity|]. simpl.
  destruct (isSpaceOrTab c) eqn:Hc.
  - destruct b; [apply IH|]. simpl. apply IH.
  - simpl. rewrite Hc. apply IH.
Qed.

Lemma isSpaceOrTab_LF (c : char) : (c =? LF)%N = true -> isSpaceOrTab c = false.
Proof. rewrite N.eqb_eq. now intros ->. Qed.

(** Dropping a newline never brings two spaces together: a newline is
    dropped only behind two newlines that were kept. *)
Lemma spacesOK_squeezeNewlines (s : jsstring) : forall b n,
  (b = true -> n = O) ->
  spacesOK b s = true -> spacesOK b (squeezeNewlines n s) = true.
Proof.
  induction s as [|c r IH]; intros b n Hbn; [reflexivity|]. simpl.
  destruct (c =? LF)%N eqn:Hc.
  - rewrite (isSpaceOrTab_LF c Hc). intros Hr.
    destruct (n <? 2)%nat eqn:Hn.
    + simpl. apply IH; [discriminate | exact Hr].
    + destruct b.
      * rewrite (Hbn eq_refl) in Hn. discriminate.
      * apply IH; [discriminate | exact Hr].
  - simpl. destruct (isSpaceOrTab c).
    + rewrite !andb_true_iff. intros [Hcb Hr]. split; [exact Hcb|].
      apply IH; [reflexivity | exact Hr].
    + apply IH. discriminate.
Qed.

Lemma newlinesOK_squeezeNewlines (s : jsstring) : forall n,
  newlinesOK n (squeezeNewlines n s) = true.
Proof.
  induction s as [|c r IH]; intros n; [reflexivity|]. simpl.
  destruct (c =? LF)%N eqn:Hc.
  - destruct (n <? 2)%nat eqn:Hn; [|apply IH].
    simpl. rewrite Hn. apply IH.
  - simpl. rewrite Hc. apply IH.
Qed.

(** *** The shape passes to the parts of a text *)

Lemma spacesOK_weaken (s : jsstring) b :
  spacesOK b s = true -> spacesOK false s = true.
Proof.
  destruct s as [|c r]; [reflexivity|]. simpl.
  destruct (isSpaceOrTab c); [|easy].
  rewrite !andb_true_iff. intros [[Hc _] Hr]. now rewrite Hc.
Qed.

Lemma newlinesOK_weaken (s : jsstring) n :
  newlinesOK n s = true -> newlinesOK 0 s = true.
Proof.
  destruct s as [|c r]; [reflexivity|]. simpl.
  destruct (c =? LF)%N; [|easy].
  rewrite andb_true_iff. intros [Hn Hr]. simpl.
  destruct r as [|d r']; [reflexivity|]. simpl in *.
  destruct (d =? LF)%N; [|easy].
  apply andb_true_iff in Hr as [Hn' Hr]. apply Nat.ltb_lt in Hn'.
  assert (n = O) by lia. subst n. now rewrite Hr.
Qed.

Lemma noCR_app (s t : jsstring) :
  noCR (s ++ t) = true <-> noCR s = true /\ noCR t = true.
Proof. unfold noCR. rewrite forallb_app. apply andb_true_iff. Qed.

Lemma spacesOK_prefix (s t : jsstring) : forall b,
  spacesOK b (s ++ t) = true -> spacesOK b s = true.
Proof.
  induction s as [|c r IH]; intros b; [reflexivity|]. simpl.
  destruct (isSpaceOrTab c); [|apply IH].
  rewrite !andb_true_iff. intros [H Hr]. split; [exact H|]. now apply IH.
Qed.

Lemma spacesOK_suffix (s t : jsstring) : forall b,
  spacesOK b (s ++ t) = true -> spacesOK false t = true.
Proof.
  induction s as [|c r IH]; intros b; [apply spacesOK_weaken|]. simpl.
  destruct (isSpaceOrTab c); [|apply IH].
  rewrite !andb_true_iff. intros [_ Hr]. now apply IH in Hr.
Qed.

Lemma newlinesOK_prefix (s t : jsstring) : forall n,
  newlinesOK n (s ++ t) = true -> newlinesOK n s = true.
Proof.
  induction s as [|c r IH]; intros n; [reflexivity|]. simpl.
  destruct (c =? LF)%N; [|apply IH].
  rewrite !andb_true_iff. intros [H Hr]. split; [exact H|]. now apply IH.
Qed.

Lemma newlinesOK_suffix (s t : jsstring) : forall n,
  newlinesOK n (s ++ t) = true -> newlinesOK 0 t = true.
Proof.
  induction s as [|c r IH]; intros n; [apply newlinesOK_weaken|]. simpl.
  destruct (c =? LF)%N; [|apply IH].
  rewrite !andb_true_iff. intros [_ Hr]. now apply IH in Hr.
Qed.

Lemma cleaned_trim (s : jsstring) : cleaned s -> cleaned (trim s).
Proof.
  intros (H1 & H2 & H3). unfold trim.
  destruct (trimStart_suffix s) as [t1 E1].
  destruct (trimEnd_prefix (trimStart s)) as [t2 E2].
  rewrite E1 in H1, H2, H3.
  apply noCR_app in H1 as [_ H1].
  apply spacesOK_suffix in H2. apply newlinesOK_suffix in H3.
  rewrite E2 in H1, H2, H3.
  apply noCR_app in H1 as [H1 _].
  apply spacesOK_prefix in H2. apply newlinesOK_prefix in H3.
  now repeat split.
Qed.

Lemma cleaned_cleanText (s : jsstring) : cleaned (cleanText s).
Proof.
  apply cleaned_trim. repeat split.
  - apply noCR_squeezeNewlines, noCR_collapseSpaces, noCR_replaceCR.
  - apply spacesOK_squeezeNewlines; [discriminate|].
    apply spacesOK_collapseSpaces.
  - apply newlinesOK_squeezeNewlines.
Qed.

(** Cleaning changes nothing in a trimmed text of that shape. *)
Lemma cleanText_fixed (s : jsstring) :
  cleaned s -> trim s = s -> cleanText s = s.
Proof.
  intros (H1 & H2 & H3) Ht. unfold cleanText.
  rewrite (replaceCRLF_fixed s H1), (replaceCR_fixed s H1).
  rewrite (collapseSpaces_fixed s false H2).
  rewrite (squeezeNewlines_fixed s 0 H3). exact Ht.
Qed.

End CleanedShape.

(** C7: text normalization is idempotent: cleaning a cleaned text (line
    endings turned into newlines, runs of spaces and tabs collapsed to one
    space, runs of three or more newlines cut to two, both ends trimmed)
    gives the same text again. *)
Theorem cleanText_idempotent (s : jsstring) :
  cleanText (cleanText s) = cleanText s.
Proof.
  apply cleanText_fixed.
  - apply cleaned_cleanText.
  - unfold cleanText. apply trim_idem.
Qed.

(** ** Substrings and searches *)

Section Substrings.

Lemma len_nonneg (s : jsstring) : 0 <= len s.
Proof. unfold len. lia. Qed.

Lemma len_app (s t : jsstring) : len (s ++ t) = len s + len t.
Proof. unfold len. rewrite length_app. lia. Qed.

Lemma len_substring_le (s : jsstring) (a b : Z) :
  len (substring s a b) <= Z.abs (b - a).
Proof.
  unfold substring, len, clamp. rewrite length_firstn. lia.
Qed.

(** Inside the string the length of a substring is the distance of its
    ends. *)
Lemma len_substring (s : jsstring) (a b : Z) :
  0 <= a <= b -> b <= len s -> len (substring s a b) = b - a.
Proof.
  intros Ha Hb. unfold substring, clamp.
  fold (len s). unfold len in *. rewrite length_firstn, length_skipn. lia.
Qed.

(** A substring that reaches the end of the string is a suffix of it. *)
Lemma substring_to_end (s : jsstring) (a : Z) :
  0 <= a <= len s -> substring s a (len s) = skipn (Z.to_nat a) s.
Proof.
  intros Ha. unfold substring, clamp.
  replace (Z.min (Z.max 0 (Z.min a (len s))) (Z.max 0 (Z.min (len s) (len s))))
    with a by lia.
  apply firstn_all2. unfold len in *. rewrite length_skipn. lia.
Qed.

Lemma startsWith_length (pat s : jsstring) :
  startsWith s pat = true -> (List.length pat <= List.length s)%nat.
Proof.
  revert s. induction pat as [|p pat IH]; intros s; [simpl; lia|].
  destruct s as [|c s']; simpl; [discriminate|].
  rewrite andb_true_iff. intros [_ H]. apply IH in H. simpl. lia.
Qed.

Lemma lastIndexFrom_spec (s pat : jsstring) (k : nat) :
  lastIndexFrom s pat k = -1
  \/ (0 <= lastIndexFrom s pat k <= Z.of_nat k
      /\ matchAt s pat (Z.to_nat (lastIndexFrom s pat k)) = true).
Proof.
  induction k as [|k IH]; cbn [lastIndexFrom].
  - destruct (matchAt s pat 0) eqn:E; [right|now left].
    split; [lia|exact E].
  - destruct (matchAt s pat (S k)) eqn:E.
    + right. split; [lia|]. now rewrite Nat2Z.id.
    + destruct IH as [IH|[IH1 IH2]]; [now left|right]. split; [lia|exact IH2].
Qed.

(** A position found by [lastIndexOf] is not behind the position asked
    for, and the pattern fits into the string there. *)
Lemma lastIndexOf_spec (s pat : jsstring) (position : Z) :
  lastIndexOf s pat position = -1
  \/ (0 <= lastIndexOf s pat position <= clamp position 0 (len s)
      /\ lastIndexOf s pat position + len pat <= len s).
Proof.
  unfold lastIndexOf.
  set (k := Z.to_nat (clamp position 0 (len s))).
  assert (Hk : Z.of_nat k = clamp position 0 (len s)).
  { unfold k, clamp. pose proof (len_nonneg s). lia. }
  destruct (lastIndexFrom_spec s pat k) as [H|[H1 H2]]; [now left|right].
  split; [lia|].
  unfold matchAt in H2. apply startsWith_length in H2.
  rewrite length_skipn in H2. unfold len, clamp in *. lia.
Qed.

Lemma sentenceEnders_len :
  Forall (fun ender => len ender = 2) sentenceEnders.
Proof. repeat constructor. Qed.

Lemma enderStep_bestPosOK searchText searchStart target acc ender :
  len ender = 2 ->
  bestPosOK searchText searchStart target (fst acc) ->
  bestPosOK searchText searchStart target
    (fst (enderStep searchText searchStart target acc ender)).
Proof.
  intros He Hacc. unfold enderStep.
  destruct (lastIndexOf_spec searchText ender (target - searchStart))
    as [E|[[H1 H2] H3]].
  - rewrite E. exact Hacc.
  - destruct (_ =? -1); [exact Hacc|].
    assert (Hnew : bestPosOK searchText searchStart target
              (searchStart
               + lastIndexOf searchText ender (target - searchStart)
               + len ender)).
    { right. rewrite He. lia. }
    destruct (snd acc) as [minDistance|]; [|exact Hnew].
    destruct (_ <? minDistance); [exact Hnew|exact Hacc].
Qed.

Lemma fold_enderStep_bestPosOK searchText searchStart target enders :
  Forall (fun ender => len ender = 2) enders ->
  forall acc,
  bestPosOK searchText searchStart target (fst acc) ->
  bestPosOK searchText searchStart target
    (fst (fold_left (enderStep searchText searchStart target) enders acc)).
Proof.
  induction 1 as [|ender enders He _ IH]; intros acc Hacc; [exact Hacc|].
  simpl. apply IH. now apply enderStep_bestPosOK.
Qed.

(** [findSentenceEnd] returns its target, or a position behind [start]
    that ends a two-character terminator found in the search window; with
    a [start] below [-1] it can also return the initial [-1] of
    [bestPos]. *)
Lemma findSentenceEnd_spec (text : jsstring) (start target : Z) :
  let searchStart := Z.max start (target - 200) in
  let searchEnd := Z.min (len text) (target + 100) in
  let r := findSentenceEnd text start target in
  r = target
  \/ (r = -1 /\ start < -1)
  \/ (start < r
      /\ searchStart + 2 <= r
      /\ r <= searchStart
              + clamp (target - searchStart) 0
                      (len (substring text searchStart searchEnd)) + 2
      /\ r <= searchStart + len (substring text searchStart searchEnd)).
Proof.
  intros searchStart searchEnd r. unfold r, findSentenceEnd.
  fold searchStart searchEnd.
  set (searchText := substring text searchStart searchEnd).
  pose proof (fold_enderStep_bestPosOK searchText searchStart target
                sentenceEnders sentenceEnders_len (-1, None)
                (or_introl eq_refl)) as Hb.
  destruct (_ >? start) eqn:E; [|now left].
  apply Z.gtb_lt in E. right.
  destruct Hb as [Hb|Hb].
  - left. rewrite Hb in E |- *. split; [reflexivity|exact E].
  - right. split; [exact E|exact Hb].
Qed.

(** The cut point lies at most two characters behind the target. *)
Lemma findSentenceEnd_upper (text : jsstring) (start target : Z) :
  start <= target ->
  findSentenceEnd text start target <= target + 2
  \/ findSentenceEnd text start target = -1.
Proof.
  intros Hst.
  destruct (findSentenceEnd_spec text start target)
    as [E|[[E _]|(_ & _ & H & _)]]; [lia|now right|].
  unfold clamp in H. lia.
Qed.

(** The cut point lies inside the text. *)
Lemma findSentenceEnd_inside (text : jsstring) (start target : Z) :
  start <= target <= len text ->
  findSentenceEnd text start target <= len text.
Proof.
  intros Ht. pose proof (len_nonneg text) as Hlen.
  destruct (findSentenceEnd_spec text start target)
    as [E|[[E _]|(Hs & H2 & _ & H)]]; [lia|lia|].
  pose proof (len_substring_le text (Z.max start (target - 200))
                (Z.min (len text) (target + 100))) as Hl.
  remember (len (substring text (Z.max start (target - 200))
                   (Z.min (len text) (target + 100)))) as l eqn:El.
  clear El. lia.
Qed.

End Substrings.

(** ** The loop of [chunkText] *)

Section ChunkLoop.

Variables (cleanedText : jsstring) (chunkSize overlap : Z).

Local Abbreviation cut := (cutPoint cleanedText chunkSize).
Local Abbreviation piece := (chunkAt cleanedText chunkSize).
Local Abbreviation next := (nextStart cleanedText chunkSize overlap).
Local Abbreviation step := (chunkStep cleanedText chunkSize overlap).
Local Abbreviation run := (runSteps cleanedText chunkSize overlap).

Lemma chunkStep_pushed (st : LoopState) :
  len (piece (st_startChar st)) > 0 ->
  step st
  = let chunks :=
      st_chunks st
      ++ [mkChunk (piece (st_startChar st)) (st_chunkIndex st)
            (st_startChar st) (cut (st_startChar st))] in
    mkState (next chunks (st_startChar st)) (st_chunkIndex st + 1) chunks.
Proof.
  intros Hpos.
  assert (E : (len (piece (st_startChar st)) >? 0) = true)
    by (apply Z.gtb_lt; lia).
  unfold chunkStep.
  fold (cut (st_startChar st)). fold (piece (st_startChar st)).
  rewrite E. reflexivity.
Qed.

Lemma chunkStep_skipped (st : LoopState) :
  len (piece (st_startChar st)) <= 0 ->
  step st
  = mkState (next (st_chunks st) (st_startChar st)) (st_chunkIndex st)
            (st_chunks st).
Proof.
  intros Hpos. unfold chunkStep.
  fold (cut (st_startChar st)). fold (piece (st_startChar st)).
  destruct (_ >? 0) eqn:E; [apply Z.gtb_lt in E; lia|]. reflexivity.
Qed.

Lemma chunkLoop_runSteps (fuel : nat) : forall st n st',
  chunkLoop fuel cleanedText chunkSize overlap st = Some (n, st') ->
  st' = run n st /\ (n <= fuel)%nat.
Proof.
  induction fuel as [|fuel IH]; intros st n st'; simpl.
  - destruct (_ <? _); [discriminate|]. intros [= <- <-]. now split.
  - destruct (_ <? _) eqn:E.
    + destruct (chunkLoop fuel _ _ _ _) as [[m st'']|] eqn:El; [|discriminate].
      intros [= <- <-]. apply IH in El as [-> Hm]. simpl. rewrite E.
      split; [reflexivity|lia].
    + intros [= <- <-]. split; [reflexivity|lia].
Qed.

(** *** The length of a chunk *)

Lemma len_substring_clamped (s : jsstring) (a b : Z) :
  len (substring s a b) <= Z.abs (Z.max 0 b - Z.max 0 a).
Proof.
  unfold substring, len, clamp. rewrite length_firstn. lia.
Qed.

Lemma len_chunkAt (start : Z) :
  0 <= chunkSize -> start < len cleanedText ->
  len (piece start) <= chunkSize + 2.
Proof.
  intros Hcs Hrun. unfold chunkAt.
  pose proof (len_trim (substring cleanedText start (cut start))) as Ht.
  pose proof (len_substring_clamped cleanedText start (cut start)) as Hs.
  enough (Z.abs (Z.max 0 (cut start) - Z.max 0 start) <= chunkSize + 2)
    by lia.
  clear Ht Hs. unfold cutPoint.
  destruct (_ <? len cleanedText) eqn:E0.
  - apply Z.ltb_lt in E0.
    assert (Hmin : Z.min (start + chunkSize) (len cleanedText)
                   = start + chunkSize) by lia.
    rewrite Hmin in *.
    destruct (findSentenceEnd_upper cleanedText start (start + chunkSize))
      as [Hup|Hup]; [lia| |];
      destruct (_ >? start) eqn:E1; try apply Z.gtb_lt in E1; lia.
  - apply Z.ltb_ge in E0. lia.
Qed.

Lemma chunkStep_fitsWindow (st : LoopState) :
  0 <= chunkSize -> st_startChar st < len cleanedText ->
  Forall (fitsWindow chunkSize) (st_chunks st) ->
  Forall (fitsWindow chunkSize)
    (st_chunks (step st)).
Proof.
  intros Hcs Hrun Hst.
  destruct (Z_gt_le_dec (len (piece (st_startChar st))) 0) as [Hp|Hp].
  - rewrite (chunkStep_pushed st Hp). simpl.
    apply Forall_app. split; [exact Hst|].
    constructor; [|constructor]. unfold fitsWindow. simpl.
    now apply len_chunkAt.
  - rewrite (chunkStep_skipped st Hp). exact Hst.
Qed.

Lemma runSteps_fitsWindow (n : nat) : forall st,
  0 <= chunkSize ->
  Forall (fitsWindow chunkSize) (st_chunks st) ->
  Forall (fitsWindow chunkSize)
    (st_chunks (run n st)).
Proof.
  induction n as [|n IH]; intros st Hcs Hst; simpl; [exact Hst|].
  destruct (_ <? _) eqn:E; [|exact Hst].
  apply Z.ltb_lt in E. apply IH; [exact Hcs|].
  now apply chunkStep_fitsWindow.
Qed.

End ChunkLoop.

(** C6: when the normalized text is no longer than [chunkSize], [chunkText]
    returns exactly one chunk: its text is the normalized text, its index
    and start offset are 0 and its end offset is the normalized length. *)
Theorem chunkText_single_chunk (fuel : nat) (s : jsstring)
    (chunkSize overlap : Z) :
  len (cleanText s) <= chunkSize ->
  chunkText fuel s chunkSize overlap
  = Some [mkChunk (cleanText s) 0 0 (len (cleanText s))].
Proof.
  intros Hle. unfold chunkText, chunkTextCounted.
  apply Z.leb_le in Hle. now rewrite Hle.
Qed.

Lemma chunkText_single_chunk_witness :
  len (cleanText (str " Office hours:  8-5 ")) <= 1000
  /\ chunkText 0 (str " Office hours:  8-5 ") 1000 200
     = Some [mkChunk (str "Office hours: 8-5") 0 0 17].
Proof.
  split; [vm_compute; discriminate|].
  exact (chunkText_single_chunk 0 (str " Office hours:  8-5 ") 1000 200
           ltac:(vm_compute; discriminate)).
Defined.

(** C10: every chunk that [chunkText] emits has a text of at most
    [chunkSize + 2] characters: a cut at a sentence boundary includes the
    two-character terminator and so lies at most two characters behind the
    window of [chunkSize] characters.  This holds for the chunks collected
    after any number of loop iterations and so for the chunks returned.  A
    chunk can be longer than [chunkSize]: with the default parameters the
    first chunk of a text of 1000 letters followed by a full stop, a space
    and more text has 1001 characters. *)
Theorem chunk_length_bound (s : jsstring) (chunkSize overlap : Z) :
  0 <= chunkSize ->
  (forall n,
     Forall (fun c => len (text c) <= chunkSize + 2)
       (st_chunks (runSteps (cleanText s) chunkSize overlap n
                     (mkState 0 0 []))))
  /\ (forall fuel chunks,
        chunkText fuel s chunkSize overlap = Some chunks ->
        Forall (fun c => len (text c) <= chunkSize + 2) chunks)
  /\ (exists chunks,
        chunkText 3 (rep 1000 "a" ++ str ". " ++ rep 500 "b")
                  defaultChunkSize defaultOverlap = Some chunks
        /\ Exists (fun c => len (text c) = defaultChunkSize + 1) chunks).
Proof.
  intros Hcs.
  assert (Hsteps : forall n,
            Forall (fitsWindow chunkSize)
              (st_chunks (runSteps (cleanText s) chunkSize overlap n
                            (mkState 0 0 [])))).
  { intros n. apply runSteps_fitsWindow; [exact Hcs|constructor]. }
  split; [exact Hsteps|]. split.
  - intros fuel chunks. unfold chunkText, chunkTextCounted.
    destruct (_ <=? chunkSize) eqn:E.
    + intros [= <-]. apply Z.leb_le in E.
      constructor; [simpl; lia|constructor].
    + destruct (chunkLoop fuel _ _ _ _) as [[n st]|] eqn:El; [|discriminate].
      intros [= <-]. apply chunkLoop_runSteps in El as [-> _]. apply Hsteps.
  - eexists. split; [vm_compute; reflexivity|].
    apply Exists_cons_hd. vm_compute. reflexivity.
Qed.

Lemma chunk_length_bound_witness :
  0 <= 1000
  /\ forall fuel chunks,
       chunkText fuel (rep 300 "abcdefgh. ") 1000 200 = Some chunks ->
       Forall (fun c => len (text c) <= 1000 + 2) chunks.
Proof.
  split; [lia|].
  exact (proj1 (proj2 (chunk_length_bound (rep 300 "abcdefgh. ") 1000 200
                         ltac:(lia)))).
Defined.

(** ** Termination of the loop for the default parameters *)

Section Blank.

Lemma forallb_trimStart (s : jsstring) :
  forallb isWhitespace (trimStart s) = forallb isWhitespace s.
Proof.
  induction s as [|c r IH]; [reflexivity|]. simpl.
  destruct (isWhitespace c) eqn:E; [exact IH|]. simpl. now rewrite E.
Qed.

(** Trimming gives the empty string exactly on blank strings. *)
Lemma trim_nil (s : jsstring) :
  trim s = [] <-> forallb isWhitespace s = true.
Proof. unfold trim. now rewrite trimEnd_nil, forallb_trimStart. Qed.

(** A string without blanks at its end has no blank suffix. *)
Lemma trimEnd_fixed_suffix (s : jsstring) : forall t1 t2,
  trimEnd s = s -> s = t1 ++ t2 -> t2 <> [] ->
  forallb isWhitespace t2 = false.
Proof.
  intros t1. revert s. induction t1 as [|c t1 IH]; intros s t2 Hs E Hne.
  - simpl in E. subst s.
    destruct (forallb isWhitespace t2) eqn:Hb; [|reflexivity].
    apply trimEnd_nil in Hb. congruence.
  - subst s. simpl in Hs.
    destruct (trimEnd (t1 ++ t2)) as [|d r'] eqn:Et.
    + destruct (isWhitespace c); [discriminate|].
      injection Hs as Hs. symmetry in Hs.
      apply app_eq_nil in Hs as [_ Hs]. contradiction.
    + injection Hs as Hs. apply (IH (t1 ++ t2)); [|reflexivity|exact Hne].
      now rewrite Et.
Qed.

End Blank.

(** Linear arithmetic with quotients by constants. *)
Ltac div_lia := Z.to_euclidean_division_equations; lia.

Section DefaultParameters.

Variable cleanedText : jsstring.
Hypothesis Htrimmed : trimEnd cleanedText = cleanedText.

Local Abbreviation L := (len cleanedText).
Local Abbreviation cut := (cutPoint cleanedText 1000).

(** While a whole window fits before the end, the cut advances by at
    least 802 and at most 1002 characters and stays inside the text. *)
Lemma cut_window (start : Z) :
  0 <= start -> start + 1000 < L ->
  start + 802 <= cut start <= start + 1002 /\ cut start <= L.
Proof.
  intros H0 Hfit. unfold cut, cutPoint. fold L.
  assert (Hmin : Z.min (start + 1000) L = start + 1000) by lia.
  rewrite Hmin.
  assert (E0 : (start + 1000 <? L) = true) by (apply Z.ltb_lt; lia).
  rewrite E0.
  pose proof (findSentenceEnd_inside cleanedText start (start + 1000)
                ltac:(fold L; lia)) as Hin.
  fold L in Hin.
  destruct (findSentenceEnd_spec cleanedText start (start + 1000))
    as [E|[[E Hneg]|(Hs & Hlo & Hup & _)]].
  - rewrite E. destruct (_ >? start); lia.
  - lia.
  - unfold clamp in Hup.
    destruct (_ >? start) eqn:E1; [|lia]. lia.
Qed.

(** In the last window the cut is the end of the text. *)
Lemma cut_last (start : Z) : L <= start + 1000 -> cut start = L.
Proof.
  intros Hlast. unfold cut, cutPoint. fold L.
  assert (Hmin : Z.min (start + 1000) L = L) by lia.
  rewrite Hmin, Z.ltb_irrefl. reflexivity.
Qed.

(** A chunk that reaches the end of the text is not blank. *)
Lemma chunkAt_last_nonblank (start : Z) :
  0 <= start < L -> L <= start + 1000 ->
  len (chunkAt cleanedText 1000 start) > 0.
Proof.
  intros Hs Hlast. unfold chunkAt. fold cut. rewrite (cut_last start Hlast).
  unfold L. rewrite substring_to_end by (fold L; lia).
  destruct (trim (skipn (Z.to_nat start) cleanedText)) as [|c r] eqn:E.
  - exfalso. apply trim_nil in E.
    rewrite (trimEnd_fixed_suffix cleanedText
               (firstn (Z.to_nat start) cleanedText)
               (skipn (Z.to_nat start) cleanedText)) in E.
    + discriminate.
    + exact Htrimmed.
    + symmetry. apply firstn_skipn.
    + intros Hnil. apply (f_equal (@List.length _)) in Hnil.
      rewrite length_skipn in Hnil. unfold L, len in Hs. simpl in Hnil. lia.
  - unfold len. simpl. lia.
Qed.

Lemma lastStart_push (chunks : list TextChunk) (c : TextChunk) :
  lastStart (chunks ++ [c]) = Some (startChar c).
Proof. unfold lastStart. now rewrite rev_app_distr. Qed.

Lemma remaining_nonneg (start : Z) : 0 <= remaining cleanedText start.
Proof.
  unfold remaining.
  destruct (L <=? start) eqn:E1; [lia|].
  destruct (L <=? start + 1000) eqn:E2; [destruct (L - 200 <=? start); lia|].
  apply Z.leb_gt in E2. div_lia.
Qed.

Local Abbreviation step := (chunkStep cleanedText 1000 200).

Lemma step_progress (st : LoopState) :
  cursorOK st -> st_startChar st < L ->
  cursorOK (step st)
  /\ remaining cleanedText (st_startChar (step st))
     <= remaining cleanedText (st_startChar st) - 1
  /\ (List.length (st_chunks (step st)) <= S (List.length (st_chunks st)))%nat.
Proof.
  intros [H0 Hprev] Hrun. set (start := st_startChar st) in *.
  destruct (Z_lt_le_dec (start + 1000) L) as [Hfit|Hlast].
  - (* a whole window fits *)
    destruct (cut_window start H0 Hfit) as [[Hlo Hup] Hin].
    assert (Hnext : forall chunks,
              (forall prev, lastStart chunks = Some prev -> prev <= start) ->
              nextStart cleanedText 1000 200 chunks start = cut start - 200).
    { intros chunks Hc. unfold nextStart. fold cut.
      destruct (lastStart chunks) as [prev|]; [|reflexivity].
      specialize (Hc prev eq_refl).
      destruct (_ <=? prev) eqn:E; [apply Z.leb_le in E; lia|reflexivity]. }
    assert (Hrem : remaining cleanedText (cut start - 200)
                   <= remaining cleanedText start - 1).
    { unfold remaining.
      destruct (L <=? start) eqn:E1; [apply Z.leb_le in E1; lia|].
      destruct (L <=? start + 1000) eqn:E2; [apply Z.leb_le in E2; lia|].
      apply Z.leb_gt in E2.
      destruct (L <=? cut start - 200) eqn:E3; [div_lia|].
      destruct (L <=? cut start - 200 + 1000) eqn:E4.
      - destruct (L - 200 <=? cut start - 200); div_lia.
      - apply Z.leb_gt in E4. div_lia. }
    destruct (Z_gt_le_dec (len (chunkAt cleanedText 1000 start)) 0) as [Hp|Hp].
    + rewrite (chunkStep_pushed _ _ _ st Hp). fold start.
      cbv zeta. rewrite Hnext.
      * split; [|split].
        -- split; simpl; [lia|]. intros prev. rewrite lastStart_push. simpl.
           intros [= <-]. lia.
        -- simpl. exact Hrem.
        -- simpl. rewrite length_app. simpl. lia.
      * intros prev. rewrite lastStart_push. simpl. intros [= <-]. lia.
    + rewrite (chunkStep_skipped _ _ _ st Hp). fold start.
      rewrite (Hnext _ Hprev).
      split; [|split].
      * split; simpl; [lia|]. intros prev Hl. specialize (Hprev prev Hl). lia.
      * simpl. exact Hrem.
      * simpl. lia.
  - (* the last window: the chunk reaches the end of the text *)
    pose proof (chunkAt_last_nonblank start ltac:(lia) Hlast) as Hp.
    pose proof (cut_last start Hlast) as Hcut.
    rewrite (chunkStep_pushed _ _ _ st Hp). fold start.
    cbv zeta. unfold nextStart. rewrite lastStart_push. fold cut.
    rewrite Hcut. simpl startChar.
    assert (Hrem : remaining cleanedText start
                   = if L - 200 <=? start then 1 else 2).
    { unfold remaining.
      destruct (L <=? start) eqn:E1; [apply Z.leb_le in E1; lia|].
      destruct (L <=? start + 1000) eqn:E2; [reflexivity|].
      apply Z.leb_gt in E2. lia. }
    rewrite Hrem.
    destruct (L - 200 <=? start) eqn:E.
    + split; [|split].
      * split; simpl; [lia|]. intros prev. rewrite lastStart_push. simpl.
        intros [= <-]. lia.
      * simpl. unfold remaining. rewrite Z.leb_refl. lia.
      * simpl. rewrite length_app. simpl. lia.
    + apply Z.leb_gt in E. split; [|split].
      * split; simpl; [lia|]. intros prev. rewrite lastStart_push. simpl.
        intros [= <-]. lia.
      * simpl. unfold remaining.
        destruct (L <=? L - 200) eqn:E1; [apply Z.leb_le in E1; lia|].
        destruct (L <=? L - 200 + 1000) eqn:E2;
          [|apply Z.leb_gt in E2; lia].
        destruct (L - 200 <=? L - 200) eqn:E3;
          [lia|apply Z.leb_gt in E3; lia].
      * simpl. rewrite length_app. simpl. lia.
Qed.

(** With enough fuel the loop ends, after at most [remaining] iterations,
    each of which adds at most one chunk. *)
Lemma chunkLoop_terminates (fuel : nat) : forall st,
  cursorOK st -> remaining cleanedText (st_startChar st) <= Z.of_nat fuel ->
  exists n st',
    chunkLoop fuel cleanedText 1000 200 st = Some (n, st')
    /\ Z.of_nat n <= remaining cleanedText (st_startChar st)
    /\ (List.length (st_chunks st') <= List.length (st_chunks st) + n)%nat.
Proof.
  induction fuel as [|fuel IH]; intros st Hok Hfuel.
  - exists O, st. simpl. fold L.
    destruct (st_startChar st <? L) eqn:E.
    + exfalso. apply Z.ltb_lt in E. unfold remaining in Hfuel.
      destruct (L <=? st_startChar st) eqn:E1; [apply Z.leb_le in E1; lia|].
      destruct (L <=? st_startChar st + 1000) eqn:E2.
      * destruct (L - 200 <=? st_startChar st); lia.
      * apply Z.leb_gt in E2. div_lia.
    + split; [reflexivity|]. split; [apply remaining_nonneg|lia].
  - simpl. fold L. destruct (st_startChar st <? L) eqn:E.
    + apply Z.ltb_lt in E.
      destruct (step_progress st Hok E) as (Hok' & Hrem & Hlen).
      destruct (IH (step st) Hok' ltac:(lia)) as (n & st' & El & Hn & Hc).
      exists (S n), st'. rewrite El.
      split; [reflexivity|]. split; lia.
    + exists O, st. split; [reflexivity|].
      split; [apply remaining_nonneg|lia].
Qed.

End DefaultParameters.

(** The loop started on a normalized text of more than 1000 characters:
    [iterationBound] iterations are enough. *)
Lemma chunkLoop_from_start (s : jsstring) (fuel : nat) :
  1000 < len (cleanText s) ->
  (iterationBound s <= fuel)%nat ->
  exists n st',
    chunkLoop fuel (cleanText s) 1000 200 (mkState 0 0 []) = Some (n, st')
    /\ (n <= iterationBound s)%nat
    /\ (List.length (st_chunks st') <= n)%nat.
Proof.
  intros Hlong Hfuel. unfold iterationBound, defaultChunkSize in *.
  set (cleaned := cleanText s) in *. cbv zeta in *.
  assert (E : (len cleaned <=? 1000) = false) by (apply Z.leb_gt; lia).
  rewrite E in *.
  assert (Htrimmed : trimEnd cleaned = cleaned) by apply trim_trimEnd_fixed.
  assert (Hrem : remaining cleaned 0 = (len cleaned - 1000 + 601) / 602 + 2).
  { unfold remaining.
    destruct (len cleaned <=? 0) eqn:E1; [apply Z.leb_le in E1; lia|].
    destruct (len cleaned <=? 0 + 1000) eqn:E2; [apply Z.leb_le in E2; lia|].
    f_equal. f_equal. lia. }
  destruct (chunkLoop_terminates cleaned Htrimmed fuel (mkState 0 0 []))
    as (n & st' & El & Hn & Hc).
  - split; simpl; [lia|]. discriminate.
  - simpl st_startChar. rewrite Hrem. div_lia.
  - simpl st_startChar in Hn. rewrite Hrem in Hn. simpl in Hc.
    exists n, st'. repeat split; [exact El|lia|lia].
Qed.

(** So [chunkText] returns its chunks for the default parameters. *)
Lemma chunkText_defined (s : jsstring) (fuel : nat) :
  (iterationBound s <= fuel)%nat ->
  exists chunks, chunkText fuel s 1000 200 = Some chunks.
Proof.
  intros Hfuel. unfold chunkText, chunkTextCounted.
  destruct (len (cleanText s) <=? 1000) eqn:E; [eexists; reflexivity|].
  apply Z.leb_gt in E.
  destruct (chunkLoop_from_start s fuel E Hfuel) as (n & st' & El & _).
  rewrite El. eexists. reflexivity.
Qed.

(** C5, the claim as stated fails: on 1001 letters the loop runs three times
    and emits three chunks (windows [0, 1000), [800, 1001) and [801, 1001)),
    while [ceil (1001 / 800)] is 2. *)
Lemma chunkText_exceeds_claimed_bound :
  exists chunks,
    chunkTextCounted 3 (rep 1001 "a") defaultChunkSize defaultOverlap
    = Some (3%nat, chunks)
    /\ List.length chunks = 3%nat
    /\ List.map (fun c => (startChar c, endChar c)) chunks
       = [(0, 1000); (800, 1001); (801, 1001)]
    /\ claimedBound (rep 1001 "a") = 2.
Proof.
  eexists. split; [vm_compute; reflexivity|].
  split; [reflexivity|]. split; vm_compute; reflexivity.
Qed.

(** C5, amended: with the default parameters (1000, 200) chunking any string
    terminates.  For a normalized text of [L <= 1000] characters the loop
    does not run (one chunk is returned); otherwise it runs at most
    [ceil ((L - 1000) / 602) + 2] times, each iteration emitting at most one
    chunk: a cut at a sentence boundary can lie 198 characters before the
    window's end, so the cursor advances by at least 602, and the last
    window is followed by one more iteration over the final 200
    characters. *)
Theorem chunkText_terminates (s : jsstring) (fuel : nat) :
  (iterationBound s <= fuel)%nat ->
  exists n chunks,
    chunkTextCounted fuel s defaultChunkSize defaultOverlap = Some (n, chunks)
    /\ chunkText fuel s defaultChunkSize defaultOverlap = Some chunks
    /\ (n <= iterationBound s)%nat
    /\ (List.length chunks <= Nat.max 1 n)%nat.
Proof.
  intros Hfuel. unfold chunkText, chunkTextCounted.
  unfold defaultChunkSize, defaultOverlap.
  destruct (len (cleanText s) <=? 1000) eqn:E.
  - exists O, [mkChunk (cleanText s) 0 0 (len (cleanText s))].
    repeat split; simpl; lia.
  - apply Z.leb_gt in E.
    destruct (chunkLoop_from_start s fuel E Hfuel) as (n & st' & El & Hn & Hc).
    exists n, (st_chunks st'). rewrite El. repeat split; lia.
Qed.

Lemma chunkText_terminates_witness :
  (iterationBound (rep 300 "abcdefgh. ") <= 6)%nat
  /\ exists n chunks,
       chunkTextCounted 6 (rep 300 "abcdefgh. ") defaultChunkSize defaultOverlap
       = Some (n, chunks)
       /\ chunkText 6 (rep 300 "abcdefgh. ") defaultChunkSize defaultOverlap
          = Some chunks
       /\ (n <= iterationBound (rep 300 "abcdefgh. "))%nat
       /\ (List.length chunks <= Nat.max 1 n)%nat.
Proof.
  split; [vm_compute; reflexivity|].
  apply (chunkText_terminates (rep 300 "abcdefgh. ") 6).
  vm_compute. reflexivity.
Defined.

(* ================================================================= *)
(** ** Cosine similarity *)

Section CosineGeneric.
Context {F : Type} `{Number F}.

Lemma cosineSimilarity_mismatch (vecA vecB : list F) :
  List.length vecA <> List.length vecB ->
  cosineSimilarity vecA vecB = Throw "Vectors must have the same dimension".
Proof.
  intros Hne. unfold cosineSimilarity.
  apply Nat.eqb_neq in Hne. now rewrite Hne.
Qed.

Lemma cosineSimilarity_defined (vecA vecB : list F) :
  List.length vecA = List.length vecB ->
  exists v, cosineSimilarity vecA vecB = Ok v.
Proof.
  intros He. unfold cosineSimilarity.
  apply Nat.eqb_eq in He. rewrite He. simpl.
  destruct (_ =? 0)%nat; [now eexists|].
  destruct (accumulate _ _ _ _ _) as [[d a] b].
  destruct (_ || _); now eexists.
Qed.

End CosineGeneric.

Section CosineFloat.
Local Open Scope float_scope.

Lemma accumulate_zero_left (vecA : list float) : forall vecB d nb,
  Forall isZero vecA ->
  snd (fst (accumulate vecA vecB d 0 nb)) = 0.
Proof.
  induction vecA as [|a vecA IH]; intros vecB d nb Hz; [reflexivity|].
  destruct vecB as [|b vecB]; [reflexivity|].
  inversion Hz as [|? ? Ha Hz']; subst.
  destruct Ha as [-> | ->]; exact (IH vecB _ _ Hz').
Qed.

Lemma accumulate_zero_right (vecB : list float) : forall vecA d na,
  Forall isZero vecB ->
  snd (accumulate vecA vecB d na 0) = 0.
Proof.
  induction vecB as [|b vecB IH]; intros vecA d na Hz.
  - destruct vecA; reflexivity.
  - destruct vecA as [|a vecA]; [reflexivity|].
    inversion Hz as [|? ? Hb Hz']; subst.
    destruct Hb as [-> | ->]; exact (IH vecA _ _ Hz').
Qed.

Lemma cosineSimilarity_zero_vector (vecA vecB : list float) :
  List.length vecA = List.length vecB ->
  Forall isZero vecA \/ Forall isZero vecB ->
  cosineSimilarity vecA vecB = Ok 0.
Proof.
  intros He Hz. unfold cosineSimilarity.
  apply Nat.eqb_eq in He. rewrite He. cbn [negb].
  destruct (_ =? 0)%nat; [reflexivity|].
  destruct (accumulate vecA vecB nzero nzero nzero) as [[d na] nb] eqn:E.
  destruct Hz as [Hz|Hz].
  - assert (Hna : na = 0).
    { change na with (snd (fst (d, na, nb))). rewrite <- E.
      now apply accumulate_zero_left. }
    subst na. reflexivity.
  - assert (Hnb : nb = 0).
    { change nb with (snd (d, na, nb)). rewrite <- E.
      now apply accumulate_zero_right. }
    subst nb. change (neqb (nsqrt 0) nzero) with true.
    now rewrite orb_true_r.
Qed.

End CosineFloat.

Section CosineReal.
Local Open Scope R_scope.

Lemma cauchy_step (d na nb a b : R) :
  cauchy (d, na, nb) -> cauchy (d + a * b, na + a * a, nb + b * b).
Proof.
  unfold cauchy. intros (Hna & Hnb & Hd).
  pose proof (Rle_0_sqr a) as Ha. pose proof (Rle_0_sqr b) as Hb.
  unfold Rsqr in Ha, Hb.
  split; [lra|]. split; [lra|].
  enough (2 * d * (a * b) <= na * (b * b) + nb * (a * a)).
  { replace ((d + a * b) * (d + a * b))
      with (d * d + 2 * d * (a * b) + (a * a) * (b * b)) by ring.
    replace ((na + a * a) * (nb + b * b))
      with (na * nb + (na * (b * b) + nb * (a * a)) + (a * a) * (b * b))
      by ring.
    lra. }
  destruct (Rle_lt_or_eq_dec 0 na Hna) as [Hpos| <-].
  - pose proof (Rle_0_sqr (na * b - d * a)) as Hsq. unfold Rsqr in Hsq.
    assert (Hgap : 0 <= (na * nb - d * d) * (a * a))
      by (apply Rmult_le_pos; lra).
    apply Rmult_le_reg_l with na; [exact Hpos|].
    replace (na * (na * (b * b) + nb * (a * a)))
      with ((na * b - d * a) * (na * b - d * a)
            + (na * nb - d * d) * (a * a) + na * (2 * d * (a * b)))
      by ring.
    lra.
  - rewrite Rmult_0_l in *.
    pose proof (Rle_0_sqr d) as Hdd. unfold Rsqr in Hdd.
    assert (Hd0 : d = 0).
    { destruct (Req_dec_T d 0) as [E|E]; [exact E|].
      pose proof (Rsqr_pos_lt d E) as Hlt. unfold Rsqr in Hlt. lra. }
    subst d. rewrite Rmult_0_r, Rmult_0_l, Rplus_0_l.
    apply Rmult_le_pos; lra.
Qed.

Lemma accumulate_cauchy (vecA : list R) : forall vecB d na nb,
  cauchy (d, na, nb) -> cauchy (accumulate vecA vecB d na nb).
Proof.
  induction vecA as [|a vecA IH]; intros vecB d na nb Hc; [exact Hc|].
  destruct vecB as [|b vecB]; [exact Hc|].
  simpl. apply IH. now apply cauchy_step.
Qed.

(** Over the real numbers the value of the formula lies in [-1, 1]. *)
Lemma cosineSimilarity_real_range (vecA vecB : list R) :
  List.length vecA = List.length vecB ->
  exists v, cosineSimilarity vecA vecB = Ok v /\ -1 <= v <= 1.
Proof.
  intros He. unfold cosineSimilarity.
  apply Nat.eqb_eq in He. rewrite He. simpl.
  destruct (_ =? 0)%nat; [exists 0; split; [reflexivity|lra]|].
  pose proof (accumulate_cauchy vecA vecB 0 0 0) as Hc.
  destruct (accumulate vecA vecB 0 0 0) as [[d na] nb].
  specialize (Hc ltac:(unfold cauchy; lra)). destruct Hc as (Hna & Hnb & Hd).
  destruct (Req_dec_T (sqrt na) 0) as [E1|E1];
    [exists 0; split; [reflexivity|lra]|].
  destruct (Req_dec_T (sqrt nb) 0) as [E2|E2];
    [exists 0; split; [reflexivity|lra]|].
  simpl. eexists. split; [reflexivity|].
  pose proof (sqrt_pos na). pose proof (sqrt_pos nb).
  assert (Hp : 0 < sqrt na * sqrt nb) by nra.
  assert (Hpp : (sqrt na * sqrt nb) * (sqrt na * sqrt nb) = na * nb).
  { transitivity ((sqrt na * sqrt na) * (sqrt nb * sqrt nb)); [ring|].
    now rewrite !sqrt_sqrt. }
  set (p := sqrt na * sqrt nb) in *.
  assert (Hdp : - p <= d <= p) by nra.
  split.
  - apply Rmult_le_reg_r with p; [exact Hp|].
    unfold Rdiv. rewrite Rmult_assoc, Rinv_l by lra. lra.
  - apply Rmult_le_reg_r with p; [exact Hp|].
    unfold Rdiv. rewrite Rmult_assoc, Rinv_l by lra. lra.
Qed.

(** Over the real numbers a vector of one positive entry has similarity 1
    with itself and with [1]. *)
Lemma cosineSimilarity_real_parallel (x y : R) :
  x > 0 -> y > 0 -> cosineSimilarity [x] [y] = Ok 1.
Proof.
  intros Hx Hy. unfold cosineSimilarity.
  cbn [List.length Nat.eqb negb accumulate nzero nadd nmul nsqrt neqb ndiv
       real_Number].
  rewrite !Rplus_0_l, !sqrt_square by lra.
  destruct (Req_dec_T x 0) as [E|_]; [lra|].
  destruct (Req_dec_T y 0) as [E|_]; [lra|].
  cbn [orb]. f_equal. field. lra.
Qed.

Lemma cosineSimilarity_real_ones :
  cosineSimilarity [1; 1; 1] [1; 1; 1] = Ok 1.
Proof.
  unfold cosineSimilarity.
  cbn [List.length Nat.eqb negb accumulate nzero nadd nmul nsqrt neqb ndiv
       real_Number].
  replace (0 + 1 * 1 + 1 * 1 + 1 * 1) with 3 by ring.
  assert (H3 : sqrt 3 * sqrt 3 = 3) by (apply sqrt_sqrt; lra).
  destruct (Req_dec_T (sqrt 3) 0) as [E|_]; [rewrite E in H3; lra|].
  cbn [orb]. f_equal. rewrite H3. field.
Qed.

End CosineReal.

(** C8, the claim as stated fails: in binary64 arithmetic the similarity of
    [1, 1, 1] with itself is [3 / (sqrt 3 * sqrt 3)], which rounds to
    1.0000000000000002, above 1; and the similarity of [2^600] with itself,
    where the sums of squares overflow, is NaN, which is in no interval. *)
Lemma cosineSimilarity_leaves_unit_interval :
  (exists v, cosineSimilarity [1; 1; 1]%float [1; 1; 1]%float = Ok v
             /\ (1 <? v)%float = true)
  /\ (exists v, cosineSimilarity [0x1p+600]%float [0x1p+600]%float = Ok v
                /\ PrimFloat.is_nan v = true).
Proof.
  split; eexists; (split; [vm_compute; reflexivity|reflexivity]).
Qed.

(** C8, amended: [cosineSimilarity] fails with the dimension error for every
    pair of vectors of unequal length and returns a number for every pair
    of equal length; it returns exactly 0 when the vectors are empty and
    when all entries of one of them are zero; and the exact value of its
    formula, read over the real numbers, lies in [-1, 1].  The number the
    program computes is the formula evaluated in binary64, which can
    differ from that value: for [1, 1, 1] with itself it is
    1.0000000000000002; where the sums of squares overflow it is NaN for
    [2^600] with itself and 0 for [2^600] with [1], two pairs whose exact
    similarity is 1. *)
Theorem cosineSimilarity_spec :
  (forall vecA vecB : list float,
     List.length vecA <> List.length vecB ->
     cosineSimilarity vecA vecB = Throw "Vectors must have the same dimension")
  /\ (forall vecA vecB : list float,
        List.length vecA = List.length vecB ->
        exists v, cosineSimilarity vecA vecB = Ok v)
  /\ cosineSimilarity (F := float) [] [] = Ok 0%float
  /\ (forall vecA vecB : list float,
        List.length vecA = List.length vecB ->
        Forall isZero vecA \/ Forall isZero vecB ->
        cosineSimilarity vecA vecB = Ok 0%float)
  /\ (forall vecA vecB : list R,
        List.length vecA = List.length vecB ->
        exists v, cosineSimilarity vecA vecB = Ok v /\ (-1 <= v <= 1)%R)
  /\ cosineSimilarity [1; 1; 1]%float [1; 1; 1]%float
     = Ok 0x1.0000000000001p+0%float
  /\ (exists v, cosineSimilarity [0x1p+600]%float [0x1p+600]%float = Ok v
                /\ PrimFloat.is_nan v = true)
  /\ cosineSimilarity [0x1p+600]%float [1]%float = Ok 0%float
  /\ cosineSimilarity [1; 1; 1]%R [1; 1; 1]%R = Ok 1%R
  /\ (forall x : R, (x > 0)%R ->
        cosineSimilarity [x] [x] = Ok 1%R
        /\ cosineSimilarity [x] [1%R] = Ok 1%R).
Proof.
  split; [exact cosineSimilarity_mismatch|].
  split; [exact cosineSimilarity_defined|].
  split; [reflexivity|].
  split; [exact cosineSimilarity_zero_vector|].
  split; [exact cosineSimilarity_real_range|].
  split; [vm_compute; reflexivity|].
  split; [eexists; split; [vm_compute; reflexivity|reflexivity]|].
  split; [vm_compute; reflexivity|].
  split; [exact cosineSimilarity_real_ones|].
  intros x Hx. split; apply cosineSimilarity_real_parallel; lra.
Qed.

(* ================================================================= *)
(** ** The indices of the chunks *)

Section ChunkIndices.

Variables (cleanedText : jsstring) (chunkSize overlap : Z).

Lemma chunkStep_numbered (st : LoopState) :
  numbered st -> numbered (chunkStep cleanedText chunkSize overlap st).
Proof.
  intros [Hidx Hnth].
  destruct (Z_gt_le_dec
              (len (chunkAt cleanedText chunkSize (st_startChar st))) 0)
    as [Hp|Hp].
  - rewrite (chunkStep_pushed _ _ _ st Hp). split; simpl.
    + rewrite length_app. simpl. lia.
    + intros i c Hi.
      destruct (Nat.lt_ge_cases i (List.length (st_chunks st))) as [Hlt|Hge].
      * rewrite nth_error_app1 in Hi by exact Hlt. now apply Hnth.
      * rewrite nth_error_app2 in Hi by exact Hge.
        destruct (i - List.length (st_chunks st))%nat as [|j] eqn:Ej.
        -- simpl in Hi. injection Hi as <-. simpl. lia.
        -- simpl in Hi. destruct j; discriminate.
  - rewrite (chunkStep_skipped _ _ _ st Hp). now split.
Qed.

Lemma runSteps_numbered (n : nat) : forall st,
  numbered st -> numbered (runSteps cleanedText chunkSize overlap n st).
Proof.
  induction n as [|n IH]; intros st Hst; simpl; [exact Hst|].
  destruct (_ <? _); [|exact Hst]. apply IH. now apply chunkStep_numbered.
Qed.

End ChunkIndices.


(* ================================================================= *)
(** ** The ingestion pipeline *)

Section Arrival.

Variable w : World.

Lemma arrives_perm (x : nat * TextChunk) (queue : list (nat * TextChunk)) :
  Permutation (arrives w x queue) (x :: queue).
Proof.
  induction queue as [|y queue IH]; [reflexivity|]. cbn [arrives].
  destruct (_ <? _); [|reflexivity].
  rewrite IH. apply perm_swap.
Qed.

Lemma arrivalOrder_perm (chunks : list TextChunk) :
  Permutation (arrivalOrder w chunks)
    (combine (seq 0 (List.length chunks)) chunks).
Proof.
  unfold arrivalOrder.
  induction (combine (seq 0 (List.length chunks)) chunks) as [|x l IH];
    [reflexivity|].
  cbn [fold_right]. rewrite arrives_perm. now constructor.
Qed.

Lemma arrivalOrder_length (chunks : list TextChunk) :
  List.length (arrivalOrder w chunks) = List.length chunks.
Proof.
  rewrite (Permutation_length (arrivalOrder_perm chunks)).
  rewrite length_combine, length_seq. apply Nat.min_id.
Qed.

Lemma In_numbered {A : Type} (l : list A) : forall a i x,
  In (i, x) (combine (seq a (List.length l)) l)
  <-> (a <= i)%nat /\ nth_error l (i - a) = Some x.
Proof.
  induction l as [|y l IH]; intros a i x; cbn [List.length seq combine In].
  - split; [intros []|]. intros [_ H]. destruct (i - a)%nat; discriminate.
  - rewrite IH. split.
    + intros [[= <- <-]|[Ha Hn]].
      * split; [lia|]. now rewrite Nat.sub_diag.
      * split; [lia|].
        replace (i - a)%nat with (S (i - S a)) by lia. exact Hn.
    + intros [Ha Hn]. destruct (Nat.eq_dec i a) as [->|Hne].
      * left. rewrite Nat.sub_diag in Hn. now injection Hn as <-.
      * right. split; [lia|].
        replace (i - a)%nat with (S (i - S a)) in Hn by lia. exact Hn.
Qed.


(** The callbacks that go on are those of the chunks, each with the
    position of its chunk. *)
Lemma arrivalOrder_In (chunks : list TextChunk) (i : nat) (c : TextChunk) :
  In (i, c) (arrivalOrder w chunks) <-> nth_error chunks i = Some c.
Proof.
  split.
  - intros Hin.
    apply (Permutation_in _ (arrivalOrder_perm chunks)) in Hin.
    pose proof (proj1 (In_numbered chunks 0 i c) Hin) as [_ Hn].
    now rewrite Nat.sub_0_r in Hn.
  - intros Hn.
    apply (Permutation_in _ (Permutation_sym (arrivalOrder_perm chunks))).
    apply In_numbered. rewrite Nat.sub_0_r. split; [lia|exact Hn].
Qed.


End Arrival.

Section Ingestion.

Variable w : World.
Variables (title userId cat : jsstring) (tgs : list jsstring).

Local Abbreviation child := (childRecord w title userId cat tgs).
Local Abbreviation children := (childRecords w title userId cat tgs).



Lemma firstRejection_none {A : Type} (settled : list (nat * result A)) :
  Forall (fun x => isOk (snd x) = true) settled ->
  firstRejection settled = None.
Proof.
  induction 1 as [|[i [v|m]] l Hx _ IH]; cbn [firstRejection];
    [reflexivity|exact IH|discriminate Hx].
Qed.

Hypothesis Hembed : forall t, exists e, generateEmbedding w t = Ok (Some e).
Hypothesis Hstore : forall d, documentCreate w d = Ok tt.

Lemma create_ok (db : Collection) (fields : NewDocument) :
  create w db fields
  = (Ok (mkStored (Z.of_nat (List.length db)) (now w) (applySetters fields)),
     db ++ [mkStored (Z.of_nat (List.length db)) (now w)
              (applySetters fields)]).
Proof. unfold create. cbv zeta. now rewrite Hstore. Qed.

Lemma runCallbacks_ok parentId total queue : forall db,
  exists settled,
    runCallbacks w title userId cat tgs parentId total queue db
    = (settled,
       db ++ children parentId total (Z.of_nat (List.length db)) queue)
    /\ Forall (fun x => isOk (snd x) = true) settled.
Proof.
  induction queue as [|[i c] rest IH]; intros db;
    cbn [runCallbacks childRecords].
  - exists []. rewrite app_nil_r. now split.
  - unfold saveChunk. destruct (Hembed (text c)) as [e He]. rewrite He.
    rewrite create_ok.
    destruct (IH (db ++ [mkStored (Z.of_nat (List.length db)) (now w)
                (applySetters
                   (mkNewDocument (chunkTitle title i total) (text c) cat tgs
                      (orEmpty (Some e)) userId true true (Some parentId)
                      (Some (index c)) (Some (Z.of_nat total))))]))
      as (settled & -> & Hall).
    eexists. split.
    + rewrite length_app, Nat2Z.inj_add. cbn [List.length].
      unfold childRecord, embeddingOf. rewrite He.
      rewrite <- app_assoc. reflexivity.
    + constructor; [reflexivity|exact Hall].
Qed.

Lemma saveChunks_ok parentId chunks db :
  exists saved,
    saveChunks w title userId cat tgs parentId chunks db
    = (Ok saved,
       db ++ children parentId (List.length chunks)
               (Z.of_nat (List.length db)) (arrivalOrder w chunks)).
Proof.
  unfold saveChunks.
  destruct (runCallbacks_ok parentId (List.length chunks)
              (arrivalOrder w chunks) db) as (settled & -> & Hall).
  unfold promiseAll. rewrite (firstRejection_none _ Hall).
  eexists. reflexivity.
Qed.

End Ingestion.

Section Titles.

Lemma trim_fixed_head (s : jsstring) (c : char) (r : jsstring) :
  trim s = s -> s = c :: r -> isWhitespace c = false.
Proof.
  intros Ht ->. destruct (isWhitespace c) eqn:E; [exfalso|reflexivity].
  unfold trim in Ht. cbn [trimStart] in Ht. rewrite E in Ht.
  apply (f_equal (@List.length _)) in Ht.
  pose proof (length_trimEnd (trimStart r)).
  pose proof (length_trimStart r). cbn [List.length] in Ht. lia.
Qed.

Lemma trimEnd_snoc (s : jsstring) (c : char) :
  isWhitespace c = false -> trimEnd (s ++ [c]) = s ++ [c].
Proof.
  intros Hc. induction s as [|x s IH]; cbn [app trimEnd].
  - now rewrite Hc.
  - rewrite IH. now destruct (s ++ [c]) eqn:E; [destruct s; discriminate|].
Qed.

(** Trimming leaves the title of a chunk as it is when the title given is
    not empty and has no white space at its ends. *)
Lemma trim_chunkTitle (title : jsstring) (index total : nat) :
  trim title = title -> title <> [] ->
  trim (chunkTitle title index total) = chunkTitle title index total.
Proof.
  intros Ht Hne. unfold chunkTitle.
  destruct title as [|c r] eqn:Et; [congruence|]. rewrite <- Et in *.
  pose proof (trim_fixed_head title c r Ht Et) as Hc.
  set (i := str (showZ (Z.of_nat index + 1))).
  set (n := str (showZ (Z.of_nat total))).
  replace (title ++ str " (Chunk " ++ i ++ str "/" ++ n ++ str ")")
    with ((title ++ str " (Chunk " ++ i ++ str "/" ++ n) ++ [41%N])
    by (now rewrite <- !app_assoc).
  unfold trim. rewrite trimStart_fixed.
  - now rewrite trimEnd_snoc.
  - rewrite Et. cbn [app]. exact Hc.
Qed.

End Titles.




(** The store after the ingestion of [demoContent]: the parent and the five
    chunks the loop cuts, titled "Handbook (Chunk i/5)". *)
Example ingestion_demo :
  option_map
    (fun r => List.map
                (fun d => (stored_id d, ChatController.isChunk (stored d),
                           chunkIndex (stored d), chunkCount (stored d)))
                (snd r))
    (processAndSaveDocument 6 demoWorld [] (str "Handbook") demoContent
       (str "u1") None None)
  = Some [(0, false, None, Some 5); (1, true, Some 0, Some 5);
          (2, true, Some 1, Some 5); (3, true, Some 2, Some 5);
          (4, true, Some 3, Some 5); (5, true, Some 4, Some 5)].
Proof. vm_compute. reflexivity. Qed.

(** The same ingestion when the answer to the first request comes last:
    the record of the first chunk is the last one stored. *)
Example ingestion_demo_late_answer :
  option_map
    (fun r => List.map
                (fun d => (stored_id d, ChatController.title (stored d),
                           chunkIndex (stored d)))
                (snd r))
    (processAndSaveDocument 6 slowStartWorld [] (str "Handbook") demoContent
       (str "u1") None None)
  = Some [(0, str "Handbook", None);
          (1, str "Handbook (Chunk 2/5)", Some 1);
          (2, str "Handbook (Chunk 3/5)", Some 2);
          (3, str "Handbook (Chunk 4/5)", Some 3);
          (4, str "Handbook (Chunk 5/5)", Some 4);
          (5, str "Handbook (Chunk 1/5)", Some 0)].
Proof. vm_compute. reflexivity. Qed.

(** *** Failure of the embedding service *)

(** [generateEmbedding] never resolves with [null]: a failure of the
    service is thrown. *)
Lemma generateEmbedding_not_null (w : World) (t : jsstring) :
  generateEmbedding w t <> Ok None.
Proof.
  unfold generateEmbedding, failed.
  destruct (voyageApiKey w); simpl; [|discriminate].
  destruct (voyage w t) as [[e|]|status m|m]; try discriminate.
  - destruct (negb _); discriminate.
  - destruct (_ =? 401); [discriminate|]. destruct (_ =? 429); discriminate.
Qed.

(** When the embedding of a short document fails, nothing is stored and the
    error is thrown to the handler. *)
Lemma short_ingestion_embedding_failure (fuel : nat) (w : World)
    (db : Collection) (title content userId : jsstring)
    (category : option jsstring) (tags : option (list jsstring)) (m : string) :
  len (cleanText content) <= 2000 ->
  generateEmbedding w (cleanText content) = Throw m ->
  processAndSaveDocument fuel w db title content userId category tags
  = Some (Throw m, db).
Proof.
  intros Hshort Hfail. unfold processAndSaveDocument.
  destruct (len (cleanText content) >? 2000) eqn:E;
    [apply Z.gtb_lt in E; lia|].
  now rewrite Hfail.
Qed.

(** C2, the code at failing inputs.  With the embedding service failing, the
    upload of a short document stores nothing and answers 500; with the
    service failing for the fourth of five chunks, the ingestion throws,
    and the store is left with the parent, which announces five chunks, and
    four children. *)
Theorem ingestion_aborts_on_embedding_failure :
  uploadDocument 0 unconfiguredWorld [] shortUpload
  = Some (Failure 500 "Error uploading document"
            (Some "Failed to generate embedding: VOYAGE_API_KEY is not configured"%string),
          [])
  /\ option_map
       (fun r => (fst r,
                  List.map (fun d => (ChatController.isChunk (stored d),
                                      chunkIndex (stored d),
                                      chunkCount (stored d)))
                           (snd r)))
       (processAndSaveDocument 6 flakyWorld [] (str "Handbook") demoContent
          (str "u1") None None)
     = Some (Throw "Failed to generate embedding: timeout of 30000ms exceeded",
             [(false, None, Some 5); (true, Some 0, Some 5);
              (true, Some 1, Some 5); (true, Some 2, Some 5);
              (true, Some 4, Some 5)]).
Proof. split; vm_compute; reflexivity. Qed.

(* ================================================================= *)
(** ** The answer pipeline *)

Section Answer.

Variables (w : World) (hs : Histories) (req : AskRequest).
Variables (u : UserPayload) (question : jsstring).

Abbreviation language := (orDefault (req_language req) "en").
Abbreviation mode := (orDefault (req_mode req) "general").
Abbreviation chatSessionId := (resolveSessionId w u (req_sessionId req)).

(** Behind the checks the handler retrieves, generates, records and
    answers. *)
Lemma askQuestion_valid :
  validQuestion req u question ->
  askQuestion w hs req
  = match generateAIResponse w question (retrieve w question)
            language mode with
    | Throw m => (Failure 500 "Error processing your question" (Some m), hs)
    | Ok aiResponse =>
        (Success 200
           (mkAnswerData question aiResponse language mode chatSessionId
              (List.map sourceOf (retrieve w question)) (now w)),
         snd (recordExchange w hs (user_id u) chatSessionId question
                aiResponse language mode (retrieve w question)))
    end.
Proof.
  intros (Hv & Hu & Hq & Hblank & Hlen). unfold askQuestion.
  rewrite Hv, Hu, Hq.
  pose proof (len_trim question) as Ht.
  assert (E1 : (len question =? 0) = false) by (apply Z.eqb_neq; lia).
  assert (E2 : (len (trim question) =? 0) = false) by (apply Z.eqb_neq; lia).
  assert (E3 : (len question >? 1000) = false).
  { destruct (len question >? 1000) eqn:E; [|reflexivity].
    apply Z.gtb_lt in E. lia. }
  rewrite E1, E2, E3. cbn [orb].
  destruct (generateAIResponse _ _ _ _ _) as [aiResponse|m]; [|reflexivity].
  now destruct (recordExchange _ _ _ _ _ _ _ _ _).
Qed.

(** Nothing is retrieved when the embedding fails or the vector search
    finds nothing, and the text search finds nothing either. *)
Lemma retrieve_nothing :
  (forall e, generateEmbedding w question = Ok (Some e) ->
             findRelevantDocumentsByEmbedding w e 3 = []) ->
  findRelevantDocuments w question 3 = [] ->
  retrieve w question = [].
Proof.
  intros Hvec Hlex. unfold retrieve.
  destruct (generateEmbedding w question) as [[[|x e]|]|m]; try exact Hlex.
  now rewrite (Hvec (x :: e) eq_refl).
Qed.

Lemma recordExchange_failure aiResponse docs :
  (exists m, historyFindOne w = Throw m)
  \/ (exists m, historySave w = Throw m) ->
  snd (recordExchange w hs (user_id u) chatSessionId question aiResponse
         language mode docs) = hs.
Proof.
  intros [[m Hm]|[m Hm]]; unfold recordExchange.
  - now rewrite Hm.
  - rewrite Hm. now destruct (historyFindOne w).
Qed.

End Answer.

(** C3: for a valid question, when the embedding of the question fails or
    the vector search returns no document, and the text search returns no
    document either, the context is empty, the generation service is asked
    with a prompt that has no context section, and the text it returns is
    answered with status 200 and an empty list of sources. *)
Theorem degraded_retrieval_still_answers (w : World) (hs : Histories)
    (req : AskRequest) (u : UserPayload) (question aiResponse : jsstring) :
  validQuestion req u question ->
  (forall e, generateEmbedding w question = Ok (Some e) ->
             findRelevantDocumentsByEmbedding w e 3 = []) ->
  findRelevantDocuments w question 3 = [] ->
  geminiApiKey w = true ->
  gemini w (buildPrompt question []
              (orDefault (req_language req) "en")
              (orDefault (req_mode req) "general"))
  = GeminiText aiResponse ->
  0 < len (trim aiResponse) ->
  retrieve w question = []
  /\ p_context (buildPrompt question (retrieve w question)
                  (orDefault (req_language req) "en")
                  (orDefault (req_mode req) "general")) = []
  /\ fst (askQuestion w hs req)
     = Success 200
         (mkAnswerData question aiResponse
            (orDefault (req_language req) "en")
            (orDefault (req_mode req) "general")
            (resolveSessionId w u (req_sessionId req)) [] (now w)).
Proof.
  intros Hvalid Hvec Hlex Hkey Hgen Hblank.
  pose proof (retrieve_nothing w question Hvec Hlex) as Hret.
  split; [exact Hret|]. split; [now rewrite Hret|].
  rewrite (askQuestion_valid w hs req u question Hvalid), Hret.
  unfold generateAIResponse. rewrite Hkey, Hgen. cbn [negb].
  pose proof (len_trim aiResponse) as Ht.
  assert (E1 : (len aiResponse =? 0) = false) by (apply Z.eqb_neq; lia).
  assert (E2 : (len (trim aiResponse) =? 0) = false)
    by (apply Z.eqb_neq; lia).
  rewrite E1, E2. reflexivity.
Qed.

Lemma degraded_retrieval_still_answers_witness :
  validQuestion demoRequest demoUser demoQuestion
  /\ generateEmbedding unconfiguredWorld demoQuestion
     = Throw "Failed to generate embedding: VOYAGE_API_KEY is not configured"
  /\ findRelevantDocuments unconfiguredWorld demoQuestion 3 = []
  /\ fst (askQuestion unconfiguredWorld [] demoRequest)
     = Success 200
         (mkAnswerData demoQuestion (str "Please ask the registrar.")
            (str "en") (str "general") (str "session_u7_1700000000000") []
            1700000000000).
Proof.
  assert (Hvalid : validQuestion demoRequest demoUser demoQuestion)
    by (repeat split; vm_compute; congruence).
  split; [exact Hvalid|]. split; [reflexivity|]. split; [reflexivity|].
  refine (proj2 (proj2
    (degraded_retrieval_still_answers unconfiguredWorld [] demoRequest
       demoUser demoQuestion (str "Please ask the registrar.")
       Hvalid _ _ _ _ _))).
  - intros e He. vm_compute in He. discriminate.
  - reflexivity.
  - reflexivity.
  - reflexivity.
  - vm_compute. reflexivity.
Defined.

(** C4: for a valid question, a failure of the generation step fails the
    request: status 500, no answer, and nothing is recorded; a failure of
    the chat-history step after a successful generation does not: the
    answer, the resolved session identifier and the sources are returned
    with status 200, as they are when the history is saved. *)
Theorem generation_fatal_history_not (w : World) (hs : Histories)
    (req : AskRequest) (u : UserPayload) (question : jsstring) :
  validQuestion req u question ->
  (forall m,
     generateAIResponse w question (retrieve w question)
       (orDefault (req_language req) "en")
       (orDefault (req_mode req) "general") = Throw m ->
     askQuestion w hs req
     = (Failure 500 "Error processing your question" (Some m), hs))
  /\ (forall aiResponse,
        generateAIResponse w question (retrieve w question)
          (orDefault (req_language req) "en")
          (orDefault (req_mode req) "general") = Ok aiResponse ->
        fst (askQuestion w hs req)
        = Success 200
            (mkAnswerData question aiResponse
               (orDefault (req_language req) "en")
               (orDefault (req_mode req) "general")
               (resolveSessionId w u (req_sessionId req))
               (List.map sourceOf (retrieve w question)) (now w))
        /\ ((exists m, historyFindOne w = Throw m)
            \/ (exists m, historySave w = Throw m) ->
            snd (askQuestion w hs req) = hs)).
Proof.
  intros Hvalid. rewrite (askQuestion_valid w hs req u question Hvalid).
  split.
  - intros m Hm. now rewrite Hm.
  - intros aiResponse Hok. rewrite Hok. split; [reflexivity|].
    intros Hfail. simpl. now apply recordExchange_failure.
Qed.

Lemma generation_fatal_history_not_witness :
  validQuestion demoRequest demoUser demoQuestion
  /\ askQuestion quotaWorld [] demoRequest
     = (Failure 500 "Error processing your question"
          (Some "Gemini API quota exceeded"%string), [])
  /\ historySave historyDownWorld
     = Throw "MongoNetworkError: connection closed"
  /\ askQuestion historyDownWorld [] demoRequest
     = (Success 200
          (mkAnswerData demoQuestion (str "Please ask the registrar.")
             (str "en") (str "general") (str "session_u7_1700000000000") []
             1700000000000), []).
Proof.
  assert (Hvalid : validQuestion demoRequest demoUser demoQuestion)
    by (repeat split; vm_compute; congruence).
  split; [exact Hvalid|]. split; [|split; [reflexivity|]].
  - apply (proj1 (generation_fatal_history_not quotaWorld [] demoRequest
                    demoUser demoQuestion Hvalid)).
    vm_compute. reflexivity.
  - destruct (proj2 (generation_fatal_history_not historyDownWorld []
                       demoRequest demoUser demoQuestion Hvalid)
                (str "Please ask the registrar.")
                ltac:(vm_compute; reflexivity)) as [Hfst Hsnd].
    rewrite (surjective_pairing
               (askQuestion historyDownWorld [] demoRequest)).
    rewrite Hfst, Hsnd; [reflexivity|].
    right. eexists. reflexivity.
Defined.

(* ================================================================= *)
(** ** The order of binary64 numbers and the sign of a difference

    The comparator of [findTopKSimilar] is a subtraction.  That its sign
    agrees with the order of its operands is a fact of IEEE-754 arithmetic
    (a difference of two distinct numbers never rounds to zero); it is
    derived here from the specification of the primitive floats. *)

Section SpecFloatOrder.

(** Binary digits *)
Lemma digits2_pos_bounds (p : positive) :
  2 ^ (Zpos (digits2_pos p) - 1) <= Zpos p < 2 ^ Zpos (digits2_pos p).
Proof.
  induction p as [p IH|p IH|]; cbn [digits2_pos].
  - rewrite Pos2Z.inj_succ.
    replace (Z.succ (Zpos (digits2_pos p)) - 1)
      with (Z.succ (Zpos (digits2_pos p) - 1)) by lia.
    rewrite !Z.pow_succ_r by lia. lia.
  - rewrite Pos2Z.inj_succ.
    replace (Z.succ (Zpos (digits2_pos p)) - 1)
      with (Z.succ (Zpos (digits2_pos p) - 1)) by lia.
    rewrite !Z.pow_succ_r by lia. lia.
  - simpl. lia.
Qed.

Lemma iter_xO_value (d m : positive) :
  Zpos (Pos.iter xO m d) = Zpos m * 2 ^ Zpos d.
Proof.
  induction d as [|d IH] using Pos.peano_ind.
  - simpl. lia.
  - rewrite Pos.iter_succ, Pos2Z.inj_succ, Z.pow_succ_r by lia.
    rewrite Pos2Z.inj_xO, IH. lia.
Qed.

Lemma shl_align_value (m : positive) (e ez : Z) :
  ez <= e -> Zpos (fst (shl_align m e ez)) = Zpos m * 2 ^ (e - ez)
             /\ snd (shl_align m e ez) = ez.
Proof.
  intros Hle. unfold shl_align.
  destruct (ez - e) as [|d|d] eqn:E; try lia.
  - replace (e - ez) with 0 by lia. simpl. split; lia.
  - cbn [fst snd]. rewrite iter_xO_value. replace (e - ez) with (Zpos d) by lia.
    split; [reflexivity|lia].
Qed.

(** What validity says of a finite binary64 number. *)
Lemma bounded_canonical (m : positive) (e : Z) :
  SpecFloat.bounded prec emax m e = true ->
  Zpos (digits2_pos m) <= 53 /\ -1074 <= e
  /\ (-1074 < e -> Zpos (digits2_pos m) = 53).
Proof.
  unfold SpecFloat.bounded, canonical_mantissa, fexp, SpecFloat.emin.
  unfold prec, emax.
  rewrite andb_true_iff, Z.eqb_eq. lia.
Qed.

(** Of two valid numbers the one with the smaller exponent has the smaller
    magnitude. *)
Lemma smaller_exponent (m m' : positive) (e e' : Z) :
  SpecFloat.bounded prec emax m e = true ->
  SpecFloat.bounded prec emax m' e' = true ->
  e < e' -> Zpos m < Zpos m' * 2 ^ (e' - e).
Proof.
  intros Hm Hm' Hlt.
  destruct (bounded_canonical m e Hm) as (Hd & He & _).
  destruct (bounded_canonical m' e' Hm') as (_ & _ & Hd').
  specialize (Hd' ltac:(lia)).
  pose proof (digits2_pos_bounds m) as [_ Hup].
  pose proof (digits2_pos_bounds m') as [Hlo _].
  rewrite Hd' in Hlo.
  pose proof (Z.pow_le_mono_r 2 (Zpos (digits2_pos m)) 53 ltac:(lia) Hd) as H53.
  pose proof (Z.pow_le_mono_r 2 1 (e' - e) ltac:(lia) ltac:(lia)) as H2.
  change (2 ^ 1) with 2 in H2.
  change (2 ^ 53) with 9007199254740992 in H53.
  change (2 ^ (53 - 1)) with 4503599627370496 in Hlo.
  nia.
Qed.

(** The difference of the aligned mantissas has the sign of the
    comparison. *)
Lemma aligned_difference_pos (sx sy : bool) (mx my : positive) (ex ey : Z) :
  SpecFloat.bounded prec emax mx ex = true ->
  SpecFloat.bounded prec emax my ey = true ->
  SFcompare (S754_finite sx mx ex) (S754_finite sy my ey) = Some Lt ->
  0 < cond_Zopp sy (Zpos (fst (shl_align my ey (Z.min ey ex))))
      - cond_Zopp sx (Zpos (fst (shl_align mx ex (Z.min ey ex)))).
Proof.
  intros Hx Hy Hc.
  destruct (shl_align_value my ey (Z.min ey ex) ltac:(lia)) as [-> _].
  destruct (shl_align_value mx ex (Z.min ey ex) ltac:(lia)) as [-> _].
  pose proof (Z.pow_pos_nonneg 2 (ey - Z.min ey ex) ltac:(lia) ltac:(lia)).
  pose proof (Z.pow_pos_nonneg 2 (ex - Z.min ey ex) ltac:(lia) ltac:(lia)).
  simpl in Hc. destruct sx, sy; cbn [cond_Zopp]; try discriminate.
  - (* both negative *)
    destruct (ex ?= ey) eqn:E; try discriminate.
    + apply Z.compare_eq in E. subst ey.
      injection Hc as Hc. apply (f_equal CompOpp) in Hc.
      rewrite CompOpp_involutive in Hc. simpl in Hc.
      fold (Pos.compare mx my) in Hc.
      pose proof (proj1 (Pos.compare_gt_iff _ _) Hc).
      replace (ex - Z.min ex ex) with 0 by lia. change (2 ^ 0) with 1. lia.
    + pose proof (proj1 (Z.compare_gt_iff _ _) E) as E'.
      pose proof (smaller_exponent my mx ey ex Hy Hx E').
      replace (Z.min ey ex) with ey by lia.
      replace (ey - ey) with 0 by lia. change (2 ^ 0) with 1. lia.
  - (* x negative, y positive *) nia.
  - (* both positive *)
    destruct (ex ?= ey) eqn:E; try discriminate.
    + apply Z.compare_eq in E. subst ey. injection Hc as Hc.
      fold (Pos.compare mx my) in Hc.
      pose proof (proj1 (Pos.compare_lt_iff _ _) Hc).
      replace (ex - Z.min ex ex) with 0 by lia. change (2 ^ 0) with 1. lia.
    + pose proof (proj1 (Z.compare_lt_iff _ _) E) as E'.
      pose proof (smaller_exponent mx my ex ey Hx Hy E').
      replace (Z.min ey ex) with ex by lia.
      replace (ex - ex) with 0 by lia. change (2 ^ 0) with 1. lia.
Qed.

(** Shifting a mantissa to the right. *)
Lemma shr_1_m (mrs : shr_record) :
  0 <= shr_m mrs -> shr_m (shr_1 mrs) = shr_m mrs / 2.
Proof.
  destruct mrs as [m r s]. cbn [shr_m]. intros Hm.
  rewrite <- Z.div2_div.
  destruct m as [|[p|p|]|p]; try reflexivity. lia.
Qed.

Lemma pow2_xO (p : positive) : 2 ^ Zpos p~0 = 2 ^ Zpos p * 2 ^ Zpos p.
Proof.
  rewrite <- Z.pow_add_r by lia. f_equal. lia.
Qed.

Lemma pow2_xI (p : positive) : 2 ^ Zpos p~1 = 2 * (2 ^ Zpos p * 2 ^ Zpos p).
Proof.
  rewrite <- Z.pow_add_r by lia. rewrite <- Z.pow_succ_r by lia. f_equal. lia.
Qed.

Lemma iter_shr_1_m (p : positive) : forall mrs,
  0 <= shr_m mrs ->
  shr_m (SpecFloat.iter_pos shr_1 p mrs) = shr_m mrs / 2 ^ Zpos p.
Proof.
  induction p as [p IH|p IH|]; intros mrs Hm; cbn [SpecFloat.iter_pos].
  - pose proof (Z.pow_pos_nonneg 2 (Zpos p) ltac:(lia) ltac:(lia)) as Hp.
    assert (H1 : 0 <= shr_m (shr_1 mrs))
      by (rewrite shr_1_m by exact Hm; apply Z.div_pos; lia).
    assert (H2 : 0 <= shr_m (SpecFloat.iter_pos shr_1 p (shr_1 mrs)))
      by (rewrite IH by exact H1; apply Z.div_pos; lia).
    rewrite (IH _ H2), (IH _ H1), (shr_1_m _ Hm).
    rewrite !Z.div_div by lia. f_equal.
    rewrite pow2_xI. lia.
  - pose proof (Z.pow_pos_nonneg 2 (Zpos p) ltac:(lia) ltac:(lia)) as Hp.
    assert (H2 : 0 <= shr_m (SpecFloat.iter_pos shr_1 p mrs))
      by (rewrite IH by exact Hm; apply Z.div_pos; lia).
    rewrite (IH _ H2), (IH _ Hm).
    rewrite !Z.div_div by lia. f_equal.
    rewrite pow2_xO. reflexivity.
  - rewrite (shr_1_m _ Hm). reflexivity.
Qed.

Lemma shr_record_of_loc_m (m : Z) (l : location) :
  shr_m (shr_record_of_loc m l) = m.
Proof. destruct l as [|[]]; reflexivity. Qed.

(** Rounding to the format keeps a positive mantissa positive. *)
Lemma shr_fexp_pos (m e : Z) (l : location) :
  0 < m -> -1074 <= e ->
  0 < shr_m (fst (shr_fexp prec emax m e l))
  /\ -1074 <= snd (shr_fexp prec emax m e l).
Proof.
  intros Hm He. unfold shr_fexp, shr.
  destruct m as [|q|q]; try lia. cbn [Zdigits2].
  pose proof (shr_record_of_loc_m (Zpos q) l) as Hrec.
  destruct (fexp prec emax (Zpos (digits2_pos q) + e) - e) as [|n|n] eqn:E;
    cbn [fst snd]; try (rewrite Hrec; lia).
  unfold fexp, SpecFloat.emin, prec, emax in E.
  split; [|lia].
  rewrite iter_shr_1_m by (rewrite Hrec; lia). rewrite Hrec.
  apply Z.div_str_pos.
  pose proof (digits2_pos_bounds q) as [Hlo _].
  pose proof (Z.pow_le_mono_r 2 (Zpos n) (Zpos (digits2_pos q) - 1)
                ltac:(lia) ltac:(lia)).
  pose proof (Z.pow_pos_nonneg 2 (Zpos n) ltac:(lia) ltac:(lia)).
  lia.
Qed.

Lemma round_nearest_even_pos (m : Z) (l : location) :
  0 < m -> 0 < round_nearest_even m l.
Proof.
  intros Hm. destruct l as [|[]]; cbn [round_nearest_even];
    try destruct (Z.even m); lia.
Qed.

Lemma binary_round_aux_pos (m e : Z) (l : location) :
  0 < m -> -1074 <= e ->
  positive_float (binary_round_aux prec emax false m e l) = true.
Proof.
  intros Hm He. unfold binary_round_aux.
  destruct (shr_fexp_pos m e l Hm He) as [H1 H2].
  destruct (shr_fexp prec emax m e l) as [mrs' e']. cbn [fst snd] in H1, H2.
  pose proof (round_nearest_even_pos (shr_m mrs') (loc_of_shr_record mrs') H1)
    as Hr.
  destruct (shr_fexp_pos _ e' loc_Exact Hr H2) as [H3 _].
  destruct (shr_fexp prec emax _ e' loc_Exact) as [mrs'' e''].
  cbn [fst] in H3.
  destruct (shr_m mrs'') as [|q|q]; try lia.
  destruct (_ <=? _); reflexivity.
Qed.

Lemma binary_round_aux_neg (m e : Z) (l : location) :
  positive_float (binary_round_aux prec emax true m e l) = false.
Proof.
  unfold binary_round_aux.
  destruct (shr_fexp prec emax m e l) as [mrs' e'].
  destruct (shr_fexp prec emax _ e' loc_Exact) as [mrs'' e''].
  destruct (shr_m mrs'') as [|q|q]; try reflexivity.
  destruct (_ <=? _); reflexivity.
Qed.

(** The sign of a normalized number is the sign of its mantissa. *)
Lemma binary_normalize_pos (d e : Z) :
  0 < d -> -1074 <= e ->
  positive_float (binary_normalize prec emax d e false) = true.
Proof.
  intros Hd He. destruct d as [|q|q]; try lia.
  unfold binary_normalize, binary_round.
  destruct (shl_align q e _) as [mz ez] eqn:E.
  apply binary_round_aux_pos; [lia|].
  unfold shl_align in E.
  destruct (fexp prec emax (Zpos (digits2_pos q) + e) - e) as [|n|n] eqn:En;
    injection E as _ <-; try lia.
  unfold fexp, SpecFloat.emin, prec, emax. lia.
Qed.

Lemma binary_normalize_nonpos (d e : Z) :
  d <= 0 -> positive_float (binary_normalize prec emax d e false) = false.
Proof.
  intros Hd. destruct d as [|q|q]; try lia; [reflexivity|].
  unfold binary_normalize, binary_round.
  destruct (shl_align q e _) as [mz ez]. apply binary_round_aux_neg.
Qed.

Lemma binary_normalize_sign (d e : Z) :
  positive_float (binary_normalize prec emax d e false) = true -> 0 < d.
Proof.
  intros H. destruct (Z_lt_le_dec 0 d) as [Hd|Hd]; [exact Hd|].
  rewrite (binary_normalize_nonpos d e Hd) in H. discriminate.
Qed.

(** A difference is positive when its first operand is the greater. *)
Lemma SFsub_pos (x y : spec_float) :
  SpecFloat.valid_binary prec emax x = true ->
  SpecFloat.valid_binary prec emax y = true ->
  SFltb x y = true ->
  positive_float (SFsub prec emax y x) = true.
Proof.
  intros Hx Hy Hlt. unfold SFltb in Hlt.
  destruct (SFcompare x y) as [[]|] eqn:Hc; try discriminate. clear Hlt.
  destruct x as [sx|sx| |sx mx ex], y as [sy|sy| |sy my ey];
    try discriminate;
    try (destruct sx; try destruct sy; simpl in Hc |- *;
         try discriminate; reflexivity);
    try (destruct sy; try destruct sx; simpl in Hc |- *;
         try discriminate; reflexivity).
  cbn [SpecFloat.valid_binary] in Hx, Hy. cbn [SFsub].
  apply binary_normalize_pos.
  - now apply aligned_difference_pos.
  - destruct (bounded_canonical mx ex Hx) as (_ & ? & _).
    destruct (bounded_canonical my ey Hy) as (_ & ? & _). lia.
Qed.

(** Of the two differences of two numbers at most one is positive. *)
Lemma SFsub_asym (x y : spec_float) :
  positive_float (SFsub prec emax y x) = true ->
  positive_float (SFsub prec emax x y) = false.
Proof.
  destruct x as [sx|sx| |sx mx ex], y as [sy|sy| |sy my ey];
    try (try destruct sx; try destruct sy; simpl;
         intros; try discriminate; reflexivity).
  cbn [SFsub]. intros H. apply binary_normalize_sign in H.
  apply binary_normalize_nonpos. rewrite (Z.min_comm ex ey). lia.
Qed.

End SpecFloatOrder.

Section FloatOrder.
Local Open Scope float_scope.

Lemma float_sub_pos (a b : float) : (a <? b) = true -> (0 <? b - a) = true.
Proof.
  rewrite !ltb_spec, sub_spec. intros Hlt.
  apply SFsub_pos; [apply Prim2SF_valid|apply Prim2SF_valid|exact Hlt].
Qed.

Lemma float_sub_asym (a b : float) :
  (0 <? b - a) = true -> (0 <? a - b) = false.
Proof. rewrite !ltb_spec, !sub_spec. apply SFsub_asym. Qed.

End FloatOrder.

(** On numbers that are not NaN the order is total. *)
Lemma SFcompare_antisym (x y : spec_float) :
  SFcompare y x = option_map CompOpp (SFcompare x y).
Proof.
  destruct x as [sx|sx| |sx mx ex], y as [sy|sy| |sy my ey];
    try (try destruct sx; try destruct sy; reflexivity).
  pose proof (Pos.compare_cont_antisym mx my Eq) as Hm. simpl in Hm.
  destruct sx, sy; simpl; try reflexivity;
    rewrite (Z.compare_antisym ex ey);
    destruct (ex ?= ey); simpl; try reflexivity;
    rewrite <- Hm, ?CompOpp_involutive; reflexivity.
Qed.

Lemma Prim2SF_not_nan (a : float) :
  PrimFloat.is_nan a = false -> Prim2SF a <> S754_nan.
Proof.
  intros Hn. unfold Prim2SF. rewrite Hn.
  destruct (is_zero a); [discriminate|].
  destruct (is_infinity a); [discriminate|].
  destruct (Z.frexp a) as [r e].
  destruct (shr_fexp _ _ _ _ _) as [mrs e'].
  destruct (shr_m mrs); discriminate.
Qed.

Lemma SFcompare_defined (x y : spec_float) :
  x <> S754_nan -> y <> S754_nan -> exists c, SFcompare x y = Some c.
Proof.
  intros Hx Hy.
  destruct x as [sx|sx| |sx mx ex], y as [sy|sy| |sy my ey];
    try contradiction; simpl; eexists; reflexivity.
Qed.

Lemma float_not_lt_ge (a b : float) :
  PrimFloat.is_nan a = false -> PrimFloat.is_nan b = false ->
  (a <? b)%float = false -> (b <=? a)%float = true.
Proof.
  intros Ha Hb. rewrite ltb_spec, leb_spec. unfold SFltb, SFleb.
  rewrite (SFcompare_antisym (Prim2SF a) (Prim2SF b)).
  destruct (SFcompare_defined _ _ (Prim2SF_not_nan a Ha) (Prim2SF_not_nan b Hb))
    as [c ->].
  destruct c; simpl; congruence.
Qed.

(** The difference of equal numbers is not positive. *)
Lemma SFsub_eq (x y : spec_float) :
  SFcompare x y = Some Eq -> positive_float (SFsub prec emax y x) = false.
Proof.
  destruct x as [sx|sx| |sx mx ex], y as [sy|sy| |sy my ey];
    try (try destruct sx; try destruct sy; simpl;
         intros; try discriminate; reflexivity).
  intros Hc. cbn [SFsub]. apply binary_normalize_nonpos.
  simpl in Hc.
  assert (Heq : sx = sy /\ ex = ey /\ mx = my).
  { destruct sx, sy; try discriminate;
      destruct (ex ?= ey) eqn:E; try discriminate;
      apply Z.compare_eq in E; injection Hc as Hc;
      fold (Pos.compare mx my) in Hc.
    - apply (f_equal CompOpp) in Hc. rewrite CompOpp_involutive in Hc.
      simpl in Hc. apply Pos.compare_eq in Hc. now repeat split.
    - apply Pos.compare_eq in Hc. now repeat split. }
  destruct Heq as (-> & -> & ->). lia.
Qed.

(** A difference with a NaN operand is not positive. *)
Lemma SFsub_nan (x y : spec_float) :
  SFcompare x y = None -> positive_float (SFsub prec emax y x) = false.
Proof.
  destruct x as [sx|sx| |sx mx ex], y as [sy|sy| |sy my ey];
    try discriminate; try reflexivity; destruct sx; discriminate.
Qed.

(** The sign of a difference is the order of its operands. *)
Lemma SFsub_sign (x y : spec_float) :
  SpecFloat.valid_binary prec emax x = true ->
  SpecFloat.valid_binary prec emax y = true ->
  positive_float (SFsub prec emax y x) = SFltb x y.
Proof.
  intros Hx Hy. destruct (SFltb x y) eqn:Hlt; [now apply SFsub_pos|].
  unfold SFltb in Hlt.
  destruct (SFcompare x y) as [[| |]|] eqn:Hc; try discriminate.
  - now apply SFsub_eq.
  - destruct (positive_float (SFsub prec emax y x)) eqn:Hp; [|reflexivity].
    apply SFsub_asym in Hp.
    rewrite SFsub_pos in Hp; [discriminate|exact Hy|exact Hx|].
    unfold SFltb. now rewrite (SFcompare_antisym x y), Hc.
  - now apply SFsub_nan.
Qed.

Lemma float_sub_sign (a b : float) : (0 <? b - a)%float = (a <? b)%float.
Proof.
  rewrite !ltb_spec, sub_spec. apply SFsub_sign; apply Prim2SF_valid.
Qed.

Lemma float_lt_asym (a b : float) :
  (a <? b)%float = true -> (b <? a)%float = false.
Proof.
  rewrite !ltb_spec. unfold SFltb.
  rewrite (SFcompare_antisym (Prim2SF a) (Prim2SF b)).
  destruct (SFcompare (Prim2SF a) (Prim2SF b)) as [[| |]|];
    try discriminate; reflexivity.
Qed.

(* ================================================================= *)
(** ** Top-k selection *)

Section Chains.
Context {A : Type} (R : A -> A -> Prop).

Lemma chain_cons (x y : A) (l : list A) :
  chain R (x :: y :: l) <-> R x y /\ chain R (y :: l).
Proof. reflexivity. Qed.

Lemma chain_tail (x : A) (l : list A) : chain R (x :: l) -> chain R l.
Proof. destruct l as [|y l]; [easy|]. now intros [_ H]. Qed.

Lemma chain_firstn (n : nat) : forall l, chain R l -> chain R (firstn n l).
Proof.
  induction n as [|n IH]; intros l Hl; [exact I|].
  destruct l as [|x l]; [exact I|].
  specialize (IH l (chain_tail x l Hl)).
  destruct l as [|y l]; [now destruct n|].
  destruct n as [|n]; [exact I|].
  change (chain R (x :: y :: firstn n l)).
  change (chain R (y :: firstn n l)) in IH.
  destruct Hl as [Hxy _]. now split.
Qed.

Lemma chain_weaken (R' : A -> A -> Prop) (l : list A) :
  (forall x y, In x l -> In y l -> R x y -> R' x y) ->
  chain R l -> chain R' l.
Proof.
  induction l as [|x l IH]; intros Himp Hl; [exact I|].
  destruct l as [|y l]; [exact I|].
  destruct Hl as [Hxy Hl]. split.
  - apply Himp; simpl; auto.
  - apply IH; [|exact Hl]. intros a b Ha Hb. apply Himp; now right.
Qed.

End Chains.

Section SortBySimilarity.
Context {T : Type}.

Abbreviation scored := (T * float)%type.

(** The comparator [b.similarity - a.similarity] is positive exactly when
    the similarity of [b] is the greater. *)
Lemma wantsAfter_lt (a b : scored) :
  wantsAfter a b = (snd a <? snd b)%float.
Proof. apply float_sub_sign. Qed.

Lemma insertSorted_length (x : scored) (l : list scored) :
  List.length (insertSorted x l) = S (List.length l).
Proof.
  induction l as [|y l IH]; [reflexivity|]. cbn [insertSorted].
  destruct (wantsAfter x y); cbn [List.length]; [now rewrite IH|reflexivity].
Qed.

Lemma insertSorted_In (x z : scored) (l : list scored) :
  In z (insertSorted x l) <-> z = x \/ In z l.
Proof.
  induction l as [|y l IH]; cbn [insertSorted In]; [intuition|].
  destruct (wantsAfter x y); cbn [In]; [rewrite IH|]; intuition.
Qed.

Lemma insertSorted_chain (x : scored) (l : list scored) :
  chain descends l -> chain descends (insertSorted x l).
Proof.
  induction l as [|y l IH]; intros Hl; [exact I|]. cbn [insertSorted].
  destruct (wantsAfter x y) eqn:E; rewrite wantsAfter_lt in E.
  - specialize (IH (chain_tail _ y l Hl)).
    assert (Hyx : descends y x) by (now apply float_lt_asym).
    destruct l as [|z l]; [now split|]. cbn [insertSorted] in IH |- *.
    destruct (wantsAfter x z); [|now split].
    destruct Hl as [Hyz _]. now split.
  - now split.
Qed.

Lemma sortBySimilarity_length (l : list scored) :
  List.length (sortBySimilarity l) = List.length l.
Proof.
  induction l as [|x l IH]; [reflexivity|].
  cbn [sortBySimilarity fold_right List.length].
  fold (sortBySimilarity l). now rewrite insertSorted_length, IH.
Qed.

Lemma sortBySimilarity_In (z : scored) (l : list scored) :
  In z (sortBySimilarity l) <-> In z l.
Proof.
  induction l as [|x l IH]; [simpl; tauto|].
  cbn [sortBySimilarity fold_right In]. fold (sortBySimilarity l).
  rewrite insertSorted_In, IH. intuition.
Qed.

Lemma sortBySimilarity_chain (l : list scored) :
  chain descends (sortBySimilarity l).
Proof.
  induction l as [|x l IH]; [exact I|].
  cbn [sortBySimilarity fold_right]. now apply insertSorted_chain.
Qed.

(** With a non-negative [k], [slice(0, k)] keeps the first [k] elements. *)
Lemma slice0_firstn {A : Type} (l : list A) (k : Z) :
  (0 <= k)%Z -> slice0 l k = firstn (Z.to_nat k) l.
Proof.
  intros Hk. unfold slice0.
  destruct (k <? 0)%Z eqn:E; [apply Z.ltb_lt in E; lia|].
  destruct (Z_le_gt_dec k (Z.of_nat (List.length l))) as [Hle|Hgt].
  - now rewrite Z.min_l.
  - rewrite Z.min_r by lia. rewrite Nat2Z.id.
    rewrite !firstn_all2; [reflexivity|lia|lia].
Qed.

Lemma In_firstn {A : Type} (n : nat) (l : list A) (x : A) :
  In x (firstn n l) -> In x l.
Proof.
  intros Hin. rewrite <- (firstn_skipn n l). apply in_or_app. now left.
Qed.

End SortBySimilarity.

Section TopK.
Context {T : Type} (embedding : T -> option (list float)).

Lemma score_ok (queryVector : list float) (items : list T) :
  (forall item, In item items ->
     exists e, embedding item = Some e
               /\ List.length e = List.length queryVector) ->
  exists out, score embedding queryVector items = Ok out
              /\ scoredFrom embedding queryVector items out.
Proof.
  induction items as [|item items IH]; intros Hdim.
  - exists []. split; [reflexivity|]. split; [reflexivity|]. intros ? ? [].
  - destruct (Hdim item (or_introl eq_refl)) as (e & He & Hlen).
    destruct (cosineSimilarity_defined queryVector e (eq_sym Hlen)) as [s Hs].
    destruct IH as (out & Hout & Hmap & Hin).
    { intros i Hi. apply Hdim. now right. }
    exists ((item, s) :: out). simpl. rewrite He, Hs, Hout.
    split; [reflexivity|]. split; [simpl; now rewrite Hmap|].
    intros i s' [[= <- <-]|Hi]; [now exists e|now apply Hin].
Qed.

Lemma cosineSimilarity_throw (vecA vecB : list float) (m : string) :
  cosineSimilarity vecA vecB = Throw m ->
  m = "Vectors must have the same dimension"%string.
Proof.
  unfold cosineSimilarity. destruct (negb _); [now intros [= <-]|].
  destruct (_ =? 0)%nat; [discriminate|].
  destruct (accumulate _ _ _ _ _) as [[d na] nb].
  destruct (_ || _); discriminate.
Qed.

Lemma score_mismatch (queryVector : list float) (items : list T) :
  Forall (fun item => hasEmbedding embedding item = true) items ->
  (exists item e, In item items /\ embedding item = Some e
                  /\ List.length e <> List.length queryVector) ->
  score embedding queryVector items
  = Throw "Vectors must have the same dimension".
Proof.
  induction items as [|item items IH]; intros Hhas (bad & e & Hin & He & Hlen).
  - destruct Hin.
  - inversion Hhas as [|? ? Hitem Hrest]; subst. cbn [score].
    unfold hasEmbedding in Hitem.
    destruct (embedding item) as [e'|] eqn:Ee; [|discriminate].
    destruct (cosineSimilarity queryVector e') as [s|m] eqn:Es.
    + destruct Hin as [<-|Hin].
      * rewrite He in Ee. injection Ee as <-.
        rewrite cosineSimilarity_mismatch in Es by congruence. discriminate.
      * rewrite IH; [reflexivity|exact Hrest|now exists bad, e].
    + now rewrite (cosineSimilarity_throw _ _ _ Es).
Qed.

Lemma filter_hasEmbedding (items : list T) :
  Forall (fun item => hasEmbedding embedding item = true)
         (List.filter (hasEmbedding embedding) items).
Proof.
  apply Forall_forall. intros item Hin. now apply filter_In in Hin.
Qed.

End TopK.

(** C9, the claim as stated fails: when an item that is kept has an
    embedding of another length than the query, no list is returned, the
    dimension error of [cosineSimilarity] ends the call; and for a negative
    [k], [slice(0, k)] drops the last [-k] elements, so that three of four
    items are returned for [k = -1]. *)
Lemma findTopKSimilar_throws_or_overshoots :
  findTopKSimilar (fun e : list float => Some e) [1; 0]%float
    [[1; 0; 0]%float] 5
  = Throw "Vectors must have the same dimension"
  /\ exists out,
       findTopKSimilar (fun e : list float => Some e) [1; 0]%float
         [[0; 1]; [1; 1]; [1; 0]; [2; 2]]%float (-1) = Ok out
       /\ List.length out = 3%nat.
Proof.
  split; [reflexivity|]. eexists. split; [vm_compute; reflexivity|reflexivity].
Qed.

(** C9, amended: for [k >= 0], [findTopKSimilar] discards the items whose
    embedding is missing or empty.  If the embedding of every item kept has
    the length of the query vector, it returns exactly
    [min k (number of kept items)] pairs of a kept item and the value of
    [cosineSimilarity] on the query vector and its embedding, and, when no
    similarity is NaN, in descending order: each similarity is at least the
    next one.  If some kept item has an embedding of another length, the
    call fails with the dimension error. *)
Theorem findTopKSimilar_spec {T : Type} (embedding : T -> option (list float))
    (queryVector : list float) (items : list T) (k : Z) :
  (0 <= k)%Z ->
  let kept := List.filter (hasEmbedding embedding) items in
  ((forall item e, In item kept -> embedding item = Some e ->
                   List.length e = List.length queryVector) ->
   exists out,
     findTopKSimilar embedding queryVector items k = Ok out
     /\ Z.of_nat (List.length out) = Z.min k (Z.of_nat (List.length kept))
     /\ (forall item s, In (item, s) out ->
           In item kept
           /\ exists e, embedding item = Some e
                        /\ cosineSimilarity queryVector e = Ok s)
     /\ ((forall item e s, In item kept -> embedding item = Some e ->
            cosineSimilarity queryVector e = Ok s ->
            PrimFloat.is_nan s = false) ->
         chain atLeast out))
  /\ ((exists item e, In item kept /\ embedding item = Some e
                      /\ List.length e <> List.length queryVector) ->
      findTopKSimilar embedding queryVector items k
      = Throw "Vectors must have the same dimension").
Proof.
  intros Hk kept. split.
  - intros Hdim.
    destruct (score_ok embedding queryVector kept) as (sc & Hsc & Hmap & Hval).
    { intros item Hin.
      pose proof (proj2 (proj1 (filter_In _ _ _) Hin)) as Hhas.
      unfold hasEmbedding in Hhas.
      destruct (embedding item) as [e|] eqn:Ee; [|discriminate].
      exists e. split; [reflexivity|]. now apply (Hdim item e). }
    unfold findTopKSimilar. fold kept. rewrite Hsc.
    rewrite (slice0_firstn _ k Hk).
    set (out := firstn (Z.to_nat k) (sortBySimilarity sc)).
    assert (Hsub : forall p, In p out -> In p sc).
    { intros p Hp. apply In_firstn in Hp.
      exact (proj1 (sortBySimilarity_In p sc) Hp). }
    assert (Hkept : forall item s, In (item, s) out ->
              In item kept
              /\ exists e, embedding item = Some e
                           /\ cosineSimilarity queryVector e = Ok s).
    { intros item s Hin. apply Hsub in Hin. split; [|now apply Hval].
      rewrite <- Hmap. now apply (in_map fst) in Hin. }
    exists out. split; [reflexivity|]. split; [|split].
    + unfold out. rewrite length_firstn, sortBySimilarity_length.
      rewrite <- Hmap, length_map. lia.
    + exact Hkept.
    + intros Hnan.
      apply (chain_weaken descends atLeast out);
        [|apply chain_firstn, sortBySimilarity_chain].
      intros [i s] [j t] Hi Hj Hd. unfold atLeast, descends in *. simpl in *.
      destruct (Hkept i s Hi) as (Hik & ei & Hei & Hsi).
      destruct (Hkept j t Hj) as (Hjk & ej & Hej & Htj).
      apply float_not_lt_ge;
        [exact (Hnan i ei s Hik Hei Hsi)|exact (Hnan j ej t Hjk Hej Htj)
        |exact Hd].
  - intros Hbad. unfold findTopKSimilar. fold kept.
    now rewrite (score_mismatch embedding queryVector kept
                   (filter_hasEmbedding embedding items) Hbad).
Qed.

Lemma findTopKSimilar_spec_witness :
  (0 <= 2)%Z
  /\ exists out,
       findTopKSimilar (fun e : list float => Some e) [1; 0]%float
         [[0; 1]; [1; 1]; []; [1; 0]; [2; 2]]%float 2 = Ok out
       /\ Z.of_nat (List.length out) = 2%Z
       /\ chain atLeast out.
Proof.
  split; [lia|].
  destruct (proj1 (findTopKSimilar_spec (fun e : list float => Some e)
                     [1; 0]%float
                     [[0; 1]; [1; 1]; []; [1; 0]; [2; 2]]%float 2
                     ltac:(lia)))
    as (out & Hout & Hlen & _ & Hdesc).
  - intros item e Hin [= ->].
    simpl in Hin. intuition (subst; reflexivity).
  - exists out. split; [exact Hout|]. split; [exact Hlen|].
    apply Hdesc. intros item e s Hin [= ->] Hs.
    simpl in Hin.
    destruct Hin as [<-|[<-|[<-|[<-|[]]]]];
      vm_compute in Hs; injection Hs as <-; reflexivity.
Defined.

(** The call of the witness, evaluated. *)
Example findTopKSimilar_demo :
  findTopKSimilar (fun e : list float => Some e) [1; 0]%float
    [[0; 1]; [1; 1]; []; [1; 0]; [2; 2]]%float 2
  = Ok [([1; 0]%float, 1%float);
        ([1; 1]%float, 0x1.6a09e667f3bccp-1%float)].
Proof. vm_compute. reflexivity. Qed.

(* ================================================================= *)
(** * Further properties of the text utilities *)

(** ** What cleaning keeps *)

Section Visible.

Lemma isWhitespace_CR : isWhitespace CR = true.
Proof. reflexivity. Qed.

Lemma isWhitespace_LF : isWhitespace LF = true.
Proof. reflexivity. Qed.

Lemma isWhitespace_SP : isWhitespace SP = true.
Proof. reflexivity. Qed.

Lemma isSpaceOrTab_whitespace (c : char) :
  isSpaceOrTab c = true -> isWhitespace c = true.
Proof.
  unfold isSpaceOrTab. rewrite orb_true_iff, !N.eqb_eq.
  intros [-> | ->]; reflexivity.
Qed.

Lemma visible_cons_whitespace (c : char) (s : jsstring) :
  isWhitespace c = true -> visible (c :: s) = visible s.
Proof. intros E. unfold visible. cbn [filter]. now rewrite E. Qed.

Lemma visible_cons_other (c : char) (s : jsstring) :
  isWhitespace c = false -> visible (c :: s) = c :: visible s.
Proof. intros E. unfold visible. cbn [filter]. now rewrite E. Qed.

Lemma visible_replaceCRLF_bounded (n : nat) : forall s,
  (List.length s <= n)%nat -> visible (replaceCRLF s) = visible s.
Proof.
  induction n as [|n IH]; intros s Hn.
  - destruct s; [reflexivity|simpl in Hn; lia].
  - destruct s as [|c [|d r]]; [reflexivity|reflexivity|].
    change (replaceCRLF (c :: d :: r))
      with (if ((c =? CR) && (d =? LF))%N then LF :: replaceCRLF r
            else c :: replaceCRLF (d :: r)).
    simpl in Hn.
    destruct ((c =? CR) && (d =? LF))%N eqn:E.
    + apply andb_true_iff in E as [Ec Ed].
      apply N.eqb_eq in Ec, Ed. subst c d.
      rewrite (visible_cons_whitespace LF (replaceCRLF r) isWhitespace_LF).
      rewrite (visible_cons_whitespace CR (LF :: r) isWhitespace_CR).
      rewrite (visible_cons_whitespace LF r isWhitespace_LF).
      apply IH. lia.
    + pose proof (IH (d :: r) ltac:(simpl; lia)) as Hr.
      destruct (isWhitespace c) eqn:Ec.
      * rewrite (visible_cons_whitespace c (replaceCRLF (d :: r)) Ec).
        now rewrite (visible_cons_whitespace c (d :: r) Ec).
      * rewrite (visible_cons_other c (replaceCRLF (d :: r)) Ec).
        rewrite (visible_cons_other c (d :: r) Ec). now rewrite Hr.
Qed.

Lemma visible_replaceCRLF (s : jsstring) :
  visible (replaceCRLF s) = visible s.
Proof. now apply (visible_replaceCRLF_bounded (List.length s)). Qed.

Lemma visible_replaceCR (s : jsstring) : visible (replaceCR s) = visible s.
Proof.
  induction s as [|c r IH]; [reflexivity|].
  unfold replaceCR. cbn [List.map]. fold (replaceCR r).
  destruct (c =? CR)%N eqn:E.
  - apply N.eqb_eq in E. subst c.
    rewrite (visible_cons_whitespace _ _ isWhitespace_LF).
    now rewrite (visible_cons_whitespace _ _ isWhitespace_CR).
  - unfold visible in *. cbn [filter]. now rewrite IH.
Qed.

Lemma visible_collapseSpaces (s : jsstring) : forall b,
  visible (collapseSpaces b s) = visible s.
Proof.
  induction s as [|c r IH]; intros b; [reflexivity|].
  cbn [collapseSpaces]. destruct (isSpaceOrTab c) eqn:E.
  - rewrite (visible_cons_whitespace c r (isSpaceOrTab_whitespace c E)).
    destruct b; [apply IH|].
    rewrite (visible_cons_whitespace _ _ isWhitespace_SP). apply IH.
  - unfold visible in *. cbn [filter]. now rewrite IH.
Qed.

Lemma visible_squeezeNewlines (s : jsstring) : forall n,
  visible (squeezeNewlines n s) = visible s.
Proof.
  induction s as [|c r IH]; intros n; [reflexivity|].
  cbn [squeezeNewlines]. destruct (c =? LF)%N eqn:E.
  - apply N.eqb_eq in E. subst c.
    rewrite (visible_cons_whitespace LF r isWhitespace_LF).
    destruct (n <? 2)%nat; [|apply IH].
    rewrite (visible_cons_whitespace _ _ isWhitespace_LF). apply IH.
  - unfold visible in *. cbn [filter]. now rewrite IH.
Qed.

Lemma visible_trimStart (s : jsstring) : visible (trimStart s) = visible s.
Proof.
  induction s as [|c r IH]; [reflexivity|]. cbn [trimStart].
  destruct (isWhitespace c) eqn:E; [|reflexivity].
  now rewrite (visible_cons_whitespace c r E).
Qed.

Lemma visible_blank (s : jsstring) :
  forallb isWhitespace s = true -> visible s = [].
Proof.
  induction s as [|c r IH]; [reflexivity|]. cbn [forallb].
  rewrite andb_true_iff. intros [Ec Er].
  rewrite (visible_cons_whitespace c r Ec). now apply IH.
Qed.

Lemma visible_trimEnd (s : jsstring) : visible (trimEnd s) = visible s.
Proof.
  induction s as [|c r IH]; [reflexivity|]. cbn [trimEnd].
  destruct (trimEnd r) as [|d r'] eqn:E.
  - pose proof (proj1 (trimEnd_nil r) E) as Hr.
    destruct (isWhitespace c) eqn:Ec.
    + rewrite (visible_cons_whitespace c r Ec). now rewrite visible_blank.
    + rewrite (visible_cons_other c [] Ec), (visible_cons_other c r Ec).
      now rewrite (visible_blank r Hr).
  - destruct (isWhitespace c) eqn:Ec.
    + rewrite (visible_cons_whitespace c (d :: r') Ec).
      rewrite (visible_cons_whitespace c r Ec). exact IH.
    + rewrite (visible_cons_other c (d :: r') Ec).
      rewrite (visible_cons_other c r Ec). now rewrite IH.
Qed.

End Visible.

Section Lengths.

Lemma length_replaceCRLF_bounded (n : nat) : forall s,
  (List.length s <= n)%nat ->
  (List.length (replaceCRLF s) <= List.length s)%nat.
Proof.
  induction n as [|n IH]; intros s Hn.
  - destruct s; [simpl; lia|simpl in Hn; lia].
  - destruct s as [|c [|d r]]; [simpl; lia|simpl; lia|].
    change (replaceCRLF (c :: d :: r))
      with (if ((c =? CR) && (d =? LF))%N then LF :: replaceCRLF r
            else c :: replaceCRLF (d :: r)).
    simpl in Hn.
    destruct ((c =? CR) && (d =? LF))%N.
    + pose proof (IH r ltac:(lia)). simpl. lia.
    + pose proof (IH (d :: r) ltac:(simpl; lia)) as Hr.
      cbn [List.length] in *. lia.
Qed.

Lemma length_collapseSpaces (s : jsstring) : forall b,
  (List.length (collapseSpaces b s) <= List.length s)%nat.
Proof.
  induction s as [|c r IH]; intros b; [simpl; lia|]. cbn [collapseSpaces].
  destruct (isSpaceOrTab c); [destruct b|];
    cbn [List.length];
    [pose proof (IH true)|pose proof (IH true)|pose proof (IH false)]; lia.
Qed.

Lemma length_squeezeNewlines (s : jsstring) : forall n,
  (List.length (squeezeNewlines n s) <= List.length s)%nat.
Proof.
  induction s as [|c r IH]; intros n; [simpl; lia|]. cbn [squeezeNewlines].
  destruct (c =? LF)%N; [destruct (n <? 2)%nat|];
    cbn [List.length];
    [pose proof (IH (S n))|pose proof (IH n)|pose proof (IH O)]; lia.
Qed.

Lemma visible_nil (s : jsstring) :
  visible s = [] -> forallb isWhitespace s = true.
Proof.
  induction s as [|c r IH]; [reflexivity|]. cbn [forallb].
  destruct (isWhitespace c) eqn:E.
  - rewrite (visible_cons_whitespace c r E). exact IH.
  - rewrite (visible_cons_other c r E). discriminate.
Qed.

End Lengths.

(** X1: cleaning changes white space only: the code units of the cleaned
    text that are not white space are those of the text, in the same
    order; so the cleaned text is empty exactly when the text holds nothing
    but white space. *)
Theorem cleanText_keeps_visible (s : jsstring) :
  visible (cleanText s) = visible s
  /\ (cleanText s = [] <-> forallb isWhitespace s = true).
Proof.
  assert (Hv : visible (cleanText s) = visible s).
  { unfold cleanText, trim.
    rewrite visible_trimEnd, visible_trimStart, visible_squeezeNewlines.
    now rewrite visible_collapseSpaces, visible_replaceCR,
      visible_replaceCRLF. }
  split; [exact Hv|]. split; intros Hs.
  - apply visible_nil. rewrite <- Hv. now rewrite Hs.
  - rewrite (visible_blank s Hs) in Hv.
    apply visible_nil in Hv. apply trim_nil in Hv.
    unfold cleanText in *. now rewrite trim_idem in Hv.
Qed.

(** X2: cleaning never makes a text longer. *)
Theorem cleanText_never_longer (s : jsstring) :
  len (cleanText s) <= len s.
Proof.
  unfold cleanText.
  pose proof (len_trim (squeezeNewlines 0
                (collapseSpaces false (replaceCR (replaceCRLF s))))) as H1.
  pose proof (length_squeezeNewlines
                (collapseSpaces false (replaceCR (replaceCRLF s))) 0) as H2.
  pose proof (length_collapseSpaces (replaceCR (replaceCRLF s)) false) as H3.
  pose proof (length_replaceCRLF_bounded (List.length s) s (le_n _)) as H4.
  unfold replaceCR in H3. rewrite length_map in H3.
  fold (replaceCR (replaceCRLF s)) in H3.
  pose proof (Nat.le_trans _ _ _ (Nat.le_trans _ _ _ H2 H3) H4) as H5.
  apply Nat2Z.inj_le in H5. unfold len in *.
  exact (Z.le_trans _ _ _ H1 H5).
Qed.

(** X3: the shape of cleaned text: it holds no carriage return and no tab,
    no two adjacent spaces and no three adjacent newlines, and it neither
    starts nor ends with white space. *)
Theorem cleanText_normal_form (s : jsstring) :
  ~ In CR (cleanText s)
  /\ ~ In TAB (cleanText s)
  /\ (forall pre post, cleanText s <> pre ++ SP :: SP :: post)
  /\ (forall pre post, cleanText s <> pre ++ LF :: LF :: LF :: post)
  /\ trim (cleanText s) = cleanText s.
Proof.
  destruct (cleaned_cleanText s) as (Hcr & Hsp & Hnl).
  split; [|split; [|split; [|split]]].
  - intros Hin. unfold noCR in Hcr.
    pose proof (proj1 (forallb_forall _ _) Hcr CR Hin) as E. discriminate.
  - intros Hin. apply in_split in Hin as (pre & post & E).
    rewrite E in Hsp. apply spacesOK_suffix in Hsp. discriminate.
  - intros pre post E. rewrite E in Hsp.
    apply spacesOK_suffix in Hsp. discriminate.
  - intros pre post E. rewrite E in Hnl.
    apply newlinesOK_suffix in Hnl. discriminate.
  - unfold cleanText. apply trim_idem.
Qed.

(** ** Truncation *)

Section Truncation.

Lemma substring_prefix (s : jsstring) (m : Z) :
  substring s 0 m = firstn (Z.to_nat m) s.
Proof.
  unfold substring, clamp. pose proof (len_nonneg s) as HL.
  replace (Z.min (Z.max 0 (Z.min 0 (len s))) (Z.max 0 (Z.min m (len s))))
    with 0 by lia.
  replace (Z.max (Z.max 0 (Z.min 0 (len s))) (Z.max 0 (Z.min m (len s))) - 0)
    with (Z.max 0 (Z.min m (len s))) by lia.
  change (Z.to_nat 0) with O. cbn [skipn]. unfold len in *.
  destruct (Z_le_gt_dec m (Z.of_nat (List.length s))) as [Hm|Hm].
  - f_equal. lia.
  - rewrite !firstn_all2 by lia. reflexivity.
Qed.

Lemma matchAt_single (s : jsstring) (c : char) (k : nat) :
  matchAt s [c] k = true <-> nth_error s k = Some c.
Proof.
  unfold matchAt. revert s. induction k as [|k IH]; intros s.
  - destruct s as [|d r]; cbn; [split; discriminate|].
    replace (startsWith r []) with true by now destruct r.
    rewrite andb_true_r, N.eqb_eq. split; [now intros ->|now intros [= ->]].
  - destruct s as [|d r]; cbn [skipn nth_error]; [|apply IH].
    cbn. split; discriminate.
Qed.

Lemma lastIndexFrom_max (s pat : jsstring) (k : nat) : forall j,
  (j <= k)%nat -> matchAt s pat j = true ->
  Z.of_nat j <= lastIndexFrom s pat k.
Proof.
  induction k as [|k IH]; intros j Hj Hm; cbn [lastIndexFrom].
  - replace j with O in Hm by lia. rewrite Hm. lia.
  - destruct (matchAt s pat (S k)) eqn:E; [lia|].
    apply IH; [|exact Hm].
    destruct (Nat.eq_dec j (S k)) as [->|]; [congruence|lia].
Qed.

Lemma lastIndexFrom_last (s pat : jsstring) (k : nat) : forall j,
  (j <= k)%nat -> lastIndexFrom s pat k < Z.of_nat j ->
  matchAt s pat j = false.
Proof.
  intros j Hj Hlt. destruct (matchAt s pat j) eqn:E; [|reflexivity].
  pose proof (lastIndexFrom_max s pat k j Hj E). lia.
Qed.

Lemma nth_error_firstn_lt {A : Type} (l : list A) (n i : nat) :
  (i < n)%nat -> nth_error (firstn n l) i = nth_error l i.
Proof.
  revert l i. induction n as [|n IH]; intros l i Hi; [lia|].
  destruct l as [|x l]; [now destruct i|].
  destruct i as [|i]; [reflexivity|]. cbn. apply IH. lia.
Qed.

Lemma nth_error_split_at {A : Type} (l : list A) (i : nat) (x : A) :
  nth_error l i = Some x -> l = firstn i l ++ x :: skipn (S i) l.
Proof.
  revert l. induction i as [|i IH]; intros [|y l] Hx; try discriminate.
  - now injection Hx as ->.
  - cbn [firstn skipn app]. f_equal. now apply IH.
Qed.

End Truncation.

(** X4: [truncateText] returns a text of at most [maxLength] characters
    as it is; a longer text becomes one of its prefixes of at most
    [maxLength] characters followed by three full stops, so the result can
    be three characters longer than [maxLength]. *)
Theorem truncateText_bounded (text : jsstring) (maxLength : Z) :
  (len text <= maxLength -> truncateText text maxLength = text)
  /\ (maxLength < len text ->
      exists kept rest,
        text = kept ++ rest
        /\ len kept <= Z.max 0 maxLength
        /\ truncateText text maxLength = kept ++ str "...")
  /\ len (truncateText text maxLength) <= Z.max 0 maxLength + 3.
Proof.
  assert (Hcut : maxLength < len text ->
            exists kept rest,
              text = kept ++ rest
              /\ len kept <= Z.max 0 maxLength
              /\ truncateText text maxLength = kept ++ str "...").
  { intros Hlong. unfold truncateText.
    destruct (len text <=? maxLength) eqn:E;
      [apply Z.leb_le in E; lia|].
    rewrite !substring_prefix.
    set (truncated := firstn (Z.to_nat maxLength) text).
    assert (Ht : len truncated <= Z.max 0 maxLength).
    { unfold truncated, len. rewrite length_firstn. lia. }
    destruct (_ >? 0) eqn:Es.
    - set (lastSpace := lastIndexOf truncated [SP] (len truncated)) in *.
      exists (firstn (Z.to_nat lastSpace) truncated),
        (skipn (Z.to_nat lastSpace) truncated
         ++ skipn (Z.to_nat maxLength) text).
      split; [|split; [|reflexivity]].
      + rewrite app_assoc, firstn_skipn. unfold truncated.
        now rewrite firstn_skipn.
      + unfold len in *. rewrite length_firstn. lia.
    - exists truncated, (skipn (Z.to_nat maxLength) text).
      split; [|split; [exact Ht|reflexivity]].
      unfold truncated. now rewrite firstn_skipn. }
  split; [|split; [exact Hcut|]].
  - intros Hshort. unfold truncateText.
    apply Z.leb_le in Hshort. now rewrite Hshort.
  - destruct (Z_le_gt_dec (len text) maxLength) as [Hshort|Hlong].
    + unfold truncateText. pose proof Hshort as E.
      apply Z.leb_le in E. rewrite E. lia.
    + destruct (Hcut ltac:(lia)) as (kept & rest & _ & Hk & ->).
      rewrite len_app. change (len (str "...")) with 3. lia.
Qed.

(** X5: a text longer than [maxLength] is cut at the last space among its
    first [maxLength] characters when there is one behind the first
    character: the part kept is not empty and ends before that space.
    Without such a space the first [maxLength] characters are kept, and a
    word can be cut. *)
Theorem truncateText_word_boundary (text : jsstring) (maxLength : Z) :
  maxLength < len text ->
  (forall i,
     0 < i < maxLength -> nth_error text (Z.to_nat i) = Some SP ->
     exists kept rest,
       text = kept ++ SP :: rest
       /\ i <= len kept < maxLength
       /\ truncateText text maxLength = kept ++ str "..."
       /\ forall j, len kept < j < maxLength ->
                    nth_error text (Z.to_nat j) <> Some SP)
  /\ ((forall i, 0 < i < maxLength ->
                 nth_error text (Z.to_nat i) <> Some SP) ->
      truncateText text maxLength
      = firstn (Z.to_nat maxLength) text ++ str "...").
Proof.
  intros Hlong. unfold truncateText.
  destruct (len text <=? maxLength) eqn:E; [apply Z.leb_le in E; lia|].
  clear E. rewrite !substring_prefix.
  set (truncated := firstn (Z.to_nat maxLength) text).
  assert (Hlen : List.length truncated = Z.to_nat maxLength).
  { unfold truncated. rewrite length_firstn. unfold len in Hlong. lia. }
  assert (Hnth : forall j, 0 <= j < maxLength ->
            nth_error truncated (Z.to_nat j) = nth_error text (Z.to_nat j)).
  { intros j Hj. apply nth_error_firstn_lt. lia. }
  unfold lastIndexOf, clamp.
  replace (Z.to_nat (Z.max 0 (Z.min (len truncated) (len truncated))))
    with (List.length truncated) by (unfold len; lia).
  pose proof (lastIndexFrom_spec truncated [SP] (List.length truncated))
    as Hspec.
  pose proof (lastIndexFrom_max truncated [SP] (List.length truncated))
    as Hmax.
  pose proof (lastIndexFrom_last truncated [SP] (List.length truncated))
    as Hlast.
  set (lastSpace := lastIndexFrom truncated [SP] (List.length truncated))
    in *.
  assert (Hfound : 0 < lastSpace ->
            0 < lastSpace < maxLength
            /\ nth_error text (Z.to_nat lastSpace) = Some SP).
  { intros Hpos. destruct Hspec as [Hno|[Hr Hm]]; [lia|].
    apply matchAt_single in Hm.
    assert (Hin : (Z.to_nat lastSpace < List.length truncated)%nat).
    { apply nth_error_Some. now rewrite Hm. }
    split; [lia|]. rewrite <- Hnth by lia. exact Hm. }
  split.
  - intros i Hi Hsp.
    assert (Hge : i <= lastSpace).
    { specialize (Hmax (Z.to_nat i) ltac:(lia)).
      rewrite Z2Nat.id in Hmax by lia.
      apply Hmax. apply matchAt_single. now rewrite Hnth by lia. }
    destruct (Hfound ltac:(lia)) as [Hr Hm].
    assert (Es : (lastSpace >? 0) = true) by (apply Z.gtb_lt; lia).
    rewrite Es.
    assert (Hkept : firstn (Z.to_nat lastSpace) truncated
                    = firstn (Z.to_nat lastSpace) text).
    { unfold truncated. rewrite firstn_firstn. f_equal. lia. }
    rewrite Hkept.
    exists (firstn (Z.to_nat lastSpace) text),
      (skipn (S (Z.to_nat lastSpace)) text).
    assert (Hk : len (firstn (Z.to_nat lastSpace) text) = lastSpace).
    { unfold len in *. rewrite length_firstn. lia. }
    rewrite Hk. split; [now apply nth_error_split_at|].
    split; [lia|]. split; [reflexivity|].
    intros j Hj Hspj.
    specialize (Hlast (Z.to_nat j) ltac:(lia)).
    rewrite Z2Nat.id in Hlast by lia.
    specialize (Hlast ltac:(lia)).
    assert (Hyes : matchAt truncated [SP] (Z.to_nat j) = true).
    { apply matchAt_single. now rewrite Hnth by lia. }
    congruence.
  - intros Hnone. destruct (lastSpace >? 0) eqn:Es; [|reflexivity].
    apply Z.gtb_lt in Es. destruct (Hfound Es) as [Hr Hm].
    now destruct (Hnone lastSpace Hr).
Qed.

Lemma truncateText_word_boundary_witness :
  5 < len (str "abcdefg")
  /\ truncateText (str "abcdefg") 5 = str "abcde..."
  /\ 5 < len (str "ab cdef")
  /\ exists kept rest,
       str "ab cdef" = kept ++ SP :: rest
       /\ truncateText (str "ab cdef") 5 = kept ++ str "...".
Proof.
  split; [vm_compute; reflexivity|]. split.
  - apply (proj2 (truncateText_word_boundary (str "abcdefg") 5
                    ltac:(vm_compute; reflexivity))).
    intros i Hi.
    assert (Hc : i = 1 \/ i = 2 \/ i = 3 \/ i = 4) by lia.
    destruct Hc as [-> | [-> | [-> | ->]]]; vm_compute; discriminate.
  - split; [vm_compute; reflexivity|].
    destruct (proj1 (truncateText_word_boundary (str "ab cdef") 5
                       ltac:(vm_compute; reflexivity))
                2 ltac:(lia) ltac:(reflexivity))
      as (kept & rest & Ht & _ & Hr & _).
    exists kept, rest. now split.
Defined.

(** ** The chunks of [chunkText] *)

Section LoopInvariants.

Variables (cleanedText : jsstring) (chunkSize overlap : Z).

Local Abbreviation cut := (cutPoint cleanedText chunkSize).
Local Abbreviation piece := (chunkAt cleanedText chunkSize).
Local Abbreviation step := (chunkStep cleanedText chunkSize overlap).
Local Abbreviation run := (runSteps cleanedText chunkSize overlap).

(** A property kept by the loop body holds after any number of
    iterations. *)
Lemma runSteps_invariant (P : LoopState -> Prop) :
  (forall st, st_startChar st < len cleanedText -> P st -> P (step st)) ->
  forall n st, P st -> P (run n st).
Proof.
  intros Hstep. induction n as [|n IH]; intros st Hst; simpl; [exact Hst|].
  destruct (_ <? _) eqn:E; [|exact Hst].
  apply IH, Hstep; [now apply Z.ltb_lt|exact Hst].
Qed.

(** When the loop returns, the cursor has reached the end of the text. *)
Lemma chunkLoop_end (fuel : nat) : forall st n st',
  chunkLoop fuel cleanedText chunkSize overlap st = Some (n, st') ->
  len cleanedText <= st_startChar st'.
Proof.
  induction fuel as [|fuel IH]; intros st n st'; simpl.
  - destruct (_ <? _) eqn:E; [discriminate|]. intros [= <- <-].
    now apply Z.ltb_ge.
  - destruct (_ <? _) eqn:E.
    + destruct (chunkLoop fuel _ _ _ _) as [[m st'']|] eqn:El; [|discriminate].
      intros [= <- <-]. exact (IH _ _ _ El).
    + intros [= <- <-]. now apply Z.ltb_ge.
Qed.

Lemma chunkStep_trimmedSlice (st : LoopState) :
  Forall (fun c => trimmedSlice cleanedText c /\ 0 < len (text c))
    (st_chunks st) ->
  Forall (fun c => trimmedSlice cleanedText c /\ 0 < len (text c))
    (st_chunks (step st)).
Proof.
  intros Hst.
  destruct (Z_gt_le_dec (len (piece (st_startChar st))) 0) as [Hp|Hp].
  - rewrite (chunkStep_pushed _ _ _ st Hp). simpl.
    apply Forall_app. split; [exact Hst|].
    constructor; [|constructor]. split; [reflexivity|simpl; lia].
  - rewrite (chunkStep_skipped _ _ _ st Hp). exact Hst.
Qed.

(** The loop does not end from a state that its body leaves as it is. *)
Lemma chunkLoop_stuck (st : LoopState) :
  st_startChar st < len cleanedText -> step st = st ->
  forall fuel, chunkLoop fuel cleanedText chunkSize overlap st = None.
Proof.
  intros Hrun Hfix. apply Z.ltb_lt in Hrun.
  induction fuel as [|fuel IH]; simpl; rewrite Hrun; [reflexivity|].
  now rewrite Hfix, IH.
Qed.

End LoopInvariants.

(** X6: whatever the parameters, every chunk collected by the loop of
    [chunkText] carries as text the trimmed slice of the cleaned text
    between its two offsets, is not empty, and has its position in the list
    as index.  The same holds for the chunks [chunkText] returns, except
    that the single chunk of a text without visible characters is empty. *)
Theorem chunks_are_trimmed_slices (s : jsstring) (chunkSize overlap : Z) :
  (forall n i c,
     nth_error (st_chunks (runSteps (cleanText s) chunkSize overlap n
                             (mkState 0 0 []))) i = Some c ->
     index c = Z.of_nat i /\ trimmedSlice (cleanText s) c
     /\ 0 < len (text c))
  /\ (forall fuel chunks i c,
        chunkText fuel s chunkSize overlap = Some chunks ->
        nth_error chunks i = Some c ->
        index c = Z.of_nat i /\ trimmedSlice (cleanText s) c
        /\ (text c = [] -> cleanText s = [])).
Proof.
  assert (Hloop : forall n i c,
     nth_error (st_chunks (runSteps (cleanText s) chunkSize overlap n
                             (mkState 0 0 []))) i = Some c ->
     index c = Z.of_nat i /\ trimmedSlice (cleanText s) c
     /\ 0 < len (text c)).
  { intros n i c Hi. split.
    - refine (proj2 (runSteps_numbered (cleanText s) chunkSize overlap n
                       (mkState 0 0 []) _) i c Hi).
      split; [reflexivity|]. intros j d Hj. destruct j; discriminate.
    - pose proof (runSteps_invariant (cleanText s) chunkSize overlap
                    (fun st => Forall (fun c => trimmedSlice (cleanText s) c
                                                /\ 0 < len (text c))
                                 (st_chunks st))
                    (fun st _ => chunkStep_trimmedSlice _ _ _ st)
                    n (mkState 0 0 []) (Forall_nil _)) as Hall.
      exact (proj1 (Forall_forall _ _) Hall c (nth_error_In _ _ Hi)). }
  split; [exact Hloop|].
  intros fuel chunks i c. unfold chunkText, chunkTextCounted.
  destruct (_ <=? chunkSize).
  - intros [= <-] Hi. destruct i as [|[|i]]; simpl in Hi; try discriminate.
    injection Hi as <-. split; [reflexivity|].
    split; [|simpl; intros E; exact E].
    unfold trimmedSlice. simpl. rewrite substring_prefix.
    unfold len. rewrite Nat2Z.id, firstn_all.
    unfold cleanText. now rewrite trim_idem.
  - destruct (chunkLoop fuel _ _ _ _) as [[n st]|] eqn:El; [|discriminate].
    intros [= <-] Hi. apply chunkLoop_runSteps in El as [-> _].
    destruct (Hloop n i c Hi) as (H1 & H2 & H3).
    split; [exact H1|]. split; [exact H2|].
    intros E. rewrite E in H3. unfold len in H3. simpl in H3. lia.
Qed.

(** X7: [chunkText] can run for ever: from a window that is blank and
    from which the cursor does not advance (an overlap as large as the
    chunk size allows it), the loop repeats the same iteration whatever the
    number of iterations allowed. *)
Theorem chunkText_can_hang (cleanedText : jsstring) (chunkSize overlap : Z)
    (st : LoopState) :
  st_startChar st < len cleanedText ->
  chunkAt cleanedText chunkSize (st_startChar st) = [] ->
  nextStart cleanedText chunkSize overlap (st_chunks st) (st_startChar st)
  = st_startChar st ->
  forall fuel, chunkLoop fuel cleanedText chunkSize overlap st = None.
Proof.
  intros Hrun Hblank Hnext. apply chunkLoop_stuck; [exact Hrun|].
  rewrite chunkStep_skipped by (rewrite Hblank; unfold len; simpl; lia).
  rewrite Hnext. now destruct st.
Qed.

Lemma chunkText_can_hang_witness :
  chunkStep [97; 98; LF; SP; LF; SP; 99; 100]%N 2 2 (mkState 0 0 [])
  = mkState 2 1 [mkChunk [97; 98]%N 0 0 2]
  /\ forall fuel,
       chunkText fuel ([97; 98; LF; SP; LF; SP; 99; 100]%N) 2 2 = None.
Proof.
  split; [reflexivity|].
  intros fuel. unfold chunkText, chunkTextCounted.
  change (cleanText [97; 98; LF; SP; LF; SP; 99; 100]%N)
    with ([97; 98; LF; SP; LF; SP; 99; 100]%N).
  change (len [97; 98; LF; SP; LF; SP; 99; 100]%N <=? 2) with false.
  cbv iota. destruct fuel as [|fuel]; [reflexivity|]. cbn [chunkLoop].
  change (st_startChar (mkState 0 0 [])
          <? len [97; 98; LF; SP; LF; SP; 99; 100]%N) with true.
  cbv iota.
  change (chunkStep [97; 98; LF; SP; LF; SP; 99; 100]%N 2 2 (mkState 0 0 []))
    with (mkState 2 1 [mkChunk [97; 98]%N 0 0 2]).
  rewrite (chunkText_can_hang [97; 98; LF; SP; LF; SP; 99; 100]%N 2 2
             (mkState 2 1 [mkChunk [97; 98]%N 0 0 2]));
    [reflexivity|vm_compute; reflexivity|reflexivity|reflexivity].
Defined.

(** ** The chunks cover the text *)

Section Coverage.

Variables (cleanedText : jsstring) (chunkSize overlap : Z).
Hypothesis Hsize : 0 <= chunkSize.
Hypothesis Hoverlap : 0 <= overlap.

Local Abbreviation L := (len cleanedText).
Local Abbreviation cut := (cutPoint cleanedText chunkSize).
Local Abbreviation piece := (chunkAt cleanedText chunkSize).
Local Abbreviation next := (nextStart cleanedText chunkSize overlap).
Local Abbreviation step := (chunkStep cleanedText chunkSize overlap).

Lemma cutPoint_ge (start : Z) : start < L -> start <= cut start.
Proof.
  intros Hrun. unfold cutPoint.
  destruct (_ <? L); [|lia].
  destruct (_ >? start) eqn:E; [apply Z.gtb_lt in E|]; lia.
Qed.

Lemma nextStart_le (chunks : list TextChunk) (start : Z) :
  next chunks start <= cut start.
Proof.
  unfold nextStart. destruct (lastStart chunks) as [prev|]; [|lia].
  destruct (_ <=? prev); lia.
Qed.

(** A position of the window is a position of its slice. *)
Lemma In_substring (a b p : Z) (ch : char) :
  0 <= p -> a <= p < b ->
  nth_error cleanedText (Z.to_nat p) = Some ch ->
  In ch (substring cleanedText a b).
Proof.
  intros H0 Hp Hch.
  assert (HL : p < L).
  { assert (Hlt : (Z.to_nat p < List.length cleanedText)%nat)
      by (apply nth_error_Some; now rewrite Hch).
    unfold len. lia. }
  unfold substring, clamp. fold L.
  replace (Z.min (Z.max 0 (Z.min a L)) (Z.max 0 (Z.min b L)))
    with (Z.max 0 a) by lia.
  replace (Z.max (Z.max 0 (Z.min a L)) (Z.max 0 (Z.min b L)))
    with (Z.min b L) by lia.
  apply (nth_error_In _ (Z.to_nat (p - Z.max 0 a))).
  rewrite nth_error_firstn_lt by lia.
  rewrite nth_error_skipn. rewrite <- Hch. f_equal. lia.
Qed.

Lemma piece_blank (start p : Z) (ch : char) :
  piece start = [] -> 0 <= p -> start <= p < cut start ->
  nth_error cleanedText (Z.to_nat p) = Some ch ->
  isWhitespace ch = true.
Proof.
  intros Hblank H0 Hp Hch. unfold chunkAt in Hblank.
  apply trim_nil in Hblank.
  exact (proj1 (forallb_forall _ _) Hblank ch
           (In_substring start (cut start) p ch H0 Hp Hch)).
Qed.

Lemma coveredBelow_app (chunks more : list TextChunk) (bound : Z) :
  coveredBelow cleanedText chunks bound ->
  coveredBelow cleanedText (chunks ++ more) bound.
Proof.
  intros Hc p ch Hp Hch Hws. apply Exists_app. left.
  exact (Hc p ch Hp Hch Hws).
Qed.

Lemma chunkStep_covers (st : LoopState) :
  st_startChar st < L ->
  coveredBelow cleanedText (st_chunks st) (st_startChar st) ->
  coveredBelow cleanedText (st_chunks (step st)) (st_startChar (step st)).
Proof.
  intros Hrun Hcov. set (start := st_startChar st) in *.
  pose proof (cutPoint_ge start Hrun) as Hcut.
  destruct (Z_gt_le_dec (len (piece start)) 0) as [Hp|Hp].
  - rewrite (chunkStep_pushed _ _ _ st Hp). fold start. cbv zeta.
    cbn [st_chunks st_startChar].
    pose proof (nextStart_le
                  (st_chunks st
                   ++ [mkChunk (piece start) (st_chunkIndex st) start
                         (cut start)]) start) as Hnext.
    intros p ch Hpos Hch Hws.
    destruct (Z_lt_le_dec p start) as [Hold|Hnew].
    + apply Exists_app. left. apply (Hcov p ch); [lia|exact Hch|exact Hws].
    + apply Exists_app. right. constructor. unfold inWindow. simpl. lia.
  - rewrite (chunkStep_skipped _ _ _ st Hp). fold start.
    cbn [st_chunks st_startChar].
    pose proof (nextStart_le (st_chunks st) start) as Hnext.
    intros p ch Hpos Hch Hws.
    destruct (Z_lt_le_dec p start) as [Hold|Hnew].
    + apply (Hcov p ch); [lia|exact Hch|exact Hws].
    + exfalso.
      assert (Hblank : piece start = []).
      { destruct (piece start) as [|x r] eqn:E; [reflexivity|].
        unfold len in Hp. simpl in Hp. lia. }
      rewrite (piece_blank start p ch Hblank) in Hws;
        [discriminate|lia|lia|exact Hch].
Qed.

End Coverage.

Lemma runSteps_covered (s : jsstring) (chunkSize overlap : Z) (n : nat) :
  0 <= chunkSize -> 0 <= overlap ->
  let st := runSteps (cleanText s) chunkSize overlap n (mkState 0 0 []) in
  coveredBelow (cleanText s) (st_chunks st) (st_startChar st).
Proof.
  intros Hsize Hoverlap.
  apply (runSteps_invariant (cleanText s) chunkSize overlap
           (fun st => coveredBelow (cleanText s) (st_chunks st)
                        (st_startChar st))).
  - intros st Hrun Hst.
    now apply (chunkStep_covers (cleanText s) chunkSize overlap
                 Hsize Hoverlap).
  - intros p ch Hp. simpl in Hp. lia.
Qed.

Lemma chunkText_covered (s : jsstring) (chunkSize overlap : Z)
    (fuel : nat) (chunks : list TextChunk) :
  0 <= chunkSize -> 0 <= overlap ->
  chunkText fuel s chunkSize overlap = Some chunks ->
  coveredBelow (cleanText s) chunks (len (cleanText s)).
Proof.
  intros Hsize Hoverlap. unfold chunkText, chunkTextCounted.
  destruct (_ <=? chunkSize).
  - intros [= <-] p ch Hp Hch Hws. constructor. unfold inWindow. simpl. lia.
  - destruct (chunkLoop fuel _ _ _ _) as [[n st]|] eqn:El; [|discriminate].
    intros [= <-] p ch Hp Hch Hws.
    pose proof (chunkLoop_end _ _ _ _ _ _ _ El) as Hend.
    apply chunkLoop_runSteps in El as [-> _].
    apply (runSteps_covered s chunkSize overlap n Hsize Hoverlap p ch);
      [lia|exact Hch|exact Hws].
Qed.

(** X8: with a chunk size and an overlap that are not negative, the
    windows of the chunks cover the text: after any number of iterations
    every position before the cursor that holds a character other than
    white space lies between the offsets of a chunk collected so far, and so
    does every such position of the cleaned text when [chunkText]
    returns. *)
Theorem chunks_cover_text (s : jsstring) (chunkSize overlap : Z) :
  0 <= chunkSize -> 0 <= overlap ->
  (forall n,
     let st := runSteps (cleanText s) chunkSize overlap n (mkState 0 0 []) in
     coveredBelow (cleanText s) (st_chunks st) (st_startChar st))
  /\ (forall fuel chunks,
        chunkText fuel s chunkSize overlap = Some chunks ->
        coveredBelow (cleanText s) chunks (len (cleanText s))).
Proof.
  intros Hsize Hoverlap. split.
  - intros n. now apply runSteps_covered.
  - intros fuel chunks. now apply chunkText_covered.
Qed.

Lemma chunks_cover_text_witness :
  0 <= 1000 /\ 0 <= 200
  /\ exists chunks,
       chunkText 6 demoContent 1000 200 = Some chunks
       /\ List.map (fun c => (startChar c, endChar c)) chunks
          = [(0, 1000); (800, 1800); (1600, 2600); (2400, 2999);
             (2799, 2999)]
       /\ coveredBelow (cleanText demoContent) chunks
            (len (cleanText demoContent)).
Proof.
  split; [lia|]. split; [lia|].
  destruct (chunkText 6 demoContent 1000 200) as [chunks|] eqn:E;
    [|vm_compute in E; discriminate].
  exists chunks. split; [reflexivity|].
  split;
    [|exact (proj2 (chunks_cover_text demoContent 1000 200
                      ltac:(lia) ltac:(lia)) 6%nat chunks E)].
  vm_compute in E. injection E as <-. reflexivity.
Defined.

(** ** The order of the chunks for the default parameters *)

Section DefaultOrder.

Variable cleanedText : jsstring.
Hypothesis Htrimmed : trimEnd cleanedText = cleanedText.

Local Abbreviation L := (len cleanedText).
Local Abbreviation cut := (cutPoint cleanedText 1000).
Local Abbreviation piece := (chunkAt cleanedText 1000).
Local Abbreviation step := (chunkStep cleanedText 1000 200).

Lemma lastStart_In (chunks : list TextChunk) (prev : Z) :
  lastStart chunks = Some prev -> exists c, In c chunks /\ startChar c = prev.
Proof.
  unfold lastStart. destruct (rev chunks) as [|c r] eqn:E; [discriminate|].
  intros [= <-]. exists c. split; [|reflexivity].
  apply in_rev. rewrite E. now left.
Qed.

Lemma ascending_push (chunks : list TextChunk) (c : TextChunk) :
  ascending chunks ->
  (forall a, In a chunks ->
             startChar a < startChar c /\ endChar a <= endChar c
             /\ endChar a - defaultOverlap <= startChar c) ->
  ascending (chunks ++ [c]).
Proof.
  intros Hasc Hnew i j a b Hij Hi Hj.
  assert (Hjlen : (j < List.length (chunks ++ [c]))%nat)
    by (apply nth_error_Some; now rewrite Hj).
  rewrite length_app in Hjlen. simpl in Hjlen.
  rewrite nth_error_app1 in Hi by lia.
  destruct (Nat.lt_ge_cases j (List.length chunks)) as [Hlt|Hge].
  - rewrite nth_error_app1 in Hj by exact Hlt.
    exact (Hasc i j a b Hij Hi Hj).
  - rewrite nth_error_app2 in Hj by exact Hge.
    replace (j - List.length chunks)%nat with O in Hj by lia.
    injection Hj as <-. apply Hnew. exact (nth_error_In _ _ Hi).
Qed.

Lemma chunkStep_windowsOK (st : LoopState) :
  st_startChar st < L -> windowsOK cleanedText st ->
  windowsOK cleanedText (step st)
  /\ st_startChar st < st_startChar (step st).
Proof.
  intros Hrun (H0 & Hall & Hasc). set (start := st_startChar st) in *.
  assert (Hprev : forall chunks prev,
            Forall (fun c => startChar c <= start) chunks ->
            lastStart chunks = Some prev -> prev <= start).
  { intros chunks prev Hc Hl. apply lastStart_In in Hl as (c & Hin & <-).
    exact (proj1 (Forall_forall _ _) Hc c Hin). }
  assert (Hold : Forall (fun c => startChar c <= start) (st_chunks st)).
  { apply Forall_forall. intros c Hc.
    pose proof (proj1 (Forall_forall _ _) Hall c Hc) as Hc'.
    cbv beta in Hc'. lia. }
  assert (Hgrow : forall cursor,
            start <= cursor ->
            Forall (fun c => 0 <= startChar c < endChar c
                             /\ endChar c <= L
                             /\ startChar c < cursor
                             /\ endChar c <= cursor + 200) (st_chunks st)).
  { intros cursor Hc. apply Forall_forall. intros c Hin.
    pose proof (proj1 (Forall_forall _ _) Hall c Hin) as Hc'.
    cbv beta in Hc'. lia. }
  destruct (Z_lt_le_dec (start + 1000) L) as [Hfit|Hlast].
  - destruct (cut_window cleanedText start H0 Hfit) as [[Hlo Hup] Hin].
    assert (Hnext : forall chunks,
              Forall (fun c => startChar c <= start) chunks ->
              nextStart cleanedText 1000 200 chunks start = cut start - 200).
    { intros chunks Hc. unfold nextStart.
      destruct (lastStart chunks) as [prev|] eqn:El; [|reflexivity].
      pose proof (Hprev chunks prev Hc El).
      destruct (_ <=? prev) eqn:E; [apply Z.leb_le in E; lia|reflexivity]. }
    destruct (Z_gt_le_dec (len (piece start)) 0) as [Hp|Hp].
    + rewrite (chunkStep_pushed _ _ _ st Hp). fold start. cbv zeta.
      rewrite Hnext
        by (apply Forall_app; split;
            [exact Hold|constructor; [simpl; lia|constructor]]).
      split; [|simpl; lia]. split; [simpl; lia|]. split; simpl.
      * apply Forall_app. split; [apply Hgrow; lia|].
        constructor; [simpl; lia|constructor].
      * apply ascending_push; [exact Hasc|]. intros a Ha. simpl.
        pose proof (proj1 (Forall_forall _ _) Hall a Ha) as Ha'.
        cbv beta in Ha'. unfold defaultOverlap. lia.
    + rewrite (chunkStep_skipped _ _ _ st Hp). fold start.
      rewrite (Hnext _ Hold).
      split; [|simpl; lia]. split; [simpl; lia|]. split; simpl.
      * apply Hgrow. lia.
      * exact Hasc.
  - pose proof (chunkAt_last_nonblank cleanedText Htrimmed start
                  ltac:(lia) Hlast) as Hp.
    pose proof (cut_last cleanedText start Hlast) as Hcut.
    rewrite (chunkStep_pushed _ _ _ st Hp). fold start. cbv zeta.
    unfold nextStart. rewrite lastStart_push. rewrite Hcut. simpl startChar.
    assert (Hnew : start
                   < (if L - 200 <=? start then L else L - 200)
                   /\ L <= (if L - 200 <=? start then L else L - 200) + 200).
    { destruct (L - 200 <=? start) eqn:E;
        [apply Z.leb_le in E|apply Z.leb_gt in E]; lia. }
    split; [|simpl; lia]. split; [simpl; lia|]. split; simpl.
    + apply Forall_app. split; [apply Hgrow; lia|].
      constructor; [simpl; lia|constructor].
    + apply ascending_push; [exact Hasc|]. intros a Ha. simpl.
      pose proof (proj1 (Forall_forall _ _) Hall a Ha) as Ha'.
      cbv beta in Ha'. unfold defaultOverlap. lia.
Qed.

End DefaultOrder.

(** X9: with the default parameters and enough iterations allowed,
    [chunkText] returns chunks in ascending order: each chunk starts after
    the ones before it, does not end before them and shares at most 200
    characters of the text with them; every window lies in the cleaned
    text, [0 <= startChar <= endChar <= length], and is not empty unless
    the cleaned text is. *)
Theorem default_chunks_ordered (s : jsstring) (fuel : nat) :
  (iterationBound s <= fuel)%nat ->
  exists chunks,
    chunkText fuel s 1000 200 = Some chunks
    /\ ascending chunks
    /\ forall c, In c chunks ->
         0 <= startChar c <= endChar c
         /\ endChar c <= len (cleanText s)
         /\ (cleanText s <> [] -> startChar c < endChar c).
Proof.
  intros Hfuel.
  destruct (chunkText_defined s fuel Hfuel) as [chunks Hchunks].
  exists chunks. split; [exact Hchunks|].
  unfold chunkText, chunkTextCounted in Hchunks.
  destruct (_ <=? 1000).
  - injection Hchunks as <-. split.
    + intros i j a b Hij Hi Hj.
      destruct j as [|j]; [lia|]. destruct j; discriminate.
    + intros c [<-|[]]. simpl. pose proof (len_nonneg (cleanText s)).
      split; [lia|]. split; [lia|]. intros Hne.
      destruct (cleanText s); [congruence|]. unfold len. simpl. lia.
  - destruct (chunkLoop fuel _ _ _ _) as [[n st]|] eqn:El; [|discriminate].
    injection Hchunks as <-. apply chunkLoop_runSteps in El as [-> _].
    assert (Htrimmed : trimEnd (cleanText s) = cleanText s)
      by apply trim_trimEnd_fixed.
    pose proof (runSteps_invariant (cleanText s) 1000 200
                  (windowsOK (cleanText s))
                  (fun st Hrun Hst =>
                     proj1 (chunkStep_windowsOK (cleanText s) Htrimmed
                              st Hrun Hst))
                  n (mkState 0 0 [])) as Hinv.
    destruct Hinv as (_ & Hall & Hasc).
    { split; [simpl; lia|]. split; [constructor|].
      intros i j a b _ Hi. destruct i; discriminate. }
    split; [exact Hasc|]. intros c Hc.
    pose proof (proj1 (Forall_forall _ _) Hall c Hc) as Hc'.
    cbv beta in Hc'. lia.
Qed.

Lemma default_chunks_ordered_witness :
  (iterationBound demoContent <= 6)%nat
  /\ exists chunks,
       chunkText 6 demoContent 1000 200 = Some chunks
       /\ ascending chunks.
Proof.
  split; [vm_compute; reflexivity|].
  destruct (default_chunks_ordered demoContent 6
              ltac:(vm_compute; reflexivity))
    as (chunks & Hc & Hasc & _).
  exists chunks. now split.
Defined.

(** ** Where [findSentenceEnd] cuts *)

Section SentenceEnds.

Lemma startsWith_firstn (pat : jsstring) : forall s,
  startsWith s pat = true -> firstn (List.length pat) s = pat.
Proof.
  induction pat as [|p pat IH]; intros s Hs; [reflexivity|].
  destruct s as [|c s]; [discriminate|]. cbn [startsWith] in Hs.
  apply andb_true_iff in Hs as [Hc Hs]. apply N.eqb_eq in Hc. subst c.
  cbn [List.length firstn]. f_equal. now apply IH.
Qed.

Lemma lastIndexOf_match (s pat : jsstring) (position : Z) :
  lastIndexOf s pat position <> -1 ->
  matchAt s pat (Z.to_nat (lastIndexOf s pat position)) = true.
Proof.
  unfold lastIndexOf. intros Hne.
  destruct (lastIndexFrom_spec s pat
              (Z.to_nat (clamp position 0 (len s)))) as [E|[_ Hm]];
    [contradiction|exact Hm].
Qed.

Lemma enderStep_afterEnder searchText searchStart target acc ender :
  In ender sentenceEnders ->
  fst acc = -1 \/ afterEnder searchText (fst acc - searchStart) ->
  fst (enderStep searchText searchStart target acc ender) = -1
  \/ afterEnder searchText
       (fst (enderStep searchText searchStart target acc ender)
        - searchStart).
Proof.
  intros Hin Hacc. unfold enderStep.
  assert (He : len ender = 2)
    by exact (proj1 (Forall_forall _ _) sentenceEnders_len ender Hin).
  destruct (_ =? -1) eqn:E; [exact Hacc|]. apply Z.eqb_neq in E.
  assert (Hnew : afterEnder searchText
            (searchStart
             + lastIndexOf searchText ender (target - searchStart)
             + len ender - searchStart)).
  { pose proof (lastIndexOf_match searchText ender _ E) as Hm.
    destruct (lastIndexOf_spec searchText ender (target - searchStart))
      as [E'|[[H1 H2] H3]]; [contradiction|].
    split; [lia|]. rewrite He.
    replace (searchStart
             + lastIndexOf searchText ender (target - searchStart) + 2
             - searchStart - 2)
      with (lastIndexOf searchText ender (target - searchStart)) by lia.
    unfold matchAt in Hm. apply startsWith_firstn in Hm.
    replace (List.length ender) with 2%nat in Hm
      by (unfold len in He; lia).
    now rewrite Hm. }
  destruct (snd acc) as [minDistance|]; [|now right].
  destruct (_ <? minDistance); [now right|exact Hacc].
Qed.

Lemma fold_enderStep_afterEnder searchText searchStart target enders :
  Forall (fun ender => In ender sentenceEnders) enders ->
  forall acc,
  fst acc = -1 \/ afterEnder searchText (fst acc - searchStart) ->
  let best :=
    fst (fold_left (enderStep searchText searchStart target) enders acc) in
  best = -1 \/ afterEnder searchText (best - searchStart).
Proof.
  induction 1 as [|ender enders He _ IH]; intros acc Hacc; [exact Hacc|].
  simpl. apply IH. now apply enderStep_afterEnder.
Qed.

(** A terminator found in a slice is a terminator of the text. *)
Lemma afterEnder_substring (text : jsstring) (a b q : Z) :
  0 <= a <= b -> b <= len text ->
  afterEnder (substring text a b) q -> afterEnder text (a + q).
Proof.
  intros Ha Hb [Hq Hin].
  pose proof (len_substring text a b Ha Hb) as Hlen.
  split; [lia|].
  unfold substring, clamp in Hin.
  replace (Z.min (Z.max 0 (Z.min a (len text))) (Z.max 0 (Z.min b (len text))))
    with a in Hin by lia.
  replace (Z.max (Z.max 0 (Z.min a (len text))) (Z.max 0 (Z.min b (len text))))
    with b in Hin by lia.
  rewrite skipn_firstn_comm, firstn_firstn, skipn_skipn in Hin.
  replace (Nat.min 2 (Z.to_nat (b - a) - Z.to_nat (q - 2)))
    with 2%nat in Hin by lia.
  replace (Z.to_nat (a + q - 2)) with (Z.to_nat (q - 2) + Z.to_nat a)%nat
    by lia.
  exact Hin.
Qed.

End SentenceEnds.

(** Asked for a cut between [start] and the end of the text,
    [findSentenceEnd] returns the target or a position that follows a
    terminator. *)
Lemma findSentenceEnd_cases (text : jsstring) (start target : Z) :
  0 <= start <= target -> target <= len text ->
  findSentenceEnd text start target = target
  \/ (start < findSentenceEnd text start target
      /\ target - 198 <= findSentenceEnd text start target <= target + 2
      /\ afterEnder text (findSentenceEnd text start target)).
Proof.
  intros Hs Ht.
  pose proof (findSentenceEnd_spec text start target) as Hspec.
  cbv zeta in Hspec. unfold findSentenceEnd in *.
  set (searchStart := Z.max start (target - 200)) in *.
  set (searchEnd := Z.min (len text) (target + 100)) in *.
  set (searchText := substring text searchStart searchEnd) in *.
  pose proof (fold_enderStep_afterEnder searchText searchStart target
                sentenceEnders
                (proj2 (Forall_forall _ _) (fun e He => He))
                (-1, None) (or_introl eq_refl)) as Hb.
  cbv zeta in Hb.
  destruct (_ >? start) eqn:E; [|now left].
  apply Z.gtb_lt in E. right. split; [exact E|]. split.
  - destruct Hspec as [E'|[[E' Hneg]|(Hr & Hlo & Hup & _)]];
      [lia|lia|unfold clamp in Hup; lia].
  - destruct Hb as [Hb|Hb]; [rewrite Hb in E; lia|].
    apply (afterEnder_substring text searchStart searchEnd) in Hb;
      [|unfold searchStart, searchEnd; lia|unfold searchEnd; lia].
    match goal with
    | H : afterEnder text (searchStart + (?b - searchStart)) |- _ =>
        replace (searchStart + (b - searchStart)) with b in H by lia;
        exact H
    end.
Qed.

(** The end of a chunk cut with the default chunk size. *)
Lemma cutPoint_cases (cleanedText : jsstring) (start : Z) :
  0 <= start < len cleanedText ->
  cutPoint cleanedText 1000 start = start + 1000
  \/ cutPoint cleanedText 1000 start = len cleanedText
  \/ afterEnder cleanedText (cutPoint cleanedText 1000 start).
Proof.
  intros Hs. unfold cutPoint.
  destruct (_ <? len cleanedText) eqn:E0; [|right; left; lia].
  apply Z.ltb_lt in E0.
  replace (Z.min (start + 1000) (len cleanedText)) with (start + 1000)
    in * by lia.
  destruct (_ >? start) eqn:E1; [|now left].
  destruct (findSentenceEnd_cases cleanedText start (start + 1000)
              ltac:(lia) ltac:(lia)) as [E|(_ & _ & H)];
    [left; exact E|right; right; exact H].
Qed.

Lemma chunkStep_endsOK (cleanedText : jsstring) (st : LoopState) :
  0 <= st_startChar st < len cleanedText ->
  Forall (fun c => endChar c = startChar c + 1000
                   \/ endChar c = len cleanedText
                   \/ afterEnder cleanedText (endChar c)) (st_chunks st) ->
  Forall (fun c => endChar c = startChar c + 1000
                   \/ endChar c = len cleanedText
                   \/ afterEnder cleanedText (endChar c))
    (st_chunks (chunkStep cleanedText 1000 200 st)).
Proof.
  intros Hs Hst.
  destruct (Z_gt_le_dec
              (len (chunkAt cleanedText 1000 (st_startChar st))) 0)
    as [Hp|Hp].
  - rewrite (chunkStep_pushed _ _ _ st Hp). simpl.
    apply Forall_app. split; [exact Hst|].
    constructor; [|constructor]. simpl. now apply cutPoint_cases.
  - rewrite (chunkStep_skipped _ _ _ st Hp). exact Hst.
Qed.

(** X10: asked for a cut between [start] and the end of the text,
    [findSentenceEnd] returns the target itself or a position behind
    [start], at most 198 characters before the target and at most 2 after
    it, and the two characters before that position are a full stop, an
    exclamation mark or a question mark followed by a space or a newline.
    So with the default parameters every chunk of [chunkText] ends 1000
    characters after its start, at the end of the cleaned text, or right
    after such a terminator. *)
Theorem chunks_end_at_sentences :
  (forall text start target,
     0 <= start <= target -> target <= len text ->
     findSentenceEnd text start target = target
     \/ (start < findSentenceEnd text start target
         /\ target - 198 <= findSentenceEnd text start target <= target + 2
         /\ afterEnder text (findSentenceEnd text start target)))
  /\ (forall s fuel chunks c,
        chunkText fuel s 1000 200 = Some chunks -> In c chunks ->
        endChar c = startChar c + 1000
        \/ endChar c = len (cleanText s)
        \/ afterEnder (cleanText s) (endChar c)).
Proof.
  split; [exact findSentenceEnd_cases|].
  intros s fuel chunks c. unfold chunkText, chunkTextCounted.
  destruct (_ <=? 1000).
  - intros [= <-] [<-|[]]. right. left. reflexivity.
  - destruct (chunkLoop fuel _ _ _ _) as [[n st]|] eqn:El; [|discriminate].
    intros [= <-] Hc. apply chunkLoop_runSteps in El as [-> _].
    assert (Htrimmed : trimEnd (cleanText s) = cleanText s)
      by apply trim_trimEnd_fixed.
    pose proof (runSteps_invariant (cleanText s) 1000 200
                  (fun st =>
                     cursorOK st
                     /\ Forall (fun c =>
                                  endChar c = startChar c + 1000
                                  \/ endChar c = len (cleanText s)
                                  \/ afterEnder (cleanText s) (endChar c))
                          (st_chunks st))) as Hinv.
    destruct (Hinv
                (fun st Hrun Hst =>
                   conj (proj1 (step_progress (cleanText s) Htrimmed st
                                  (proj1 Hst) Hrun))
                        (chunkStep_endsOK (cleanText s) st
                           (conj (proj1 (proj1 Hst)) Hrun) (proj2 Hst)))
                n (mkState 0 0 [])) as [_ Hall].
    { split; [|constructor]. split; [simpl; lia|]. discriminate. }
    exact (proj1 (Forall_forall _ _) Hall c Hc).
Qed.

Example chunks_end_at_sentences_demo :
  findSentenceEnd (str "One. Two! Three? Four") 0 12 = 10
  /\ afterEnder (str "One. Two! Three? Four") 10.
Proof.
  split; [reflexivity|]. split; [vm_compute; split; discriminate|].
  vm_compute. right. left. reflexivity.
Qed.

(* ================================================================= *)
(** * Further properties of the vector utilities *)

(** ** Symmetry of the similarity *)

Section Symmetry.

Local Open Scope float_scope.

Lemma SFmul_comm (x y : spec_float) :
  SFmul prec emax x y = SFmul prec emax y x.
Proof.
  destruct x as [sx|sx| |sx mx ex], y as [sy|sy| |sy my ey];
    cbn [SFmul]; try reflexivity; try (now rewrite xorb_comm).
  now rewrite xorb_comm, Pos.mul_comm, Z.add_comm.
Qed.

Lemma float_mul_comm (a b : float) : a * b = b * a.
Proof.
  apply Prim2SF_inj. rewrite !mul_spec. apply SFmul_comm.
Qed.

Lemma accumulate_swap (vecA : list float) : forall vecB d na nb,
  accumulate vecB vecA d nb na
  = let '(d', na', nb') := accumulate vecA vecB d na nb in (d', nb', na').
Proof.
  induction vecA as [|a vecA IH]; intros [|b vecB] d na nb;
    cbn [accumulate]; try reflexivity.
  rewrite IH. cbn [nmul nadd float_Number].
  now rewrite (float_mul_comm b a).
Qed.

End Symmetry.

(** X11: the similarity is symmetric in binary64 arithmetic, not only in
    exact arithmetic: [cosineSimilarity] gives the same outcome, the same
    number or the same error, when its arguments are exchanged. *)
Theorem cosineSimilarity_symmetric (vecA vecB : list float) :
  cosineSimilarity vecA vecB = cosineSimilarity vecB vecA.
Proof.
  unfold cosineSimilarity. rewrite (Nat.eqb_sym (List.length vecB)).
  destruct (List.length vecA =? List.length vecB)%nat eqn:E; [|reflexivity].
  apply Nat.eqb_eq in E. rewrite <- E. cbn [negb].
  destruct (List.length vecA =? 0)%nat; [reflexivity|].
  rewrite (accumulate_swap vecA vecB).
  destruct (accumulate vecA vecB nzero nzero nzero) as [[d na] nb].
  rewrite orb_comm. cbn [nmul float_Number].
  now rewrite (float_mul_comm (nsqrt nb) (nsqrt na)).
Qed.

(** ** The best [k] *)

Section BestK.

Local Open Scope float_scope.

Lemma SFleb_rank (x y : spec_float) :
  x <> S754_nan -> y <> S754_nan ->
  SFleb x y = true <-> lexle (rank x) (rank y).
Proof.
  intros Hx Hy. unfold SFleb.
  destruct x as [sx|sx| |sx mx ex], y as [sy|sy| |sy my ey];
    try congruence;
    try (try destruct sx; try destruct sy; cbn; split; intros; try lia;
         try reflexivity; discriminate).
  cbn [SFcompare rank lexle].
  change (PosDef.Pos.compare_cont Eq mx my) with (Pos.compare mx my).
  destruct sx, sy;
    try (cbn; split; intros; try lia; try reflexivity; discriminate);
    destruct (Z.compare_spec ex ey); destruct (Pos.compare_spec mx my);
    cbn; split; intros; try lia; try reflexivity; try discriminate.
Qed.

Lemma lexle_trans (a b c : Z * Z * Z) : lexle a b -> lexle b c -> lexle a c.
Proof.
  destruct a as [[a1 a2] a3], b as [[b1 b2] b3], c as [[c1 c2] c3].
  unfold lexle. lia.
Qed.

Lemma float_leb_trans (a b c : float) :
  PrimFloat.is_nan a = false -> PrimFloat.is_nan b = false ->
  PrimFloat.is_nan c = false ->
  (a <=? b) = true -> (b <=? c) = true -> (a <=? c) = true.
Proof.
  intros Ha Hb Hc. rewrite !leb_spec.
  pose proof (Prim2SF_not_nan a Ha). pose proof (Prim2SF_not_nan b Hb).
  pose proof (Prim2SF_not_nan c Hc).
  rewrite !SFleb_rank by assumption. apply lexle_trans.
Qed.

Context {T : Type}.
Abbreviation scored := (T * float)%type.

Lemma insertSorted_perm (x : scored) (l : list scored) :
  Permutation (insertSorted x l) (x :: l).
Proof.
  induction l as [|y l IH]; [reflexivity|]. cbn [insertSorted].
  destruct (wantsAfter x y); [|reflexivity].
  rewrite IH. apply perm_swap.
Qed.

Lemma sortBySimilarity_perm (l : list scored) :
  Permutation (sortBySimilarity l) l.
Proof.
  induction l as [|x l IH]; [reflexivity|].
  cbn [sortBySimilarity fold_right]. fold (sortBySimilarity l).
  rewrite insertSorted_perm. now constructor.
Qed.

(** In a descending list without NaN the head is at least every other
    element. *)
Lemma chain_head (x : scored) (l : list scored) :
  Forall (fun p => PrimFloat.is_nan (snd p) = false) (x :: l) ->
  chain atLeast (x :: l) -> Forall (atLeast x) l.
Proof.
  revert x. induction l as [|y l IH]; intros x Hnan Hc; [constructor|].
  destruct Hc as [Hxy Hc].
  pose proof (Forall_inv Hnan) as Hx.
  pose proof (Forall_inv_tail Hnan) as Hrest.
  constructor; [exact Hxy|].
  specialize (IH y Hrest Hc).
  apply Forall_forall. intros z Hz.
  pose proof (proj1 (Forall_forall _ _) IH z Hz) as Hyz.
  pose proof (proj1 (Forall_forall _ _) Hrest z (or_intror Hz)) as Hzn.
  unfold atLeast in *.
  exact (float_leb_trans (snd z) (snd y) (snd x) Hzn (Forall_inv Hrest) Hx
           Hyz Hxy).
Qed.

Lemma chain_split (k : nat) : forall l : list scored,
  Forall (fun p => PrimFloat.is_nan (snd p) = false) l ->
  chain atLeast l ->
  forall p q, In p (firstn k l) -> In q (skipn k l) -> atLeast p q.
Proof.
  induction k as [|k IH]; intros l Hnan Hc p q Hp Hq; [destruct Hp|].
  destruct l as [|x l]; [destruct Hp|]. cbn [firstn skipn] in Hp, Hq.
  destruct Hp as [<-|Hp].
  - pose proof (chain_head x l Hnan Hc) as Hall.
    apply (proj1 (Forall_forall _ _) Hall).
    rewrite <- (firstn_skipn k l). apply in_or_app. now right.
  - exact (IH l (Forall_inv_tail Hnan) (chain_tail atLeast x l Hc) p q Hp Hq).
Qed.

(** Without NaN, a list in which no element is less than the next is
    one in which each element is at least the next. *)
Lemma descends_atLeast (l : list scored) :
  Forall (fun p => PrimFloat.is_nan (snd p) = false) l ->
  chain descends l -> chain atLeast l.
Proof.
  induction l as [|x [|y l] IH]; intros Hl Hc; try exact I.
  destruct Hc as [Hxy Hc]. split.
  - apply float_not_lt_ge;
      [exact (Forall_inv Hl)|exact (Forall_inv (Forall_inv_tail Hl))
      |exact Hxy].
  - exact (IH (Forall_inv_tail Hl) Hc).
Qed.

(** The similarities of the sorted list are those of the scored items:
    none is NaN when none of theirs is. *)
Lemma sorted_not_nan (embedding : T -> option (list float))
    (queryVector : list float) (kept : list T) (sc : list scored) :
  (forall item e s,
     In item kept -> embedding item = Some e ->
     cosineSimilarity queryVector e = Ok s -> PrimFloat.is_nan s = false) ->
  scoredFrom embedding queryVector kept sc ->
  Forall (fun p => PrimFloat.is_nan (snd p) = false) (sortBySimilarity sc).
Proof.
  intros Hnan [Hmap Hval]. apply Forall_forall. intros [item s] Hin.
  pose proof (proj1 (sortBySimilarity_In (item, s) sc) Hin) as Hin'.
  destruct (Hval item s Hin') as (e & He & Hs).
  apply (Hnan item e s); [|exact He|exact Hs].
  rewrite <- Hmap. now apply (in_map fst) in Hin'.
Qed.

End BestK.

(** X12: for [k >= 0], when the embeddings kept have the length of the
    query vector and no similarity is NaN, [findTopKSimilar] returns the
    best [k]: it returns [min k n] of the [n] kept items, the pairs
    returned and the pairs left out are together the kept items with their
    similarities, each once, and no pair left out has a greater similarity
    than a pair returned. *)
Theorem findTopKSimilar_best {T : Type} (embedding : T -> option (list float))
    (queryVector : list float) (items : list T) (k : Z) :
  (0 <= k)%Z ->
  (forall item e,
     In item (List.filter (hasEmbedding embedding) items) ->
     embedding item = Some e -> List.length e = List.length queryVector) ->
  (forall item e s,
     In item (List.filter (hasEmbedding embedding) items) ->
     embedding item = Some e -> cosineSimilarity queryVector e = Ok s ->
     PrimFloat.is_nan s = false) ->
  exists withScores out rest,
    scoredFrom embedding queryVector
      (List.filter (hasEmbedding embedding) items) withScores
    /\ findTopKSimilar embedding queryVector items k = Ok out
    /\ List.length out
       = Nat.min (Z.to_nat k)
           (List.length (List.filter (hasEmbedding embedding) items))
    /\ Permutation (out ++ rest) withScores
    /\ forall p q, In p out -> In q rest ->
                   (snd q <=? snd p)%float = true.
Proof.
  intros Hk Hdim Hnan.
  set (kept := List.filter (hasEmbedding embedding) items) in *.
  destruct (score_ok embedding queryVector kept) as (sc & Hsc & Hfrom).
  { intros item Hin.
    pose proof (proj2 (proj1 (filter_In _ _ _) Hin)) as Hhas.
    unfold hasEmbedding in Hhas.
    destruct (embedding item) as [e|] eqn:Ee; [|discriminate].
    exists e. split; [reflexivity|]. now apply (Hdim item e). }
  exists sc, (firstn (Z.to_nat k) (sortBySimilarity sc)),
    (skipn (Z.to_nat k) (sortBySimilarity sc)).
  split; [exact Hfrom|]. split; [|split; [|split]].
  - unfold findTopKSimilar. fold kept. rewrite Hsc.
    now rewrite (slice0_firstn _ k Hk).
  - rewrite length_firstn, sortBySimilarity_length.
    destruct Hfrom as [Hmap _].
    now rewrite <- Hmap, length_map.
  - rewrite firstn_skipn. apply sortBySimilarity_perm.
  - pose proof (sorted_not_nan embedding queryVector kept sc Hnan Hfrom)
      as Hall.
    pose proof (descends_atLeast _ Hall (sortBySimilarity_chain sc))
      as Hchain.
    intros p q Hp Hq.
    exact (chain_split (Z.to_nat k) _ Hall Hchain p q Hp Hq).
Qed.

Lemma findTopKSimilar_best_witness :
  (0 <= 2)%Z
  /\ exists out rest : list (list float * float),
       findTopKSimilar (fun e : list float => Some e) [1; 0]%float
         [[0; 1]; [1; 1]; []; [1; 0]; [2; 2]]%float 2 = Ok out
       /\ List.map fst out = [[1; 0]; [1; 1]]%float
       /\ List.length rest = 2%nat
       /\ forall p q, In p out -> In q rest ->
                      (snd q <=? snd p)%float = true.
Proof.
  split; [lia|].
  destruct (findTopKSimilar_best (fun e : list float => Some e)
              [1; 0]%float [[0; 1]; [1; 1]; []; [1; 0]; [2; 2]]%float 2
              ltac:(lia))
    as (sc & out & rest & [Hmap _] & Hout & _ & Hperm & Hbest).
  - intros item e Hin [= ->]. simpl in Hin.
    intuition (subst; reflexivity).
  - intros item e s Hin [= ->] Hs. simpl in Hin.
    destruct Hin as [<-|[<-|[<-|[<-|[]]]]];
      vm_compute in Hs; injection Hs as <-; reflexivity.
  - exists out, rest. split; [exact Hout|].
    assert (Hlen : List.length out = 2%nat).
    { vm_compute in Hout. injection Hout as <-. reflexivity. }
    split; [vm_compute in Hout; injection Hout as <-; reflexivity|].
    split; [|exact Hbest].
    apply Permutation_length in Hperm. rewrite length_app, Hlen in Hperm.
    rewrite <- (length_map fst sc), Hmap in Hperm. simpl in Hperm. lia.
Defined.

(** ** Normalization and distance *)

Section GenericVectors.
Context {F : Type} `{Number F}.

Lemma normalizeVector_length (vec : list F) :
  List.length (normalizeVector vec) = List.length vec.
Proof.
  unfold normalizeVector. destruct (neqb _ _); [reflexivity|].
  apply length_map.
Qed.

Lemma euclideanDistance_mismatch (vecA vecB : list F) :
  List.length vecA <> List.length vecB ->
  euclideanDistance vecA vecB = Throw "Vectors must have the same dimension".
Proof.
  intros Hne. unfold euclideanDistance.
  apply Nat.eqb_neq in Hne. now rewrite Hne.
Qed.

End GenericVectors.

Section FloatVectors.

Lemma sumOfSquares_zero (vec : list float) :
  Forall isZero vec -> sumOfSquares vec = 0%float.
Proof.
  unfold sumOfSquares. cbn [nzero float_Number].
  induction 1 as [|x vec Hx _ IH]; [reflexivity|].
  cbn [fold_left]. destruct Hx as [-> | ->]; exact IH.
Qed.

End FloatVectors.

Section RealVectors.

Local Open Scope R_scope.

Local Abbreviation addSquare := (fun sum val : R => sum + val * val).

Lemma fold_squares_ge (vec : list R) : forall acc,
  acc <= fold_left addSquare vec acc.
Proof.
  induction vec as [|x vec IH]; intros acc; cbn [fold_left]; [lra|].
  pose proof (IH (acc + x * x)). pose proof (Rle_0_sqr x) as Hx.
  unfold Rsqr in Hx. lra.
Qed.

Lemma fold_squares_pos (vec : list R) : forall acc,
  (exists x, In x vec /\ x <> 0) -> acc < fold_left addSquare vec acc.
Proof.
  induction vec as [|x vec IH]; intros acc (y & Hin & Hy); [destruct Hin|].
  cbn [fold_left]. destruct Hin as [->|Hin].
  - pose proof (fold_squares_ge vec (acc + y * y)).
    pose proof (Rsqr_pos_lt y Hy) as Hpos. unfold Rsqr in Hpos. lra.
  - pose proof (IH (acc + x * x) (ex_intro _ y (conj Hin Hy))).
    pose proof (Rle_0_sqr x) as Hx. unfold Rsqr in Hx. lra.
Qed.

Lemma fold_squares_zero (vec : list R) : forall acc,
  Forall (fun x => x = 0) vec -> fold_left addSquare vec acc = acc.
Proof.
  induction vec as [|x vec IH]; intros acc Hall; [reflexivity|].
  cbn [fold_left]. rewrite (Forall_inv Hall).
  rewrite (IH _ (Forall_inv_tail Hall)). lra.
Qed.

Lemma fold_squares_scale (n : R) (vec : list R) : forall acc,
  n <> 0 ->
  fold_left addSquare (List.map (fun val => val / n) vec) (acc / (n * n))
  = fold_left addSquare vec acc / (n * n).
Proof.
  induction vec as [|x vec IH]; intros acc Hn; [reflexivity|].
  cbn [List.map fold_left]. rewrite <- (IH (acc + x * x) Hn).
  f_equal. field. exact Hn.
Qed.

Lemma real_neqb_zero (x : R) : neqb x nzero = true <-> x = 0.
Proof.
  cbn [neqb nzero real_Number].
  destruct (Req_dec_T x 0); split; intros; try lra; try reflexivity;
    discriminate.
Qed.

Lemma sumSquaredDiffs_ge (vecA : list R) : forall vecB acc,
  acc <= sumSquaredDiffs vecA vecB acc.
Proof.
  induction vecA as [|a vecA IH]; intros [|b vecB] acc;
    cbn [sumSquaredDiffs]; try lra.
  cbn [nadd nmul nsub real_Number].
  pose proof (IH vecB (acc + (a - b) * (a - b))).
  pose proof (Rle_0_sqr (a - b)) as Hx. unfold Rsqr in Hx. lra.
Qed.

Lemma sumSquaredDiffs_zero (vecA : list R) : forall vecB acc,
  List.length vecA = List.length vecB ->
  sumSquaredDiffs vecA vecB acc = acc <-> vecA = vecB.
Proof.
  induction vecA as [|a vecA IH]; intros [|b vecB] acc Hlen;
    try discriminate; cbn [sumSquaredDiffs]; [tauto|].
  cbn [nadd nmul nsub real_Number]. injection Hlen as Hlen.
  pose proof (sumSquaredDiffs_ge vecA vecB (acc + (a - b) * (a - b))) as Hge.
  pose proof (Rle_0_sqr (a - b)) as Hx. unfold Rsqr in Hx.
  split.
  - intros Hz.
    assert (Hab : (a - b) * (a - b) = 0) by lra.
    apply Rmult_integral in Hab.
    assert (a = b) by lra. subst b. f_equal.
    apply (IH vecB (acc + (a - a) * (a - a)) Hlen). lra.
  - intros [= -> ->].
    rewrite (proj2 (IH vecB (acc + (b - b) * (b - b)) Hlen) eq_refl). lra.
Qed.

Lemma sumSquaredDiffs_sym (vecA : list R) : forall vecB acc,
  sumSquaredDiffs vecB vecA acc = sumSquaredDiffs vecA vecB acc.
Proof.
  induction vecA as [|a vecA IH]; intros [|b vecB] acc;
    cbn [sumSquaredDiffs]; try reflexivity.
  cbn [nadd nmul nsub real_Number]. rewrite IH. f_equal. ring.
Qed.

End RealVectors.

(** X13: [normalizeVector] keeps the length of the vector and returns a
    vector of zeros as it is; in exact arithmetic the result for any other
    vector has the sum of squares 1, and normalizing it again changes
    nothing.  In binary64 arithmetic this can fail at the ends of the
    range: a vector whose squares underflow is returned as it is, and one
    whose squares overflow becomes a vector of zeros. *)
Theorem normalizeVector_spec :
  (forall vec : list float,
     List.length (normalizeVector vec) = List.length vec)
  /\ (forall vec : list float,
        Forall isZero vec -> normalizeVector vec = vec)
  /\ (forall vec : list R,
        (exists x, In x vec /\ x <> 0%R) ->
        sumOfSquares (normalizeVector vec) = 1%R
        /\ normalizeVector (normalizeVector vec) = normalizeVector vec)
  /\ normalizeVector [0x1p-600]%float = [0x1p-600]%float
  /\ normalizeVector [0x1p+600; 1]%float = [0; 0]%float.
Proof.
  split; [exact normalizeVector_length|]. split; [|split; [|now split]].
  - intros vec Hz. unfold normalizeVector.
    now rewrite (sumOfSquares_zero vec Hz).
  - intros vec Hnz.
    assert (Hpos : (0 < sumOfSquares vec)%R)
      by exact (fold_squares_pos vec 0%R Hnz).
    assert (Hnorm : (0 < sqrt (sumOfSquares vec))%R)
      by now apply sqrt_lt_R0.
    assert (Hunit : sumOfSquares (normalizeVector vec) = 1%R).
    { unfold normalizeVector. cbn [nsqrt real_Number].
      destruct (neqb _ _) eqn:E; [apply real_neqb_zero in E; lra|].
      unfold sumOfSquares. cbn [nadd nmul ndiv nzero real_Number].
      replace 0%R
        with (0 / (sqrt (sumOfSquares vec) * sqrt (sumOfSquares vec)))%R
        at 1 by (field; lra).
      rewrite fold_squares_scale by lra.
      rewrite sqrt_sqrt by lra. unfold sumOfSquares in *.
      cbn [nadd nmul nzero real_Number] in *. field. lra. }
    split; [exact Hunit|].
    unfold normalizeVector at 1. rewrite Hunit.
    cbn [nsqrt real_Number]. rewrite sqrt_1.
    destruct (neqb _ _); [reflexivity|].
    cbn [ndiv real_Number].
    rewrite <- (map_id (normalizeVector vec)) at 2.
    apply map_ext. intros x. field.
Qed.

(** X14: [euclideanDistance] fails with the dimension error exactly when
    the vectors differ in length; in exact arithmetic the distance of two
    vectors of one length is not negative, is zero only between a vector
    and itself, and does not depend on the order of the arguments. *)
Theorem euclideanDistance_spec :
  (forall vecA vecB : list float,
     List.length vecA <> List.length vecB ->
     euclideanDistance vecA vecB
     = Throw "Vectors must have the same dimension")
  /\ (forall vecA vecB : list float,
        List.length vecA = List.length vecB ->
        exists d, euclideanDistance vecA vecB = Ok d)
  /\ (forall vecA vecB : list R,
        List.length vecA = List.length vecB ->
        exists d,
          euclideanDistance vecA vecB = Ok d
          /\ (0 <= d)%R
          /\ (d = 0%R <-> vecA = vecB)
          /\ euclideanDistance vecB vecA = Ok d).
Proof.
  split; [exact euclideanDistance_mismatch|]. split.
  - intros vecA vecB Hlen. unfold euclideanDistance.
    apply Nat.eqb_eq in Hlen. rewrite Hlen. eexists. reflexivity.
  - intros vecA vecB Hlen. unfold euclideanDistance.
    rewrite (proj2 (Nat.eqb_eq _ _) Hlen).
    rewrite (proj2 (Nat.eqb_eq _ _) (eq_sym Hlen)). cbn [negb].
    rewrite (sumSquaredDiffs_sym vecA vecB).
    cbn [nsqrt nzero real_Number].
    pose proof (sumSquaredDiffs_ge vecA vecB 0%R) as Hge.
    eexists. split; [reflexivity|]. split; [apply sqrt_pos|].
    split; [|reflexivity]. split.
    + intros Hz. apply sqrt_eq_0 in Hz; [|exact Hge].
      now apply (sumSquaredDiffs_zero vecA vecB 0%R Hlen).
    + intros Heq.
      rewrite (proj2 (sumSquaredDiffs_zero vecA vecB 0%R Hlen) Heq).
      apply sqrt_0.
Qed.

(* ================================================================= *)
(** * Further properties of the pipelines *)

(** ** The outcomes of the two services *)

(** X15: an embedding that [generateEmbedding] returns is the first entry
    of the answer of the embedding service and has exactly 1024
    dimensions; the call never returns [null], and without an API key it
    fails before the service is asked.  Every failure carries one of three
    messages. *)
Theorem generateEmbedding_outcome (w : World) (text : jsstring) :
  (forall r, generateEmbedding w text = Ok r ->
     exists e, r = Some e /\ List.length e = 1024%nat
               /\ voyageApiKey w = true
               /\ voyage w text = VoyageBody (Some e))
  /\ (voyageApiKey w = false ->
      generateEmbedding w text
      = Throw "Failed to generate embedding: VOYAGE_API_KEY is not configured")
  /\ (forall m, generateEmbedding w text = Throw m ->
        m = "Voyage AI API key is invalid"%string
        \/ m = "Voyage AI rate limit exceeded"%string
        \/ exists detail,
             m = ("Failed to generate embedding: " ++ detail)%string).
Proof.
  unfold generateEmbedding, failed.
  destruct (voyageApiKey w); cbn [negb].
  - split; [|split; [discriminate|]].
    + intros r Hr.
      destruct (voyage w text) as [[e|]|status m|m]; try discriminate.
      * destruct (Z.of_nat (List.length e) =? 1024) eqn:E; cbn [negb] in Hr;
          [|discriminate].
        injection Hr as <-. exists e. apply Z.eqb_eq in E.
        repeat split; lia.
      * destruct (status =? 401); [discriminate|].
        destruct (status =? 429); discriminate.
    + intros m Hm.
      destruct (voyage w text) as [[e|]|status d|d].
      * destruct (Z.of_nat (List.length e) =? 1024); cbn [negb] in Hm;
          [discriminate|].
        injection Hm as <-. right. right. eexists. reflexivity.
      * injection Hm as <-. right. right. eexists. reflexivity.
      * destruct (status =? 401); [injection Hm as <-; now left|].
        destruct (status =? 429); injection Hm as <-;
          [right; now left|right; right; eexists; reflexivity].
      * injection Hm as <-. right. right. eexists. reflexivity.
  - split; [discriminate|]. split; [reflexivity|].
    intros m [= <-]. right. right. eexists. reflexivity.
Qed.

(** X16: a text that [generateAIResponse] returns is the text of the
    generation service and is not blank.  Without an API key the call fails
    with the message for an invalid key, as it does for every error of the
    service whose message mentions [API_KEY], whatever else the message
    says. *)
Theorem generateAIResponse_outcome (w : World) (question : jsstring)
    (context : list Document) (language mode : jsstring) :
  (forall t,
     generateAIResponse w question context language mode = Ok t ->
     gemini w (buildPrompt question context language mode) = GeminiText t
     /\ 0 < len (trim t))
  /\ (geminiApiKey w = false ->
      generateAIResponse w question context language mode
      = Throw "Gemini API key is invalid or missing")
  /\ (forall m,
        geminiApiKey w = true ->
        gemini w (buildPrompt question context language mode)
        = GeminiError m ->
        includes m "API_KEY" = true ->
        generateAIResponse w question context language mode
        = Throw "Gemini API key is invalid or missing").
Proof.
  unfold generateAIResponse.
  destruct (geminiApiKey w); cbn [negb].
  - split; [|split; [discriminate|]].
    + intros t Ht.
      destruct (gemini w _) as [t'|m]; [|unfold rethrow in Ht;
        repeat (destruct (includes m _); [discriminate|]); discriminate].
      destruct ((len t' =? 0) || (len (trim t') =? 0)) eqn:E;
        [discriminate|].
      injection Ht as <-. split; [reflexivity|].
      apply orb_false_iff in E as [_ E]. apply Z.eqb_neq in E.
      pose proof (len_nonneg (trim t')). lia.
    + intros m _ Hg Hin. rewrite Hg. unfold rethrow. now rewrite Hin.
  - split; [discriminate|]. split; [reflexivity|discriminate].
Qed.

(** ** Requests that fail *)

(** X17: [askQuestion] answers with status 200, 400, 401 or 500, and a
    request that is not answered with 200 leaves the chat histories as
    they were; status 500 carries the message of the failed generation
    step. *)
Theorem askQuestion_failure_keeps_history (w : World) (hs : Histories)
    (req : AskRequest) :
  match fst (askQuestion w hs req) with
  | Success status _ => status = 200
  | Failure status _ error =>
      snd (askQuestion w hs req) = hs
      /\ (status = 400 \/ status = 401
          \/ (status = 500
              /\ exists question m,
                   req_question req = Some question
                   /\ generateAIResponse w question (retrieve w question)
                        (orDefault (req_language req) "en")
                        (orDefault (req_mode req) "general") = Throw m
                   /\ error = Some m))
  end.
Proof.
  unfold askQuestion.
  destruct (req_validationErrors req);
    [|cbn; split; [reflexivity|now left]].
  destruct (req_user req) as [u|];
    [|cbn; split; [reflexivity|right; now left]].
  destruct (req_question req) as [question|];
    [|cbn; split; [reflexivity|now left]].
  destruct (_ || _); [cbn; split; [reflexivity|now left]|].
  destruct (_ >? 1000); [cbn; split; [reflexivity|now left]|].
  destruct (generateAIResponse w question _ _ _) as [a|m] eqn:Eg.
  - destruct (recordExchange _ _ _ _ _ _ _ _ _). reflexivity.
  - cbn. split; [reflexivity|]. right. right. split; [reflexivity|].
    exists question, m. now repeat split.
Qed.

(** ** Chat sessions *)

Section Sessions.

Lemma jsEqb_refl (s : jsstring) : jsEqb s s = true.
Proof.
  induction s as [|c s IH]; [reflexivity|]. cbn [jsEqb].
  now rewrite N.eqb_refl.
Qed.

Lemma jsEqb_eq (s : jsstring) : forall t, jsEqb s t = true -> s = t.
Proof.
  induction s as [|c s IH]; intros [|d t] E; try discriminate;
    [reflexivity|].
  cbn [jsEqb] in E. apply andb_true_iff in E as [Ec E].
  apply N.eqb_eq in Ec. subst d. f_equal. now apply IH.
Qed.

Lemma isSession_spec (userId sessionId : jsstring) (h : ChatHistory) :
  isSession userId sessionId h = true
  <-> ch_userId h = userId /\ ch_sessionId h = sessionId
      /\ isActive h = true.
Proof.
  unfold isSession. rewrite !andb_true_iff. split.
  - intros [[Hu Hs] Ha]. apply jsEqb_eq in Hu, Hs. now repeat split.
  - intros (<- & <- & Ha). now rewrite !jsEqb_refl.
Qed.

(** A record of one session is no record of another. *)
Lemma isSession_other (u s u' s' : jsstring) (h : ChatHistory) :
  isSession u s h = true -> u' <> u \/ s' <> s ->
  isSession u' s' h = false.
Proof.
  intros Hh Hne. destruct (isSession u' s' h) eqn:E; [|reflexivity].
  apply isSession_spec in Hh as (Hu & Hs & _).
  apply isSession_spec in E as (Hu' & Hs' & _).
  destruct Hne; congruence.
Qed.

Variables (u s : jsstring) (h' : ChatHistory).
Hypothesis Hh' : isSession u s h' = true.

Lemma find_saveHistory_same (hs : Histories) :
  List.find (isSession u s) (saveHistory u s h' hs) = Some h'.
Proof.
  induction hs as [|h hs IH]; cbn [saveHistory List.find].
  - now rewrite Hh'.
  - destruct (isSession u s h) eqn:E; cbn [List.find].
    + now rewrite Hh'.
    + now rewrite E.
Qed.

Lemma find_saveHistory_other (u' s' : jsstring) (hs : Histories) :
  u' <> u \/ s' <> s ->
  List.find (isSession u' s') (saveHistory u s h' hs)
  = List.find (isSession u' s') hs.
Proof.
  intros Hne. pose proof (isSession_other u s u' s' h' Hh' Hne) as Hno.
  induction hs as [|h hs IH]; cbn [saveHistory List.find].
  - now rewrite Hno.
  - destruct (isSession u s h) eqn:E; cbn [List.find].
    + now rewrite Hno, (isSession_other u s u' s' h E Hne).
    + now rewrite IH.
Qed.

Lemma count_saveHistory_same (hs : Histories) :
  List.length (List.filter (isSession u s) (saveHistory u s h' hs))
  = Nat.max 1 (List.length (List.filter (isSession u s) hs)).
Proof.
  induction hs as [|h hs IH]; cbn [saveHistory List.filter].
  - now rewrite Hh'.
  - destruct (isSession u s h) eqn:E; cbn [List.filter].
    + rewrite Hh'. cbn [List.length]. lia.
    + now rewrite E.
Qed.

Lemma count_saveHistory_other (u' s' : jsstring) (hs : Histories) :
  u' <> u \/ s' <> s ->
  List.length (List.filter (isSession u' s') (saveHistory u s h' hs))
  = List.length (List.filter (isSession u' s') hs).
Proof.
  intros Hne. pose proof (isSession_other u s u' s' h' Hh' Hne) as Hno.
  induction hs as [|h hs IH]; cbn [saveHistory List.filter].
  - now rewrite Hno.
  - destruct (isSession u s h) eqn:E; cbn [List.filter].
    + now rewrite Hno, (isSession_other u s u' s' h E Hne).
    + destruct (isSession u' s' h); cbn [List.length]; now rewrite IH.
Qed.

Lemma saveHistory_unique (hs : Histories) :
  uniqueSessions hs -> uniqueSessions (saveHistory u s h' hs).
Proof.
  intros Huniq u' s'.
  destruct (list_eq_dec N.eq_dec u' u) as [->|Hu].
  - destruct (list_eq_dec N.eq_dec s' s) as [->|Hs].
    + rewrite count_saveHistory_same. pose proof (Huniq u s). lia.
    + rewrite count_saveHistory_other by now right. apply Huniq.
  - rewrite count_saveHistory_other by now left. apply Huniq.
Qed.

End Sessions.

(** What the history step of [askQuestion] leaves in the store. *)
Lemma recordExchange_cases (w : World) (hs : Histories)
    (userId sessionId question aiResponse language mode : jsstring)
    (docs : list Document) :
  snd (recordExchange w hs userId sessionId question aiResponse language
         mode docs) = hs
  \/ exists h',
       isSession userId sessionId h' = true
       /\ messages h'
          = messagesOf userId sessionId hs
            ++ exchange w question aiResponse docs
       /\ historyFindOne w = Ok tt /\ historySave w = Ok tt
       /\ snd (recordExchange w hs userId sessionId question aiResponse
                 language mode docs)
          = saveHistory userId sessionId h' hs.
Proof.
  unfold recordExchange, messagesOf.
  destruct (historyFindOne w) as [[]|m]; [|now left].
  destruct (historySave w) as [[]|m]; [|now left].
  right. eexists. split; [|split; [|split; [reflexivity|
    split; reflexivity]]].
  - destruct (List.find (isSession userId sessionId) hs) as [h|] eqn:E.
    + apply find_some in E as [_ E].
      apply isSession_spec in E as (Hu & Hs & Ha).
      apply isSession_spec. cbn. now repeat split.
    + apply isSession_spec. now repeat split.
  - cbn [messages].
    destruct (List.find (isSession userId sessionId) hs); reflexivity.
Qed.

Lemma recordExchange_ok (w : World) (hs : Histories)
    (userId sessionId question aiResponse language mode : jsstring)
    (docs : list Document) :
  historyFindOne w = Ok tt -> historySave w = Ok tt ->
  exists h',
    isSession userId sessionId h' = true
    /\ messages h'
       = messagesOf userId sessionId hs ++ exchange w question aiResponse docs
    /\ snd (recordExchange w hs userId sessionId question aiResponse
              language mode docs)
       = saveHistory userId sessionId h' hs.
Proof.
  intros Hfind Hsave. unfold recordExchange, messagesOf.
  rewrite Hfind, Hsave. eexists. split; [|split; [|reflexivity]].
  - destruct (List.find (isSession userId sessionId) hs) as [h|] eqn:E.
    + apply find_some in E as [_ E].
      apply isSession_spec in E as (Hu & Hs & Ha).
      apply isSession_spec. cbn. now repeat split.
    + apply isSession_spec. now repeat split.
  - cbn [messages].
    destruct (List.find (isSession userId sessionId) hs); reflexivity.
Qed.

(** X18: when a valid question is answered and the history store works,
    the exchange is recorded: the session of the answer can be read back
    with [getChatSession], and its messages are those it had before
    followed by the question and the answer with its citations; the
    records of every other user or session are as they were.  Whatever the
    request and its outcome, [askQuestion] keeps at most one active record
    per user and session. *)
Theorem askQuestion_records_exchange (w : World) (hs : Histories)
    (req : AskRequest) :
  (forall u question aiResponse,
     validQuestion req u question ->
     generateAIResponse w question (retrieve w question)
       (orDefault (req_language req) "en")
       (orDefault (req_mode req) "general") = Ok aiResponse ->
     historyFindOne w = Ok tt -> historySave w = Ok tt ->
     let sid := resolveSessionId w u (req_sessionId req) in
     let hs' := snd (askQuestion w hs req) in
     (exists h',
        getChatSession w hs' (Some u) sid = Success 200 h'
        /\ messages h'
           = messagesOf (user_id u) sid hs
             ++ exchange w question aiResponse (retrieve w question))
     /\ forall userId sessionId,
          userId <> user_id u \/ sessionId <> sid ->
          List.find (isSession userId sessionId) hs'
          = List.find (isSession userId sessionId) hs)
  /\ (uniqueSessions hs -> uniqueSessions (snd (askQuestion w hs req))).
Proof.
  split.
  - intros u question aiResponse Hvalid Hgen Hfind Hsave sid hs'.
    unfold hs'. rewrite (askQuestion_valid w hs req u question Hvalid).
    rewrite Hgen. cbn [snd]. fold sid.
    destruct (recordExchange_ok w hs (user_id u) sid question aiResponse
                (orDefault (req_language req) "en")
                (orDefault (req_mode req) "general") (retrieve w question)
                Hfind Hsave)
      as (h' & Hh' & Hm & Hs).
    rewrite Hs. split.
    + exists h'. split; [|exact Hm]. unfold getChatSession.
      rewrite Hfind. now rewrite (find_saveHistory_same _ _ _ Hh').
    + intros userId sessionId Hne.
      now apply find_saveHistory_other.
  - intros Huniq. unfold askQuestion.
    destruct (req_validationErrors req); [|exact Huniq].
    destruct (req_user req) as [u|]; [|exact Huniq].
    destruct (req_question req) as [question|]; [|exact Huniq].
    destruct (_ || _); [exact Huniq|].
    destruct (_ >? 1000); [exact Huniq|].
    destruct (generateAIResponse w question _ _ _) as [a|m];
      [|exact Huniq].
    match goal with
    | |- context [recordExchange ?w ?hs ?a ?b ?c ?d ?e ?f ?g] =>
        destruct (recordExchange_cases w hs a b c d e f g)
          as [Hsame|(h' & Hh' & _ & _ & _ & Hs)];
        destruct (recordExchange w hs a b c d e f g) as [r hs1]
    end; cbn [snd] in *; subst hs1; [exact Huniq|].
    now apply saveHistory_unique.
Qed.

Section Deactivation.

Variables (u s : jsstring).

Lemma isSession_deactivated (u' s' : jsstring) (h : ChatHistory) :
  isSession u' s' (deactivated h) = false.
Proof. unfold isSession, deactivated. cbn. now rewrite andb_false_r. Qed.

Lemma deactivate_none (hs : Histories) :
  List.find (isSession u s) hs = None -> deactivate u s hs = None.
Proof.
  induction hs as [|h hs IH]; [reflexivity|]. cbn [List.find deactivate].
  destruct (isSession u s h); [discriminate|].
  intros E. now rewrite (IH E).
Qed.

Lemma deactivate_found (hs : Histories) : forall h,
  List.find (isSession u s) hs = Some h ->
  exists hs',
    deactivate u s hs = Some hs'
    /\ List.map messages hs' = List.map messages hs
    /\ S (List.length (List.filter (isSession u s) hs'))
       = List.length (List.filter (isSession u s) hs)
    /\ forall u' s',
         u' <> u \/ s' <> s ->
         List.find (isSession u' s') hs' = List.find (isSession u' s') hs
         /\ List.length (List.filter (isSession u' s') hs')
            = List.length (List.filter (isSession u' s') hs).
Proof.
  induction hs as [|h0 hs IH]; intros h; [discriminate|].
  cbn [List.find deactivate].
  destruct (isSession u s h0) eqn:E.
  - intros [= <-]. eexists. split; [reflexivity|].
    split; [reflexivity|]. split.
    + cbn [List.filter]. rewrite isSession_deactivated, E. reflexivity.
    + intros u' s' Hne. cbn [List.find List.filter].
      rewrite isSession_deactivated.
      now rewrite (isSession_other u s u' s' h0 E Hne).
  - intros Hf. destruct (IH h Hf) as (hs' & -> & Hm & Hc & Ho).
    eexists. split; [reflexivity|]. split; [|split].
    + cbn [List.map]. now rewrite Hm.
    + cbn [List.filter]. now rewrite E.
    + intros u' s' Hne. destruct (Ho u' s' Hne) as [Hf' Hc'].
      cbn [List.find List.filter].
      destruct (isSession u' s' h0); cbn [List.length];
        split; congruence.
Qed.

Lemma find_none_of_count (hs : Histories) :
  List.length (List.filter (isSession u s) hs) = O ->
  List.find (isSession u s) hs = None.
Proof.
  induction hs as [|h hs IH]; [reflexivity|]. cbn [List.filter List.find].
  destruct (isSession u s h); [discriminate|exact IH].
Qed.

End Deactivation.

(** X19: [deleteChatSession] deletes softly.  When the user has an active
    record of the session, the call succeeds and only marks it inactive:
    no message is removed from the store, and the records of other users
    and sessions are as they were; with at most one active record per user
    and session before, the session is no longer found afterwards (so
    [getChatSession] answers 404 and a later question under the same
    session identifier starts a new record).  When there is no such
    record, also because it belongs to another user, the answer is 404 and
    the store is unchanged. *)
Theorem deleteChatSession_soft (hs : Histories) (u : UserPayload)
    (sid : jsstring) :
  (forall h,
     List.find (isSession (user_id u) sid) hs = Some h ->
     exists hs',
       deleteChatSession (Ok tt) hs (Some u) sid = (Success 200 tt, hs')
       /\ List.map messages hs' = List.map messages hs
       /\ (forall userId sessionId,
             userId <> user_id u \/ sessionId <> sid ->
             List.find (isSession userId sessionId) hs'
             = List.find (isSession userId sessionId) hs)
       /\ (uniqueSessions hs ->
           uniqueSessions hs'
           /\ messagesOf (user_id u) sid hs' = []
           /\ forall w,
                historyFindOne w = Ok tt ->
                getChatSession w hs' (Some u) sid
                = Failure 404 "Chat session not found" None))
  /\ (List.find (isSession (user_id u) sid) hs = None ->
      deleteChatSession (Ok tt) hs (Some u) sid
      = (Failure 404 "Chat session not found" None, hs)).
Proof.
  split.
  - intros h Hf.
    destruct (deactivate_found (user_id u) sid hs h Hf)
      as (hs' & Hd & Hm & Hc & Ho).
    exists hs'. unfold deleteChatSession. rewrite Hd.
    split; [reflexivity|]. split; [exact Hm|].
    split; [intros a b Hne; exact (proj1 (Ho a b Hne))|].
    intros Huniq.
    assert (Hnone : List.find (isSession (user_id u) sid) hs' = None).
    { apply find_none_of_count. pose proof (Huniq (user_id u) sid). lia. }
    split; [|split].
    + intros a b.
      destruct (list_eq_dec N.eq_dec a (user_id u)) as [->|Ha];
        [destruct (list_eq_dec N.eq_dec b sid) as [->|Hb]|].
      * pose proof (Huniq (user_id u) sid). lia.
      * rewrite (proj2 (Ho (user_id u) b (or_intror Hb))). apply Huniq.
      * rewrite (proj2 (Ho a b (or_introl Ha))). apply Huniq.
    + unfold messagesOf. now rewrite Hnone.
    + intros w Hw. unfold getChatSession. now rewrite Hw, Hnone.
  - intros Hf. unfold deleteChatSession.
    now rewrite (deactivate_none (user_id u) sid hs Hf).
Qed.

(** A question asked, read back, deleted and read again. *)
Example session_life_cycle :
  let hs := snd (askQuestion demoWorld [] demoRequest) in
  let sid := str "session_u7_1700000000000" in
  (exists h,
     getChatSession demoWorld hs (Some demoUser) sid = Success 200 h
     /\ List.map msg_content (messages h)
        = [demoQuestion; str "Please ask the registrar."])
  /\ exists hs',
       deleteChatSession (Ok tt) hs (Some demoUser) sid
       = (Success 200 tt, hs')
       /\ getChatSession demoWorld hs' (Some demoUser) sid
          = Failure 404 "Chat session not found" None
       /\ List.length hs' = 1%nat.
Proof.
  vm_compute. split; eexists; repeat split; reflexivity.
Qed.

(** ** What ingestion stores *)

Section Stored.

Variable w : World.

Lemma create_appends (db : Collection) (fields : NewDocument) r db' :
  create w db fields = (r, db') ->
  db' = db
  \/ db' = db ++ [mkStored (Z.of_nat (List.length db)) (now w)
                    (applySetters fields)].
Proof.
  unfold create. cbv zeta.
  destruct (documentCreate w _); intros [= <- <-]; [now right|now left].
Qed.

(** The chunks of a text longer than the chunk size are not empty and
    have at most 1002 characters. *)
Lemma chunkText_texts (fuel : nat) (s : jsstring)
    (chunks : list TextChunk) :
  1000 < len (cleanText s) ->
  chunkText fuel s 1000 200 = Some chunks ->
  Forall (fun c => 0 < len (text c) <= 1002) chunks.
Proof.
  intros Hlong. unfold chunkText, chunkTextCounted.
  destruct (_ <=? 1000) eqn:E; [apply Z.leb_le in E; lia|].
  destruct (chunkLoop fuel _ _ _ _) as [[n st]|] eqn:El; [|discriminate].
  intros [= <-]. apply chunkLoop_runSteps in El as [-> _].
  pose proof (runSteps_fitsWindow (cleanText s) 1000 200 n (mkState 0 0 [])
                ltac:(lia) (Forall_nil _)) as Hfit.
  pose proof (runSteps_invariant (cleanText s) 1000 200
                (fun st => Forall (fun c => trimmedSlice (cleanText s) c
                                            /\ 0 < len (text c))
                             (st_chunks st))
                (fun st _ => chunkStep_trimmedSlice _ _ _ st)
                n (mkState 0 0 []) (Forall_nil _)) as Hcut.
  apply Forall_forall. intros c Hc.
  pose proof (proj1 (Forall_forall _ _) Hfit c Hc) as H1.
  pose proof (proj1 (Forall_forall _ _) Hcut c Hc) as H2.
  unfold fitsWindow in H1. cbv beta in H2. lia.
Qed.

Variables (title userId cat : jsstring) (tgs : list jsstring).
Variable parentId : ObjectId.

Lemma runCallbacks_appends (total : nat) (queue : list (nat * TextChunk)) :
  forall db settled db',
  runCallbacks w title userId cat tgs parentId total queue db
  = (settled, db') ->
  exists added,
    db' = db ++ added
    /\ Forall (fun d => uploadedBy (stored d) = userId
                        /\ isPublic (stored d) = true
                        /\ ChatController.category (stored d) = cat
                        /\ isChunk (stored d) = true
                        /\ parentDocumentId (stored d) = Some parentId
                        /\ exists c, In c (List.map snd queue)
                                     /\ content (stored d) = text c) added.
Proof.
  induction queue as [|[index chunk] rest IH]; intros db settled db';
    cbn [runCallbacks].
  - intros [= <- <-]. exists []. now rewrite app_nil_r.
  - destruct (saveChunk w title userId cat tgs parentId total index chunk db)
      as [r1 db1] eqn:E1.
    destruct (runCallbacks w title userId cat tgs parentId total rest db1)
      as [rs db2] eqn:E2.
    intros [= <- <-].
    destruct (IH _ _ _ E2) as (added2 & -> & Hall2).
    assert (Hrest : Forall (fun d => uploadedBy (stored d) = userId
                        /\ isPublic (stored d) = true
                        /\ ChatController.category (stored d) = cat
                        /\ isChunk (stored d) = true
                        /\ parentDocumentId (stored d) = Some parentId
                        /\ exists c,
                             In c (List.map snd ((index, chunk) :: rest))
                             /\ content (stored d) = text c) added2).
    { apply Forall_forall. intros d Hd.
      destruct (proj1 (Forall_forall _ _) Hall2 d Hd)
        as (H1 & H2 & H3 & H4 & H5 & c & Hc & H6).
      repeat split; try assumption. exists c. split; [now right|exact H6]. }
    unfold saveChunk in E1.
    destruct (generateEmbedding w (text chunk)) as [embedding|m].
    + apply create_appends in E1 as [->| ->].
      * exists added2. now split.
      * eexists. rewrite <- app_assoc. split; [reflexivity|].
        constructor; [|exact Hrest]. cbn.
        repeat split. exists chunk. split; [now left|reflexivity].
    + injection E1 as <- <-. exists added2. now split.
Qed.

Lemma saveChunks_appends (chunks : list TextChunk) (db : Collection) r db' :
  saveChunks w title userId cat tgs parentId chunks db = (r, db') ->
  exists added,
    db' = db ++ added
    /\ Forall (fun d => uploadedBy (stored d) = userId
                        /\ isPublic (stored d) = true
                        /\ ChatController.category (stored d) = cat
                        /\ isChunk (stored d) = true
                        /\ parentDocumentId (stored d) = Some parentId
                        /\ exists c, In c chunks
                                     /\ content (stored d) = text c) added.
Proof.
  unfold saveChunks.
  destruct (runCallbacks _ _ _ _ _ _ _ _ _) as [settled db2] eqn:E.
  intros [= _ <-].
  destruct (runCallbacks_appends _ _ _ _ _ E) as (added & -> & Hall).
  exists added. split; [reflexivity|].
  apply Forall_forall. intros d Hd.
  destruct (proj1 (Forall_forall _ _) Hall d Hd)
    as (H1 & H2 & H3 & H4 & H5 & c & Hc & H6).
  repeat split; try assumption. exists c. split; [|exact H6].
  apply in_map_iff in Hc as ([i c'] & Hsnd & Hin). cbn [snd] in Hsnd.
  subst c'. apply arrivalOrder_In in Hin. exact (nth_error_In _ _ Hin).
Qed.

End Stored.

(** X20: ingestion only appends to the store, whether it succeeds or
    fails: the records that were there stay as they are, in their order.
    Every record it adds belongs to the uploading user, is public and has
    the category given (or [other]); a record that is not a chunk has the
    cleaned content, and a chunk names the first record added as its
    parent and has between 1 and 1002 characters. *)
Theorem ingestion_only_appends (fuel : nat) (w : World) (db : Collection)
    (title content userId : jsstring) (category : option jsstring)
    (tags : option (list jsstring)) (r : result Saved) (db' : Collection) :
  processAndSaveDocument fuel w db title content userId category tags
  = Some (r, db') ->
  exists added,
    db' = db ++ added
    /\ Forall (ingested content userId category (List.length db)) added.
Proof.
  unfold processAndSaveDocument.
  destruct (len (cleanText content) >? 2000) eqn:Elong.
  - apply Z.gtb_lt in Elong.
    destruct (chunkText fuel (cleanText content) 1000 200) as [chunks|] eqn:Ec;
      [|discriminate].
    assert (Htexts : Forall (fun c => 0 < len (text c) <= 1002) chunks).
    { apply (chunkText_texts fuel (cleanText content)); [|exact Ec].
      rewrite (cleanText_fixed (cleanText content));
        [lia|apply cleaned_cleanText|apply trim_idem]. }
    destruct (create w db _) as [[parentDoc|m] db1] eqn:Ep.
    + pose proof Ep as Ep'. unfold create in Ep'. cbv zeta in Ep'.
      destruct (documentCreate w _); [|discriminate].
      injection Ep' as <- <-.
      cbn [stored_id stored stored_createdAt].
      destruct (saveChunks w title userId _ _ _ chunks _)
        as [rs db2] eqn:Es.
      destruct (saveChunks_appends w title userId _ _ _ chunks _ _ _ Es)
        as (added & -> & Hall).
      intros Hr.
      assert (Hdb : db' = (db ++ [mkStored (Z.of_nat (List.length db)) (now w)
                             (applySetters
                                (mkNewDocument title (cleanText content)
                                   (categoryOrOther category)
                                   (tagsOrNone tags) [] userId true false
                                   None None
                                   (Some (Z.of_nat (List.length chunks)))))])
                          ++ added)
        by (destruct rs; now injection Hr as _ <-).
      rewrite Hdb, <- app_assoc. eexists. split; [reflexivity|].
      constructor.
      * unfold ingested. cbn. now repeat split.
      * apply Forall_forall. intros d Hd.
        destruct (proj1 (Forall_forall _ _) Hall d Hd)
          as (H1 & H2 & H3 & H4 & H5 & c & Hc & H6).
        unfold ingested. rewrite H4, H6. repeat split; try assumption;
          pose proof (proj1 (Forall_forall _ _) Htexts c Hc) as Hb;
          cbv beta in Hb; lia.
    + apply create_appends in Ep as [->| ->].
      * intros [= <- <-]. exists []. now rewrite app_nil_r.
      * intros [= <- <-]. eexists. split; [reflexivity|].
        constructor; [|constructor]. unfold ingested. cbn. now repeat split.
  - destruct (generateEmbedding w (cleanText content)) as [embedding|m].
    + destruct (create w db _) as [[document|m] db1] eqn:Ed;
        apply create_appends in Ed as [->| ->]; intros [= <- <-].
      * exists []. now rewrite app_nil_r.
      * eexists. split; [reflexivity|].
        constructor; [|constructor]. unfold ingested. cbn. now repeat split.
      * exists []. now rewrite app_nil_r.
      * eexists. split; [reflexivity|].
        constructor; [|constructor]. unfold ingested. cbn. now repeat split.
    + intros [= <- <-]. exists []. now rewrite app_nil_r.
Qed.

Lemma ingestion_only_appends_witness :
  exists m db',
    processAndSaveDocument 6 flakyWorld [] (str "Handbook") demoContent
      (str "u1") None None = Some (Throw m, db')
    /\ List.length db' = 5%nat
    /\ Forall (ingested demoContent (str "u1") None 0) db'.
Proof.
  destruct (processAndSaveDocument 6 flakyWorld [] (str "Handbook")
              demoContent (str "u1") None None) as [[[saved|m] db']|] eqn:E;
    try (vm_compute in E; discriminate).
  exists m, db'. split; [reflexivity|].
  destruct (ingestion_only_appends 6 flakyWorld [] (str "Handbook")
              demoContent (str "u1") None None (Throw m) db' E)
    as (added & -> & Hall).
  split; [|exact Hall].
  vm_compute in E. injection E as _ E. now rewrite <- E.
Defined.

(** ** Titles of chunks and the title rule of the schema *)

Section ChunkTitles.

Lemma len_trim_chunkTitle (title : jsstring) (index total : nat) :
  trim title = title -> title <> [] ->
  len title + 10 <= len (trim (chunkTitle title index total)).
Proof.
  intros Ht Hne. rewrite (trim_chunkTitle title index total Ht Hne).
  unfold chunkTitle. rewrite !len_app.
  change (len (str " (Chunk ")) with 8. change (len (str "/")) with 1.
  change (len (str ")")) with 1.
  pose proof (len_nonneg (str (showZ (Z.of_nat index + 1)))).
  pose proof (len_nonneg (str (showZ (Z.of_nat total)))). lia.
Qed.

Lemma cleanText_head (s : jsstring) (c : char) (r : jsstring) :
  cleanText s = c :: r -> isWhitespace c = false.
Proof.
  intros E. apply (trim_fixed_head (cleanText s) c r); [|exact E].
  unfold cleanText. apply trim_idem.
Qed.

(** [chunkText] returns at least one chunk. *)
Lemma chunkText_nonempty (fuel : nat) (s : jsstring) (chunkSize overlap : Z)
    (chunks : list TextChunk) :
  0 <= chunkSize -> 0 <= overlap ->
  chunkText fuel s chunkSize overlap = Some chunks -> chunks <> [].
Proof.
  intros Hsize Hoverlap Hc.
  destruct (cleanText s) as [|c r] eqn:E.
  - unfold chunkText, chunkTextCounted in Hc. rewrite E in Hc.
    assert (El : (len (@nil char) <=? chunkSize) = true)
      by (apply Z.leb_le; unfold len; simpl; lia).
    rewrite El in Hc. now injection Hc as <-.
  - pose proof (chunkText_covered s chunkSize overlap fuel chunks
                  Hsize Hoverlap Hc 0 c) as Hcov.
    rewrite E in Hcov.
    specialize (Hcov ltac:(unfold len; simpl; lia) eq_refl
                  (cleanText_head s c r E)).
    intros ->. inversion Hcov.
Qed.

Variable w : World.
Variables (title userId cat : jsstring) (tgs : list jsstring).
Variables (parentId : ObjectId) (total : nat).

Hypothesis Hembed : forall t, exists e, generateEmbedding w t = Ok (Some e).
Hypothesis Hrule :
  forall d, 200 < len (trim (ChatController.title d)) ->
            exists m, documentCreate w d = Throw m.
Hypothesis Htrimmed : trim title = title.
Hypothesis Hlong : 190 < len title.

(** When the store refuses every chunk, none is stored and every promise
    rejects. *)
Lemma runCallbacks_rejected (queue : list (nat * TextChunk)) : forall db,
  snd (runCallbacks w title userId cat tgs parentId total queue db) = db
  /\ (queue <> [] ->
      exists m,
        firstRejection
          (fst (runCallbacks w title userId cat tgs parentId total queue db))
        = Some m).
Proof.
  induction queue as [|[index chunk] rest IH]; intros db;
    cbn [runCallbacks]; [now split|].
  assert (Hsave : exists m,
            saveChunk w title userId cat tgs parentId total index chunk db
            = (Throw m, db)).
  { unfold saveChunk. destruct (Hembed (text chunk)) as [e ->].
    unfold create. cbv zeta.
    destruct (Hrule (applySetters
                       (mkNewDocument (chunkTitle title index total)
                          (text chunk) cat tgs (orEmpty (Some e)) userId true
                          true (Some parentId)
                          (Some (TextProcessing.index chunk))
                          (Some (Z.of_nat total))))) as [m ->].
    - cbn [ChatController.title applySetters]. rewrite trim_idem.
      assert (Hne : title <> [])
        by (intros ->; unfold len in Hlong; simpl in Hlong; lia).
      pose proof (len_trim_chunkTitle title index total Htrimmed Hne). lia.
    - now exists m. }
  destruct Hsave as [m ->].
  destruct (IH db) as [Hdb _].
  destruct (runCallbacks w title userId cat tgs parentId total rest db)
    as [rs db2].
  cbn [snd] in Hdb. subst db2. split; [reflexivity|].
  intros _. now exists m.
Qed.

End ChunkTitles.

(** X21: the suffix of a chunk title can push it over the limit of 200
    characters that the document schema sets on titles.  In a store that
    applies this limit, and accepts the parent record, the chunked
    ingestion of a document whose (trimmed) title has more than 190
    characters fails although the title itself is within the limit: every
    chunk is refused, and the parent record stays in the store, announcing
    chunks that do not exist. *)
Theorem long_title_leaves_parent_alone (fuel : nat) (w : World)
    (db : Collection) (title content userId : jsstring)
    (category : option jsstring) (tags : option (list jsstring)) :
  (forall t, exists e, generateEmbedding w t = Ok (Some e)) ->
  (forall d, 200 < len (trim (ChatController.title d)) ->
             exists m, documentCreate w d = Throw m) ->
  (forall d, len (trim (ChatController.title d)) <= 200 ->
             documentCreate w d = Ok tt) ->
  trim title = title -> 190 < len title <= 200 ->
  2000 < len (cleanText content) ->
  (iterationBound content <= fuel)%nat ->
  exists m chunks,
    chunkText fuel (cleanText content) 1000 200 = Some chunks
    /\ chunks <> []
    /\ processAndSaveDocument fuel w db title content userId category tags
       = Some (Throw m,
               db ++ [mkStored (Z.of_nat (List.length db)) (now w)
                        (mkNewDocument title (cleanText content)
                           (categoryOrOther category)
                           (List.map trim (tagsOrNone tags)) []
                           userId true false None None
                           (Some (Z.of_nat (List.length chunks))))]).
Proof.
  intros Hembed Hrule Haccept Htrimmed Htitle Hlong Hfuel.
  assert (Hbound : (iterationBound (cleanText content) <= fuel)%nat).
  { unfold iterationBound in *.
    rewrite (cleanText_fixed (cleanText content));
      [exact Hfuel|apply cleaned_cleanText|apply trim_idem]. }
  destruct (chunkText_defined (cleanText content) fuel Hbound)
    as [chunks Hchunks].
  pose proof (chunkText_nonempty fuel (cleanText content) 1000 200 chunks
                ltac:(lia) ltac:(lia) Hchunks) as Hne.
  unfold processAndSaveDocument.
  assert (E : (len (cleanText content) >? 2000) = true)
    by (apply Z.gtb_lt; lia).
  rewrite E, Hchunks. unfold create at 1. cbv zeta.
  rewrite Haccept
    by (cbn [ChatController.title applySetters]; rewrite trim_idem, Htrimmed;
        lia).
  cbn [stored_id stored stored_createdAt]. unfold saveChunks.
  assert (Hqueue : arrivalOrder w chunks <> []).
  { intros Hq. apply Hne. apply length_zero_iff_nil.
    now rewrite <- (arrivalOrder_length w chunks), Hq. }
  match goal with
  | |- context [runCallbacks ?w ?t ?u ?c ?g ?p ?n ?q ?d] =>
      destruct (runCallbacks_rejected w t u c g p n Hembed Hrule Htrimmed
                  ltac:(lia) q d) as [Hdb Hthrow];
      destruct (Hthrow Hqueue) as [m Hm];
      destruct (runCallbacks w t u c g p n q d) as [settled db2]
  end.
  cbn [fst snd] in *. subst db2. unfold promiseAll. rewrite Hm.
  exists m, chunks. split; [reflexivity|]. split; [exact Hne|].
  unfold applySetters. cbn [ChatController.title ChatController.content
    ChatController.category ChatController.tags embedding uploadedBy isPublic
    isChunk parentDocumentId chunkIndex chunkCount].
  now rewrite Htrimmed.
Qed.

Lemma long_title_leaves_parent_alone_witness :
  190 < len (rep 195 "T") <= 200
  /\ exists m parent,
       processAndSaveDocument 6 schemaWorld [] (rep 195 "T") demoContent
         (str "u1") None None = Some (Throw m, [parent])
       /\ chunkCount (stored parent) = Some 5
       /\ isChunk (stored parent) = false.
Proof.
  split; [vm_compute; split; [reflexivity|discriminate]|].
  destruct (long_title_leaves_parent_alone 6 schemaWorld [] (rep 195 "T")
              demoContent (str "u1") None None)
    as (m & chunks & Hc & _ & Hp).
  - intros t. eexists. reflexivity.
  - intros d Hd. cbn [documentCreate schemaWorld].
    apply Z.gtb_lt in Hd. rewrite Hd. eexists. reflexivity.
  - intros d Hd. cbn [documentCreate schemaWorld].
    destruct (_ >? 200) eqn:E; [apply Z.gtb_lt in E; lia|reflexivity].
  - vm_compute. reflexivity.
  - vm_compute. split; [reflexivity|discriminate].
  - vm_compute. reflexivity.
  - vm_compute. reflexivity.
  - exists m. eexists. split; [exact Hp|]. split; [|reflexivity].
    cbn [chunkCount stored]. vm_compute in Hc. injection Hc as <-.
    reflexivity.
Defined.

(** ** Deleting what was ingested *)

Section Deletion.

Lemma filter_all {A : Type} (f : A -> bool) (l : list A) :
  Forall (fun x => f x = true) l -> List.filter f l = l.
Proof.
  induction 1 as [|x l Hx _ IH]; [reflexivity|].
  cbn [List.filter]. now rewrite Hx, IH.
Qed.

Lemma filter_none {A : Type} (f : A -> bool) (l : list A) :
  Forall (fun x => f x = false) l -> List.filter f l = [].
Proof.
  induction 1 as [|x l Hx _ IH]; [reflexivity|].
  cbn [List.filter]. now rewrite Hx, IH.
Qed.

Lemma find_behind {A : Type} (f : A -> bool) (l more : list A) :
  Forall (fun x => f x = false) l ->
  List.find f (l ++ more) = List.find f more.
Proof.
  induction 1 as [|x l Hx _ IH]; [reflexivity|].
  cbn [app List.find]. now rewrite Hx, IH.
Qed.

Variable w : World.
Variables (title userId : jsstring).

Lemma childRecords_children (cat : jsstring) (tgs : list jsstring)
    (parentId : ObjectId) (total : nat) (queue : list (nat * TextChunk)) :
  forall id,
  parentId < id ->
  Forall (fun d => isChildOf parentId d = true /\ hasId parentId d = false)
    (childRecords w title userId cat tgs parentId total id queue).
Proof.
  induction queue as [|[i chunk] rest IH]; intros id Hid;
    cbn [childRecords]; constructor.
  - unfold isChildOf, hasId, childRecord. cbn. rewrite Z.eqb_refl.
    split; [reflexivity|]. apply Z.eqb_neq. lia.
  - apply IH. lia.
Qed.

Hypothesis Hembed : forall t, exists e, generateEmbedding w t = Ok (Some e).
Hypothesis Hstore : forall d, documentCreate w d = Ok tt.

(** What a successful ingestion adds to the store: a first record, and
    behind it its chunks when it announces some. *)
Lemma processAndSaveDocument_stores (fuel : nat) (db : Collection)
    (content : jsstring) (category : option jsstring)
    (tags : option (list jsstring)) :
  (iterationBound content <= fuel)%nat ->
  exists saved first rest,
    processAndSaveDocument fuel w db title content userId category tags
    = Some (Ok saved, db ++ first :: rest)
    /\ saved_id saved = Z.of_nat (List.length db)
    /\ hasId (Z.of_nat (List.length db)) first = true
    /\ isChildOf (Z.of_nat (List.length db)) first = false
    /\ Forall (fun d => isChildOf (Z.of_nat (List.length db)) d = true
                        /\ hasId (Z.of_nat (List.length db)) d = false) rest
    /\ (rest <> [] -> hasChunks first = true).
Proof.
  intros Hfuel. unfold processAndSaveDocument.
  destruct (len (cleanText content) >? 2000) eqn:Elong.
  - assert (Hbound : (iterationBound (cleanText content) <= fuel)%nat).
    { unfold iterationBound in *.
      rewrite (cleanText_fixed (cleanText content));
        [exact Hfuel|apply cleaned_cleanText|apply trim_idem]. }
    destruct (chunkText_defined (cleanText content) fuel Hbound)
      as [chunks Hchunks].
    rewrite Hchunks, (create_ok w Hstore).
    cbn [stored_id stored stored_createdAt].
    match goal with
    | |- context [saveChunks ?w ?t ?u ?c ?g ?p ?cs ?d] =>
        destruct (saveChunks_ok w t u c g Hembed Hstore p cs d)
          as (saved & ->)
    end.
    rewrite <- app_assoc. cbn [app].
    eexists. eexists. eexists. split; [reflexivity|].
    split; [reflexivity|]. split; [apply Z.eqb_refl|].
    split; [reflexivity|]. split.
    + apply childRecords_children. rewrite length_app. cbn. lia.
    + intros Hne. unfold hasChunks. cbn.
      apply Z.gtb_lt. destruct chunks; [now destruct Hne|cbn; lia].
  - destruct (Hembed (cleanText content)) as [e ->].
    rewrite (create_ok w Hstore).
    eexists. eexists. exists []. split; [reflexivity|].
    split; [reflexivity|]. split; [apply Z.eqb_refl|].
    split; [reflexivity|]. split; [constructor|]. now intros [].
Qed.

End Deletion.

(** X22: deleting a document undoes its ingestion.  When the services and
    the store work and no record of the store carries the identifier the
    store gives the new document, neither as its own nor as that of its
    parent, a successful [processAndSaveDocument] followed by
    [deleteDocument] on the identifier it returned leaves the store as it
    was before: the record and all its chunks are removed, and nothing
    else. *)
Theorem delete_undoes_ingestion (fuel : nat) (w : World)
    (calls : StoreCalls) (db : Collection) (title content userId : jsstring)
    (category : option jsstring) (tags : option (list jsstring))
    (admin : UserPayload) :
  (forall t, exists e, generateEmbedding w t = Ok (Some e)) ->
  (forall d, documentCreate w d = Ok tt) ->
  (iterationBound content <= fuel)%nat ->
  findById calls = Ok tt -> deleteMany calls = Ok tt ->
  deleteOne calls = Ok tt ->
  Forall (fun d => hasId (Z.of_nat (List.length db)) d = false
                   /\ isChildOf (Z.of_nat (List.length db)) d = false) db ->
  exists saved db',
    processAndSaveDocument fuel w db title content userId category tags
    = Some (Ok saved, db')
    /\ (List.length db < List.length db')%nat
    /\ deleteDocument calls db' (Some admin) (saved_id saved)
       = (Success 200 tt, db).
Proof.
  intros Hembed Hstore Hfuel Hfind Hmany Hone Hfresh.
  destruct (processAndSaveDocument_stores w title userId Hembed Hstore fuel
              db content category tags Hfuel)
    as (saved & first & rest & Hp & Hid & Hfirst & Hroot & Hrest & Hchunks).
  exists saved, (db ++ first :: rest). split; [exact Hp|].
  split; [rewrite length_app; cbn; lia|].
  rewrite Hid. set (id := Z.of_nat (List.length db)) in *.
  assert (Hdb1 : Forall (fun d => hasId id d = false) db).
  { apply Forall_forall. intros d Hd.
    exact (proj1 (proj1 (Forall_forall _ _) Hfresh d Hd)). }
  assert (Hdb2 : Forall (fun d => negb (isChildOf id d) = true) db).
  { apply Forall_forall. intros d Hd.
    now rewrite (proj2 (proj1 (Forall_forall _ _) Hfresh d Hd)). }
  assert (Hdb3 : Forall (fun d => negb (hasId id d) = true) db).
  { apply Forall_forall. intros d Hd.
    now rewrite (proj1 (proj1 (Forall_forall _ _) Hfresh d Hd)). }
  assert (Hrest1 : Forall (fun d => negb (isChildOf id d) = false) rest).
  { apply Forall_forall. intros d Hd.
    now rewrite (proj1 (proj1 (Forall_forall _ _) Hrest d Hd)). }
  assert (Hfound : List.find (hasId id) (db ++ first :: rest) = Some first).
  { rewrite (find_behind _ _ _ Hdb1). cbn [List.find].
    now rewrite Hfirst. }
  assert (Hlast : List.filter (fun d => negb (hasId (stored_id first) d))
                    (db ++ [first]) = db).
  { unfold hasId in Hfirst. apply Z.eqb_eq in Hfirst. rewrite Hfirst.
    rewrite filter_app, (filter_all _ _ Hdb3). cbn [List.filter].
    unfold hasId at 1. rewrite Hfirst, Z.eqb_refl. cbn [negb].
    apply app_nil_r. }
  unfold deleteDocument. rewrite Hfind, Hfound.
  destruct (hasChunks first) eqn:Ec.
  - rewrite Hmany, Hone.
    rewrite filter_app, (filter_all _ _ Hdb2). cbn [List.filter].
    rewrite Hroot. cbn [negb]. rewrite (filter_none _ _ Hrest1).
    now rewrite Hlast.
  - rewrite Hone.
    destruct rest as [|d rest].
    + now rewrite Hlast.
    + assert (Hne : d :: rest <> []) by (intros E; discriminate E).
      discriminate (Hchunks Hne).
Qed.

Lemma delete_undoes_ingestion_witness :
  (iterationBound demoContent <= 6)%nat
  /\ exists saved db',
       processAndSaveDocument 6 demoWorld [] (str "Handbook") demoContent
         (str "u1") None None = Some (Ok saved, db')
       /\ List.length db' = 6%nat
       /\ deleteDocument (mkStoreCalls (Ok tt) (Ok tt) (Ok tt)) db'
            (Some demoUser) (saved_id saved) = (Success 200 tt, []).
Proof.
  split; [vm_compute; reflexivity|].
  destruct (delete_undoes_ingestion 6 demoWorld
              (mkStoreCalls (Ok tt) (Ok tt) (Ok tt)) [] (str "Handbook")
              demoContent (str "u1") None None demoUser)
    as (saved & db' & Hp & _ & Hd).
  - intros t. eexists. reflexivity.
  - intros d. reflexivity.
  - vm_compute. reflexivity.
  - reflexivity.
  - reflexivity.
  - reflexivity.
  - constructor.
  - exists saved, db'. split; [exact Hp|]. split; [|exact Hd].
    vm_compute in Hp. injection Hp as _ <-. reflexivity.
Defined.

(** ** The routes *)

Section Roles.

Lemma staff_roles (role : jsstring) :
  existsb (jsEqb role) staff = true
  <-> role = str "admin" \/ role = str "staff".
Proof.
  unfold staff. cbn [existsb]. rewrite orb_false_r, orb_true_iff. split.
  - intros [E|E]; apply jsEqb_eq in E; [now left|now right].
  - intros [-> | ->]; [left|right]; apply jsEqb_refl.
Qed.

Lemma authorize_staff (u : UserPayload) :
  user_role u = str "admin" \/ user_role u = str "staff" ->
  authorize staff (Some u) = Next.
Proof.
  intros Hr. unfold authorize. now rewrite (proj2 (staff_roles _) Hr).
Qed.

Lemma authorize_other (u : UserPayload) :
  user_role u <> str "admin" -> user_role u <> str "staff" ->
  authorize staff (Some u)
  = Answered 403
      (str "User role '" ++ user_role u
       ++ str "' is not authorized to access this route").
Proof.
  intros Ha Hs. unfold authorize.
  destruct (existsb (jsEqb (user_role u)) staff) eqn:E; [|reflexivity].
  apply staff_roles in E. tauto.
Qed.

End Roles.

(** X23: the routes that change the document store are closed to users
    who are neither admin nor staff: uploading a text, uploading a file
    and deleting a document are answered with status 403 by the
    [authorize] middleware, the handler does not run, and the store is as
    it was.  For an admin or a member of staff the text route gives what
    [uploadDocument] gives. *)
Theorem document_routes_need_staff (u : UserPayload) :
  (user_role u <> str "admin" -> user_role u <> str "staff" ->
   let refusal :=
     str "User role '" ++ user_role u
     ++ str "' is not authorized to access this route" in
   (forall fuel w db req,
      up_user req = Some u ->
      postUploadText fuel w db req = Some (Stopped 403 refusal, db))
   /\ (forall readers fuel w db req,
         file_user req = Some u ->
         postUploadFile readers fuel w db req
         = Some (Stopped 403 refusal, db))
   /\ (forall calls db id,
         deleteDocumentRoute calls db (Some u) id
         = (Stopped 403 refusal, db)))
  /\ (user_role u = str "admin" \/ user_role u = str "staff" ->
      forall fuel w db req,
        up_user req = Some u ->
        postUploadText fuel w db req
        = option_map (fun r => (Handled (fst r), snd r))
            (uploadDocument fuel w db req)).
Proof.
  split.
  - intros Ha Hs refusal. split; [|split].
    + intros fuel w db req Hu. unfold postUploadText.
      now rewrite Hu, (authorize_other u Ha Hs).
    + intros readers fuel w db req Hu. unfold postUploadFile.
      now rewrite Hu, (authorize_other u Ha Hs).
    + intros calls db id. unfold deleteDocumentRoute.
      now rewrite (authorize_other u Ha Hs).
  - intros Hr fuel w db req Hu. unfold postUploadText.
    rewrite Hu, (authorize_staff u Hr).
    destruct (uploadDocument fuel w db req) as [[response db']|];
      reflexivity.
Qed.

Example student_cannot_upload :
  postUploadText 0 demoWorld []
    (mkUploadRequest (Some (str "Library hours"))
       (Some (str "The library opens at 8.")) None None []
       (Some demoUser))
  = Some (Stopped 403
            (str "User role 'student' is not authorized to access this route"),
          []).
Proof. reflexivity. Qed.

(** X24: the upload route can accept a file that the handler then cannot
    read.  The filter of the route passes a file whose name ends in
    [.txt] whatever its media type, while [uploadFile] decides by the media
    type when there is one: with a media type that is neither that of PDF
    nor mentions [text] or [txt], the file passes the filter and the
    request fails with status 500, the error naming the media type as
    unsupported; nothing is stored. *)
Theorem accepted_file_can_be_unsupported (readers : Readers) (fuel : nat)
    (w : World) (db : Collection) (req : FileRequest) (file : UploadedFile)
    (u : UserPayload) :
  file_user req = Some u ->
  user_role u = str "admin" \/ user_role u = str "staff" ->
  file_file req = Some file ->
  endsWith (originalname file) (str ".txt") = true ->
  Z.of_nat (List.length (buffer file)) <= fileSizeLimit ->
  mimetype file <> [] ->
  jsEqb (mimetype file) (str "application/pdf") = false ->
  endsWith (mimetype file) (str ".pdf") = false ->
  JS.includes (mimetype file) (str "text") = false ->
  JS.includes (mimetype file) (str "txt") = false ->
  fileFilter file = true
  /\ postUploadFile readers fuel w db req
     = Some (Handled
               (FileFailure 500 "Error processing uploaded file"
                  (Some (ExtractionError
                           (UnsupportedFileType (mimetype file))))),
             db).
Proof.
  intros Hu Hrole Hfile Hname Hsize Hmime Hpdf1 Hpdf2 Htext Htxt.
  assert (Hfilter : fileFilter file = true).
  { unfold fileFilter. rewrite Hname. now rewrite !orb_true_r. }
  split; [exact Hfilter|].
  unfold postUploadFile. rewrite Hu, (authorize_staff u Hrole), Hfile.
  rewrite Hfilter. cbn [negb].
  destruct (fileSizeLimit <? _) eqn:E; [apply Z.ltb_lt in E; lia|].
  unfold uploadFile. rewrite Hu, Hfile.
  assert (Htype : orElse (mimetype file) (originalname file) = mimetype file)
    by (destruct (mimetype file); [congruence|reflexivity]).
  rewrite Htype. unfold extractTextFromFile.
  now rewrite Hpdf1, Hpdf2, Htext, Htxt.
Qed.

Lemma accepted_file_can_be_unsupported_witness :
  fileFilter (mkFile (str "notes.txt") (str "application/octet-stream")
                [104; 105]%N) = true
  /\ postUploadFile (mkReaders (fun _ => Ok None) (fun b => b)) 0
       demoWorld []
       (mkFileRequest None None None
          (Some (mkFile (str "notes.txt") (str "application/octet-stream")
                   [104; 105]%N))
          (Some (mkUser (str "u1") (str "admin@astu.edu.et") (str "admin"))))
     = Some (Handled
               (FileFailure 500 "Error processing uploaded file"
                  (Some (ExtractionError
                           (UnsupportedFileType
                              (str "application/octet-stream"))))),
             []).
Proof.
  apply (accepted_file_can_be_unsupported
           (mkReaders (fun _ => Ok None) (fun b => b)) 0 demoWorld []
           (mkFileRequest None None None
              (Some (mkFile (str "notes.txt")
                       (str "application/octet-stream") [104; 105]%N))
              (Some (mkUser (str "u1") (str "admin@astu.edu.et")
                            (str "admin"))))
           (mkFile (str "notes.txt") (str "application/octet-stream")
              [104; 105]%N)
           (mkUser (str "u1") (str "admin@astu.edu.et") (str "admin")));
    try reflexivity.
  - now left.
  - vm_compute. discriminate.
  - discriminate.
Defined.

(** ** Ties in the ranking *)

Section Ties.

Local Open Scope float_scope.

Lemma float_eqb_leb (a b : float) :
  (a =? b) = true ->
  (a <=? b) = true /\ (b <=? a) = true
  /\ PrimFloat.is_nan a = false /\ PrimFloat.is_nan b = false.
Proof.
  rewrite eqb_spec, !leb_spec. unfold SFeqb, SFleb.
  rewrite (SFcompare_antisym (Prim2SF a) (Prim2SF b)).
  destruct (SFcompare (Prim2SF a) (Prim2SF b)) as [[| |]|] eqn:E;
    try discriminate.
  intros _. split; [reflexivity|]. split; [reflexivity|]. split.
  - destruct (PrimFloat.is_nan a) eqn:Ea; [|reflexivity].
    unfold Prim2SF in E. rewrite Ea in E. discriminate.
  - destruct (PrimFloat.is_nan b) eqn:Eb; [|reflexivity].
    unfold Prim2SF in E at 2. rewrite Eb in E.
    now destruct (Prim2SF a) as [[|]|[|]| |[|] ? ?].
Qed.

Lemma float_ltb_not_leb (a b : float) :
  (a <? b) = true -> (b <=? a) = false.
Proof.
  rewrite ltb_spec, leb_spec. unfold SFltb, SFleb.
  rewrite (SFcompare_antisym (Prim2SF a) (Prim2SF b)).
  destruct (SFcompare (Prim2SF a) (Prim2SF b)) as [[| |]|];
    try discriminate. reflexivity.
Qed.

Lemma tie_not_moved (x y v : float) :
  (x =? v) = true -> (y =? v) = true -> (x <? y) = false.
Proof.
  intros Hx Hy. destruct (x <? y) eqn:E; [|reflexivity].
  apply float_ltb_not_leb in E.
  destruct (float_eqb_leb x v Hx) as (_ & Hvx & Hxn & Hvn).
  destruct (float_eqb_leb y v Hy) as (Hyv & _ & Hyn & _).
  rewrite (float_leb_trans y v x Hyn Hvn Hxn Hyv Hvx) in E. discriminate.
Qed.

Context {T : Type}.

Lemma insertSorted_ties (v : float) (x : T * float) (l : list (T * float)) :
  List.filter (fun p => snd p =? v) (insertSorted x l)
  = List.filter (fun p => snd p =? v) (x :: l).
Proof.
  induction l as [|y l IH]; [reflexivity|]. cbn [insertSorted].
  destruct (wantsAfter x y) eqn:E; [|reflexivity].
  rewrite wantsAfter_lt in E. cbn [List.filter] in *. rewrite IH.
  destruct (snd x =? v) eqn:Ex; [|reflexivity].
  destruct (snd y =? v) eqn:Ey; [|reflexivity].
  now rewrite (tie_not_moved _ _ _ Ex Ey) in E.
Qed.

Lemma sortBySimilarity_ties (v : float) (l : list (T * float)) :
  List.filter (fun p => snd p =? v) (sortBySimilarity l)
  = List.filter (fun p => snd p =? v) l.
Proof.
  induction l as [|x l IH]; [reflexivity|].
  cbn [sortBySimilarity fold_right]. fold (sortBySimilarity l).
  rewrite insertSorted_ties. cbn [List.filter]. now rewrite IH.
Qed.

End Ties.

(** X25: the order of the result of [findTopKSimilar].  For [k >= 0],
    when the embeddings kept have the length of the query vector and no
    similarity is NaN, the result is the first [k] pairs of a ranking of
    the kept items with their similarities: the ranking holds each of them
    once, every pair of it has at least the similarity of the next, and
    pairs of the same similarity stand in the order in which their items
    were given. *)
Theorem findTopKSimilar_stable {T : Type}
    (embedding : T -> option (list float)) (queryVector : list float)
    (items : list T) (k : Z) :
  (0 <= k)%Z ->
  (forall item e,
     In item (List.filter (hasEmbedding embedding) items) ->
     embedding item = Some e -> List.length e = List.length queryVector) ->
  (forall item e s,
     In item (List.filter (hasEmbedding embedding) items) ->
     embedding item = Some e -> cosineSimilarity queryVector e = Ok s ->
     PrimFloat.is_nan s = false) ->
  exists withScores ranked,
    scoredFrom embedding queryVector
      (List.filter (hasEmbedding embedding) items) withScores
    /\ findTopKSimilar embedding queryVector items k
       = Ok (firstn (Z.to_nat k) ranked)
    /\ Permutation ranked withScores
    /\ chain atLeast ranked
    /\ forall v : float,
         List.filter (fun p => snd p =? v)%float ranked
         = List.filter (fun p => snd p =? v)%float withScores.
Proof.
  intros Hk Hdim Hnan.
  destruct (score_ok embedding queryVector
              (List.filter (hasEmbedding embedding) items))
    as (sc & Hsc & Hfrom).
  { intros item Hin.
    pose proof (proj2 (proj1 (filter_In _ _ _) Hin)) as Hhas.
    unfold hasEmbedding in Hhas.
    destruct (embedding item) as [e|] eqn:Ee; [|discriminate].
    exists e. split; [reflexivity|]. now apply (Hdim item e). }
  exists sc, (sortBySimilarity sc). split; [exact Hfrom|].
  split; [|split; [|split]].
  - unfold findTopKSimilar. rewrite Hsc.
    now rewrite (slice0_firstn _ k Hk).
  - apply sortBySimilarity_perm.
  - apply descends_atLeast; [|apply sortBySimilarity_chain].
    exact (sorted_not_nan embedding queryVector _ sc Hnan Hfrom).
  - intros v. apply sortBySimilarity_ties.
Qed.

Lemma findTopKSimilar_stable_witness :
  (0 <= 3)%Z
  /\ exists ranked : list (list float * float),
       findTopKSimilar (fun e : list float => Some e) [1; 0]%float
         [[0; 1]; [1; 1]; [1; 0]; [2; 2]]%float 3
       = Ok (firstn (Z.to_nat 3) ranked)
       /\ List.length ranked = 4%nat
       /\ chain atLeast ranked.
Proof.
  split; [lia|].
  destruct (findTopKSimilar_stable (fun e : list float => Some e)
              [1; 0]%float [[0; 1]; [1; 1]; [1; 0]; [2; 2]]%float 3
              ltac:(lia))
    as (sc & ranked & [Hmap _] & Hout & Hperm & Hchain & _).
  - intros item e Hin [= ->]. simpl in Hin.
    intuition (subst; reflexivity).
  - intros item e s Hin [= ->] Hs. simpl in Hin.
    destruct Hin as [<-|[<-|[<-|[<-|[]]]]];
      vm_compute in Hs; injection Hs as <-; reflexivity.
  - exists ranked. split; [exact Hout|]. split; [|exact Hchain].
    rewrite (Permutation_length Hperm), <- (length_map fst sc), Hmap.
    reflexivity.
Defined.

(** The two items at the same angle to the query keep their order behind
    the exact match. *)
Example stable_ranking_demo :
  findTopKSimilar (fun e : list float => Some e) [1; 0]%float
    [[0; 1]; [1; 1]; [1; 0]; [2; 2]]%float 3
  = Ok [([1; 0], 1); ([1; 1], 0x1.6a09e667f3bccp-1);
        ([2; 2], 0x1.6a09e667f3bccp-1)]%float.
Proof. vm_compute. reflexivity. Qed.
